(** * Outline web clipper: image pipeline, link classifier and converters

    A shallow embedding of the parts of the extension that its specification
    makes claims about:

    - [UploadStateStorage]  (src/features/storage/upload-state.ts)
    - [ContentExtractor.convertTableToMarkdown] and
      [ContentExtractor.convertRelativeImageUrls]
      (src/features/content_extraction/extractor.ts)
    - [LinkProcessor]       (src/features/content_extraction/link-processor.ts)
    - [OutlineClient.uploadImage], [processImagesInContent] and
      [replaceImageUrlInContent]
      (src/features/outline_integration/client.ts)

    and of the functions next to them that work on strings and lists:

    - [normalizePath], [parseSrcset], [extractUrlsFromCss], [isValidImageUrl],
      [processGitHubRawMarkdown], [extractImagesFromMarkdown] and [hashCode]
      (extractor.ts)
    - [LinkProcessor.isEmbeddableLink]  (link-processor.ts)
    - [escapeRegExp], [getEmojiFromColor], [getDefaultEmoji] and
      [buildDocumentTree]  (client.ts)
    - [ConfigStorage.addRecentClip]  (src/features/storage/config.ts)

    JavaScript strings are lists of code units; the embedding uses the 256
    code units of [ascii].  Promises are modelled by their settled value,
    the network and the browser by explicit oracles and explicit state. *)

From Stdlib Require Import Ascii String List ZArith Lia Bool Arith Sorted.
From stdpp Require Import base option list gmap strings.

Open Scope list_scope.

(** ** JavaScript strings *)

Module JsString.

Abbreviation str := (list ascii).

(** A string literal of the source. *)
Definition js (s : string) : str := list_ascii_of_string s.

Definition LF : ascii := "010"%char.
Definition DQUOTE : ascii := "034"%char.
Definition SQUOTE : ascii := "039"%char.

Definition ceq (a b : ascii) : bool := Ascii.eqb a b.

(** [s.startsWith(p)] *)
Fixpoint startsWith (p s : str) : bool :=
  match p, s with
  | [], _ => true
  | _ :: _, [] => false
  | a :: p', b :: s' => ceq a b && startsWith p' s'
  end.

(** [s.includes(t)] *)
Fixpoint includes (s t : str) : bool :=
  startsWith t s ||
  match s with
  | [] => false
  | _ :: s' => includes s' t
  end.

(** [parts.join(sep)] *)
Fixpoint join (sep : str) (parts : list str) : str :=
  match parts with
  | [] => []
  | [p] => p
  | p :: rest => p ++ sep ++ join sep rest
  end.

(** [s.split(sep)] for a non-empty separator: [acc] holds, reversed, the
    code units of the piece being read; [fuel] bounds the code units left. *)
Fixpoint split_go (fuel : nat) (sep : str) (acc : str) (s : str) : list str :=
  match fuel with
  | O => [rev acc ++ s]
  | S fuel' =>
      match s with
      | [] => [rev acc]
      | c :: s' =>
          if startsWith sep s
          then rev acc :: split_go fuel' sep [] (drop (length sep) s)
          else split_go fuel' sep (c :: acc) s'
      end
  end.

(** [s.split(sep)]: with the empty separator the string falls apart into its
    code units (and the empty string into no piece at all). *)
Definition split (sep : str) (s : str) : list str :=
  match sep with
  | [] => map (fun c => [c]) s
  | _ :: _ => split_go (S (length s)) sep [] s
  end.

(** White space of [String.prototype.trim] among the first 256 code units:
    TAB, LF, VT, FF, CR, SPACE and NBSP. *)
Definition isWhiteSpace (c : ascii) : bool :=
  let n := nat_of_ascii c in
  ((9 <=? n) && (n <=? 13)) || (n =? 32) || (n =? 160).

Fixpoint trimStart (s : str) : str :=
  match s with
  | c :: s' => if isWhiteSpace c then trimStart s' else s
  | [] => []
  end.

Definition trimEnd (s : str) : str := rev (trimStart (rev s)).

(** [s.trim()] *)
Definition trim (s : str) : str := trimEnd (trimStart s).

Definition str_eqb (a b : str) : bool := bool_decide (a = b).

End JsString.

Import JsString.

(** ** Regular expressions

    The fragment of ECMAScript regular expressions that the sources use:
    literal code units, character classes, greedy [*] and [+] on a single
    class, sequence, alternation and numbered capture groups, with the [i]
    flag.  Matching is the backtracking search of the language: the first
    alternative and the longest repetition are tried first. *)

Module RegExp.

(** Members of a character class. *)
Inductive member :=
| MChar (c : ascii)
| MRange (lo hi : ascii)
| MSpace                      (* \s *)
| MDigit.                     (* \d *)

Inductive atom :=
| Lit (c : ascii)
| Class (negated : bool) (ms : list member).

Inductive regex :=
| Eps
| One (a : atom)
| Star (a : atom)
| Plus (a : atom)
| Seq (r1 r2 : regex)
| Alt (r1 r2 : regex)
| Group (i : nat) (r : regex).

(** Captures, most recent first. *)
Definition captures := list (nat * str).

Fixpoint cap (caps : captures) (i : nat) : option str :=
  match caps with
  | [] => None
  | (j, s) :: rest => if Nat.eqb i j then Some s else cap rest i
  end.

Definition seqs (rs : list regex) : regex := fold_right Seq Eps rs.

(** The text [s] taken literally, as [escapeRegExp] makes it. *)
Definition lit (s : str) : regex := seqs (map (fun c => One (Lit c)) s).

Definition inRange (lo hi c : ascii) : bool :=
  (nat_of_ascii lo <=? nat_of_ascii c) && (nat_of_ascii c <=? nat_of_ascii hi).

(** [toUpperCase] and [toLowerCase] of one code unit below 256, where the
    result is again one code unit below 256. *)
Definition upper (c : ascii) : ascii :=
  let n := nat_of_ascii c in
  if ((97 <=? n) && (n <=? 122)) || ((224 <=? n) && (n <=? 254) && negb (n =? 247))
  then ascii_of_nat (n - 32) else c.

Definition lower (c : ascii) : ascii :=
  let n := nat_of_ascii c in
  if ((65 <=? n) && (n <=? 90)) || ((192 <=? n) && (n <=? 222) && negb (n =? 215))
  then ascii_of_nat (n + 32) else c.

(** Canonicalize of the [i] flag. *)
Definition canon (icase : bool) (c : ascii) : ascii :=
  if icase then upper c else c.

Definition memberMatches (icase : bool) (m : member) (c : ascii) : bool :=
  match m with
  | MChar x => ceq (canon icase x) (canon icase c)
  | MRange lo hi =>
      inRange lo hi c || (icase && (inRange lo hi (upper c) || inRange lo hi (lower c)))
  | MSpace => isWhiteSpace c
  | MDigit => inRange "0" "9" c
  end.

Definition atomMatches (icase : bool) (a : atom) (c : ascii) : bool :=
  match a with
  | Lit x => ceq (canon icase x) (canon icase c)
  | Class negated ms => xorb negated (existsb (fun m => memberMatches icase m c) ms)
  end.

Section Matcher.
Context {R : Type} (icase : bool).

(** Greedy repetition of one class, then the continuation. *)
Fixpoint star (a : atom) (s : str) (k : str -> option R) : option R :=
  match s with
  | c :: s' =>
      if atomMatches icase a c
      then match star a s' k with
           | Some r => Some r
           | None => k s
           end
      else k s
  | [] => k []
  end.

Fixpoint run (r : regex) (s : str) (caps : captures)
         (k : str -> captures -> option R) : option R :=
  match r with
  | Eps => k s caps
  | One a =>
      match s with
      | c :: s' => if atomMatches icase a c then k s' caps else None
      | [] => None
      end
  | Star a => star a s (fun s' => k s' caps)
  | Plus a =>
      match s with
      | c :: s' =>
          if atomMatches icase a c then star a s' (fun s'' => k s'' caps) else None
      | [] => None
      end
  | Seq r1 r2 => run r1 s caps (fun s' caps' => run r2 s' caps' k)
  | Alt r1 r2 =>
      match run r1 s caps k with
      | Some x => Some x
      | None => run r2 s caps k
      end
  | Group i r1 =>
      run r1 s caps
          (fun s' caps' => k s' ((i, take (length s - length s') s) :: caps'))
  end.
End Matcher.

(** A match that starts at the head of [s]: what is left and the captures. *)
Definition matchAt (icase : bool) (r : regex) (s : str) : option (str * captures) :=
  run icase r s [] (fun s' caps => Some (s', caps)).

Record found := mkFound {
  before : str;
  matched : str;
  groups : captures;
  after : str
}.

(** [regex.exec(s)] from index 0: the leftmost match. *)
Fixpoint search_from (icase : bool) (r : regex) (skipped : str) (s : str) : option found :=
  match matchAt icase r s with
  | Some (rest, caps) =>
      Some (mkFound (rev skipped) (take (length s - length rest) s) caps rest)
  | None =>
      match s with
      | c :: s' => search_from icase r (c :: skipped) s'
      | [] => None
      end
  end.

Definition search (icase : bool) (r : regex) (s : str) : option found :=
  search_from icase r [] s.

(** [regex.test(s)] on a fresh expression. *)
Definition test (icase : bool) (r : regex) (s : str) : bool :=
  match search icase r s with Some _ => true | None => false end.

(** [s.replace(regex, f)] with the [g] flag.  [inside] counts the code
    units of the current match that are still to be passed over; an empty
    match is followed by one copied code unit. *)
Fixpoint replace_from (icase : bool) (r : regex) (f : str -> captures -> str)
         (inside : nat) (s : str) : str :=
  match s with
  | [] =>
      match inside with
      | O => match matchAt icase r [] with
             | Some (_, caps) => f [] caps
             | None => []
             end
      | S _ => []
      end
  | c :: s' =>
      match inside with
      | S n => replace_from icase r f n s'
      | O =>
          match matchAt icase r s with
          | Some (rest, caps) =>
              let n := length s - length rest in
              f (take n s) caps ++
              match n with
              | O => c :: replace_from icase r f 0 s'
              | S n' => replace_from icase r f n' s'
              end
          | None => c :: replace_from icase r f 0 s'
          end
      end
  end.

Definition replaceAll (icase : bool) (r : regex) (f : str -> captures -> str) (s : str) : str :=
  replace_from icase r f 0 s.

(** A capture that took part in the match. *)
Definition group (caps : captures) (i : nat) : str := default [] (cap caps i).

(** [s.toLowerCase()] *)
Definition toLowerCase (s : str) : str := map lower s.

(** The longest prefix of code units that satisfy [p], and what follows it. *)
Fixpoint keepWhile (p : ascii -> bool) (s : str) : str :=
  match s with
  | c :: s' => if p c then c :: keepWhile p s' else []
  | [] => []
  end.

Fixpoint skipWhile (p : ascii -> bool) (s : str) : str :=
  match s with
  | c :: s' => if p c then skipWhile p s' else s
  | [] => []
  end.

(** *** The bracket patterns read from left to right

    The link and the image pattern have one way to match: the text in
    brackets runs to the first closing bracket, the text in parentheses is
    not empty and runs to the first closing parenthesis. *)

Definition notChar (x c : ascii) : bool := negb (ceq x c).

(** After the opening parenthesis: the text in parentheses and what follows
    the closing parenthesis. *)
Definition scanParen (t : str) : option (str * str) :=
  match t with
  | c :: t' =>
      if notChar ")" c then
        match skipWhile (notChar ")") t' with
        | c' :: rest =>
            if ceq ")" c' then Some (c :: keepWhile (notChar ")") t', rest) else None
        | [] => None
        end
      else None
  | [] => None
  end.

(** After the opening bracket: the text in brackets, the text in parentheses
    and what follows. *)
Definition scanBracket (s : str) : option (str * str * str) :=
  match skipWhile (notChar "]") s with
  | c1 :: c2 :: t =>
      if ceq "]" c1 then
        if ceq "(" c2 then
          match scanParen t with
          | Some (inParen, rest) => Some (keepWhile (notChar "]") s, inParen, rest)
          | None => None
          end
        else None
      else None
  | _ => None
  end.

(** What a match of a bracket pattern gives: the rest and the two captures. *)
Definition bracketMatch (o : option (str * str * str)) : option (str * captures) :=
  match o with
  | Some (inBracket, inParen, rest) => Some (rest, [(2, inParen); (1, inBracket)])
  | None => None
  end.

Definition scanLink (s : str) : option (str * captures) :=
  match s with
  | c :: t => if ceq "[" c then bracketMatch (scanBracket t) else None
  | [] => None
  end.

Definition scanImage (s : str) : option (str * captures) :=
  match s with
  | c1 :: t => if ceq "!" c1 then scanLink t else None
  | [] => None
  end.



End RegExp.

Import RegExp.

(** ** Persisted upload state (upload-state.ts) *)

Module UploadStateStorage.

(** [interface UploadState]; the two optional fields are options. *)
Record UploadState := mkUploadState {
  isUploading : bool;
  currentIndex : nat;
  totalImages : nat;
  startTime : Z;
  documentId : option string;
  shouldStop : option bool
}.

Definition STORAGE_KEY : string := "outline_clipper_upload_state".

(** The part of [chrome.storage.local] that holds upload states: one whole
    record per key.  The calls are taken to settle; a rejected call is
    caught by the source and reads as [null] or writes nothing. *)
Abbreviation storage := (gmap string UploadState).

(** [getState]: [result[STORAGE_KEY] || null] *)
Definition getState (st : storage) : option UploadState := st !! STORAGE_KEY.

(** [setState]: [chrome.storage.local.set({[STORAGE_KEY]: state})] *)
Definition setState (state : UploadState) (st : storage) : storage :=
  <[STORAGE_KEY := state]> st.

(** [clearState]: [chrome.storage.local.remove(STORAGE_KEY)] *)
Definition clearState (st : storage) : storage := delete STORAGE_KEY st.

(** [requestStop]: [{...state, shouldStop: true}] when an upload is running *)
Definition requestStop (st : storage) : storage :=
  match getState st with
  | Some state =>
      if isUploading state
      then setState {| isUploading := isUploading state;
                       currentIndex := currentIndex state;
                       totalImages := totalImages state;
                       startTime := startTime state;
                       documentId := documentId state;
                       shouldStop := Some true |} st
      else st
  | None => st
  end.

(** [updateProgress]: [{...state, currentIndex, totalImages}] *)
Definition updateProgress (ci ti : nat) (st : storage) : storage :=
  match getState st with
  | Some state =>
      setState {| isUploading := isUploading state;
                  currentIndex := ci;
                  totalImages := ti;
                  startTime := startTime state;
                  documentId := documentId state;
                  shouldStop := shouldStop state |} st
  | None => st
  end.

(** [currentState?.shouldStop] as a condition *)
Definition stopRequested (o : option UploadState) : bool :=
  match o with
  | Some state => match shouldStop state with Some b => b | None => false end
  | None => false
  end.

End UploadStateStorage.

(** ** Tables (extractor.ts, convertTableToMarkdown) *)

Module Table.

(** An [HTMLTableElement] as far as the converter reads it: [table.rows],
    each row its [cells], each cell its [textContent]. *)
Abbreviation row := (list str).
Abbreviation table := (list row).

(** [cell.textContent?.trim() || ''] *)
Definition cellText (textContent : str) : str := trim textContent.

(** ['| ' + cells.join(' | ') + ' |\n'] *)
Definition tableLine (cells : list str) : str :=
  js "| " ++ join (js " | ") cells ++ js " |" ++ [LF].

Definition convertTableToMarkdown (t : table) : str :=
  match t with
  | [] => []
  | first :: rest =>
      let headers := map cellText first in
      [LF; LF]
      ++ tableLine headers
      ++ tableLine (map (fun _ => js "---") headers)
      ++ concat (map (fun r => tableLine (map cellText r)) rest)
      ++ [LF]
  end.

(** The lines of a text: the pieces between line feeds. *)
Fixpoint pieces (acc : str) (s : str) : list str :=
  match s with
  | [] => [rev acc]
  | c :: s' => if ceq c LF then rev acc :: pieces [] s' else pieces (c :: acc) s'
  end.

(** The lines that carry text. *)
Definition textLines (s : str) : list str :=
  filter (fun l => l <> []) (pieces [] s).

Definition pipes (l : str) : nat := count_occ ascii_dec l "|"%char.

(** The text of a table line without its line feed. *)
Definition lineText (cells : list str) : str :=
  js "| " ++ join (js " | ") cells ++ js " |".

End Table.

(** ** The URL API of the browser

    [new URL(...)] is the browser's; the sources depend on it through the
    host name, the path and the serialisation of what it parses. *)

Record URL := mkURL { hostname : str; pathname : str }.

Class UrlApi := {
  (** [new URL(url)]; [None] when the constructor throws. *)
  parseURL : str -> option URL;
  (** [new URL(url, window.location.href).href]; [None] when it throws. *)
  resolveURL : str -> option str
}.

(** [[^...]] over single code units *)
Definition noneOf (cs : list ascii) : atom := Class true (map MChar cs).
(** [[...]] over single code units *)
Definition oneOf (cs : list ascii) : atom := Class false (map MChar cs).

(** A value used as a condition: [null], [undefined] and [''] are falsy. *)
Definition truthy (o : option str) : option str :=
  match o with
  | Some (c :: s) => Some (c :: s)
  | _ => None
  end.

(** ** Link classifier (link-processor.ts) *)

Module LinkProcessor.

(** The source's [/\[([^\]]* )\]\(([^)]+)\)/g] (written here with a blank
    after the star). *)
Definition linkPattern : regex :=
  seqs [One (Lit "["); Group 1 (Star (noneOf ["]"%char])); One (Lit "]");
        One (Lit "("); Group 2 (Plus (noneOf [")"%char])); One (Lit ")")].

(** [@[provider](id)] *)
Definition embed (provider : string) (id : str) : str :=
  js "@[" ++ js provider ++ js "](" ++ id ++ js ")".

(** [[text](url)] *)
Definition plainLink (text url : str) : str :=
  js "[" ++ text ++ js "](" ++ url ++ js ")".

Definition isYouTube (domain : str) : bool :=
  includes domain (js "youtube.com") || includes domain (js "youtu.be").

(** [[^&\n?#]+] *)
Definition videoIdChars : regex :=
  Plus (noneOf ["&"%char; LF; "?"%char; "#"%char]).

Definition youTubePatterns : list regex :=
  [ seqs [Alt (lit (js "youtube.com/watch?v="))
              (Alt (lit (js "youtu.be/")) (lit (js "youtube.com/embed/")));
          Group 1 videoIdChars];
    seqs [lit (js "youtube.com/v/"); Group 1 videoIdChars] ].

(** [url.match(pattern)] then [match[i]] *)
Definition matchGroup (r : regex) (i : nat) (s : str) : option str :=
  match search false r s with
  | Some m => cap (groups m) i
  | None => None
  end.

Fixpoint firstMatch (patterns : list regex) (url : str) : option str :=
  match patterns with
  | [] => None
  | p :: rest =>
      match search false p url with
      | Some m => cap (groups m) 1
      | None => firstMatch rest url
      end
  end.

Definition extractYouTubeVideoId (url : str) : option str :=
  firstMatch youTubePatterns url.

Definition isTwitter (domain : str) : bool :=
  includes domain (js "twitter.com") || includes domain (js "x.com").

(** [/\/status\/(\d+)/] *)
Definition extractTwitterTweetId (u : URL) : option str :=
  matchGroup (seqs [lit (js "/status/"); Group 1 (Plus (Class false [MDigit]))]) 1
             (pathname u).

Definition isCodePen (domain : str) : bool := includes domain (js "codepen.io").

(** [/\/pen\/([^\/]+)/] *)
Definition extractCodePenId (u : URL) : option str :=
  matchGroup (seqs [lit (js "/pen/"); Group 1 (Plus (noneOf ["/"%char]))]) 1
             (pathname u).

Definition isGitHubGist (domain : str) : bool := includes domain (js "gist.github.com").

(** [/\/([^\/]+)\/([a-f0-9]+)/], second group *)
Definition extractGistId (u : URL) : option str :=
  matchGroup (seqs [One (Lit "/"); Group 1 (Plus (noneOf ["/"%char])); One (Lit "/");
                    Group 2 (Plus (Class false [MRange "a" "f"; MRange "0" "9"]))]) 2
             (pathname u).

Definition isFigma (domain : str) : bool := includes domain (js "figma.com").
Definition isMiro (domain : str) : bool := includes domain (js "miro.com").

Definition isGoogleMaps (domain : str) (u : URL) : bool :=
  includes domain (js "maps.google.com") ||
  (includes domain (js "google.com") && includes (pathname u) (js "/maps")).

Definition isVimeo (domain : str) : bool := includes domain (js "vimeo.com").

(** [/\/(\d+)/] *)
Definition extractVimeoVideoId (u : URL) : option str :=
  matchGroup (seqs [One (Lit "/"); Group 1 (Plus (Class false [MDigit]))]) 1
             (pathname u).

(** The names of the embed markers. *)
Definition providers : list string :=
  ["youtube"; "tweet"; "codepen"; "gist"; "figma"; "miro"; "googlemaps"; "vimeo"]%string.

(** A provider rule: the domain test, then the truthy id. *)
Definition rule (applies : bool) (id : option str) : option str :=
  if applies then truthy id else None.

Section WithUrlApi.
Context `{UrlApi}.

(** [convertLinkToOutlineTag]; [None] is the [null] of the [catch]. *)
Definition convertLinkToOutlineTag (text url : str) : option str :=
  match parseURL url with
  | None => None
  | Some urlObj =>
      let domain := toLowerCase (hostname urlObj) in
      match rule (isYouTube domain) (extractYouTubeVideoId url) with
      | Some videoId => Some (embed "youtube" videoId)
      | None =>
      match rule (isTwitter domain) (extractTwitterTweetId urlObj) with
      | Some tweetId => Some (embed "tweet" tweetId)
      | None =>
      match rule (isCodePen domain) (extractCodePenId urlObj) with
      | Some penId => Some (embed "codepen" penId)
      | None =>
      match rule (isGitHubGist domain) (extractGistId urlObj) with
      | Some gistId => Some (embed "gist" gistId)
      | None =>
      if isFigma domain then Some (embed "figma" url)
      else if isMiro domain then Some (embed "miro" url)
      else if isGoogleMaps domain urlObj then Some (embed "googlemaps" url)
      else
      match rule (isVimeo domain) (extractVimeoVideoId urlObj) with
      | Some videoId => Some (embed "vimeo" videoId)
      | None => Some (plainLink text url)
      end
      end end end end
  end.

(** The replacer of [processLinks]:
    [this.convertLinkToOutlineTag(text, url) || match] *)
Definition linkReplacer (whole : str) (caps : captures) : str :=
  match truthy (convertLinkToOutlineTag (group caps 1) (group caps 2)) with
  | Some tag => tag
  | None => whole
  end.

Definition processLinks (markdown : str) : str :=
  replaceAll false linkPattern linkReplacer markdown.

(** [isEmbeddableLink]; the [catch] answers [false]. *)
Definition isEmbeddableLink (url : str) : bool :=
  match parseURL url with
  | None => false
  | Some urlObj =>
      let domain := toLowerCase (hostname urlObj) in
      isYouTube domain || isTwitter domain || isCodePen domain || isGitHubGist domain
      || isFigma domain || isMiro domain || isVimeo domain
  end.

(** No provider rule gives a tag for the URL: each rule whose domain test
    holds finds no id, and the URL is none of the three that are embedded as
    they are. *)
Definition noProviderTag (url : str) (urlObj : URL) : Prop :=
  let domain := toLowerCase (hostname urlObj) in
  rule (isYouTube domain) (extractYouTubeVideoId url) = None
  /\ rule (isTwitter domain) (extractTwitterTweetId urlObj) = None
  /\ rule (isCodePen domain) (extractCodePenId urlObj) = None
  /\ rule (isGitHubGist domain) (extractGistId urlObj) = None
  /\ isFigma domain = false
  /\ isMiro domain = false
  /\ isGoogleMaps domain urlObj = false
  /\ rule (isVimeo domain) (extractVimeoVideoId urlObj) = None.

(** The domain tests of all providers fail. *)
Definition noProviderDomain (urlObj : URL) : Prop :=
  let domain := toLowerCase (hostname urlObj) in
  isYouTube domain = false /\ isTwitter domain = false /\ isCodePen domain = false
  /\ isGitHubGist domain = false /\ isFigma domain = false /\ isMiro domain = false
  /\ isGoogleMaps domain urlObj = false /\ isVimeo domain = false.

End WithUrlApi.

End LinkProcessor.

(** ** Relative image URLs (extractor.ts, convertRelativeImageUrls) *)

Module ContentExtractor.

(** The source's [/!\[([^\]]* )\]\(([^)]+)\)/g] (written here with a blank
    after the star). *)
Definition imagePattern : regex :=
  seqs [One (Lit "!"); One (Lit "["); Group 1 (Star (noneOf ["]"%char]));
        One (Lit "]"); One (Lit "("); Group 2 (Plus (noneOf [")"%char]));
        One (Lit ")")].

(** Already absolute, or a data URL. *)
Definition isAbsoluteOrData (url : str) : bool :=
  startsWith (js "http://") url || startsWith (js "https://") url ||
  startsWith (js "data:") url || startsWith (js "//") url.

(** [![alt](url)] *)
Definition imageTag (alt url : str) : str :=
  js "![" ++ alt ++ js "](" ++ url ++ js ")".

(** One turn of the loop of [normalizePath]; [removelast] is [pop], which
    leaves an empty array as it is. *)
Definition normalizeStep (normalized : list str) (part : str) : list str :=
  if str_eqb part (js "..") then removelast normalized
  else if negb (str_eqb part (js ".")) && negb (str_eqb part []) then normalized ++ [part]
  else normalized.

(** [normalizePath] (extractor.ts) *)
Definition normalizePath (path : str) : str :=
  join (js "/") (fold_left normalizeStep (split (js "/") path) []).

(** [parseSrcset]: [srcset.split(',').map(src => src.trim().split(' ')[0]).filter(Boolean)] *)
Definition parseSrcset (srcset : str) : list str :=
  List.filter (fun url => match url with [] => false | _ :: _ => true end)
              (map (fun src => hd [] (split (js " ") (trim src))) (split (js ",") srcset)).

(** A part that the loop keeps. *)
Definition kept (part : str) : Prop :=
  part <> [] /\ part <> js "." /\ part <> js ".." /\ ("/"%char ∉ part).

Section WithUrlApi.
Context `{UrlApi}.

Definition imageReplacer (whole : str) (caps : captures) : str :=
  let alt := group caps 1 in
  let url := group caps 2 in
  if isAbsoluteOrData url then whole
  else match resolveURL url with
       | Some absoluteUrl => imageTag alt absoluteUrl
       | None => whole
       end.

Definition convertRelativeImageUrls (markdown : str) : str :=
  replaceAll false imagePattern imageReplacer markdown.


End WithUrlApi.

End ContentExtractor.

(** ** Outline client (client.ts) *)

Module OutlineClient.

Import UploadStateStorage.

(** [interface ImageInfo] as the extractor fills it. *)
Record ImageInfo := mkImage {
  originalUrl : str;
  markdownUrl : option str;
  outlineUrl : option str;
  alt : option str;
  width : option nat;
  height : option nat;
  isContentImage : option bool
}.

(** What the handlers read of a thrown value: [error.response?.status]. *)
Record JsError := mkError { responseStatus : option nat }.

(** [new Error(...)], a [TypeError], a rejected [atob]: no response. *)
Definition plainError : JsError := mkError None.

(** The end of a [try] body. *)
Inductive completion :=
| Returned (v : str)
| Threw (e : JsError).

(** A settled promise of a string. *)
Inductive settled :=
| Resolved (v : str)
| Rejected (e : JsError).

(** [fetch(imageUrl)] followed by [.blob()]. *)
Inductive FetchOutcome :=
| FetchFailed
| FetchResponse (status : nat) (blobSize : N) (contentType : option str).

(** [axios.post]: rejected for a status outside 2xx or without response. *)
Inductive AxiosOutcome (A : Type) :=
| AxiosRejected (status : option nat)
| AxiosResolved (status : nat) (data : A).
Arguments AxiosRejected {A} status.
Arguments AxiosResolved {A} status data.

Record Attachment := mkAttachment {
  attachmentId : option str;
  attachmentUrl : str
}.

(** [metaResponse.data.data] of [attachments.create]. *)
Record SlotData := mkSlot {
  form : list (str * str);
  uploadUrl : str;
  attachment : option Attachment
}.

(** What the outside answers during one attempt. *)
Record Attempt := mkAttempt {
  download : FetchOutcome;
  slot : AxiosOutcome (option SlotData);
  submit : AxiosOutcome unit
}.

(** The client's configuration and the outside: the [n]-th attempt of the
    session gets [answers n]; [atobLength] is the length of [atob]'s result,
    [None] when [atob] throws. *)
Record World := mkWorld {
  apiUrl : str;
  atobLength : str -> option N;
  answers : nat -> Attempt
}.

Inductive NetEvent :=
| Fetch (url : str)
| AttachmentsCreate (contentType : str) (size : N)
| FilePost (url : str) (authorized presigned : bool)
| Backoff (ms : N).

Definition maxRetries : nat := 3.

(** [1000 * Math.pow(2, retryCount)] *)
Definition retryDelay (retryCount : nat) : N := (1000 * 2 ^ N.of_nat retryCount)%N.

(** [retryDelay * Math.pow(2, retryCount)] *)
Definition backoffDelay (retryCount : nat) : N :=
  (retryDelay retryCount * 2 ^ N.of_nat retryCount)%N.

Definition maxBlobSize : N := (10 * 1024 * 1024)%N.

(** [s.split(';')[0].trim()] *)
Definition cleanMime (s : str) : str := trim (hd [] (split (js ";") s)).

(** [response.ok] *)
Definition ok (status : nat) : bool := (200 <=? status) && (status <=? 299).

(** [header.match(/data:([^;]+)/)?.[1] || 'image/png'] *)
Definition dataUrlMime (header : str) : str :=
  match truthy (LinkProcessor.matchGroup
                  (seqs [lit (js "data:"); Group 1 (Plus (noneOf [";"%char]))]) 1 header) with
  | Some m => m
  | None => js "image/png"
  end.

Definition acceptedStatus (status : nat) : bool :=
  (status =? 200) || (status =? 201) || (status =? 204).

(** The [try] body of [uploadImage] once the blob is at hand.  The file name
    of the request ([generateFileName], which cannot throw) is left out. *)
Definition uploadBlob (w : World) (a : Attempt) (size : N) (mimeType : str)
           (evs : list NetEvent) : completion * list NetEvent :=
  if (maxBlobSize <? size)%N then (Threw plainError, evs)
  else
    let mimeType := cleanMime mimeType in
    if negb (startsWith (js "image/") mimeType) then (Threw plainError, evs)
    else
      let evs := evs ++ [AttachmentsCreate mimeType size] in
      match slot a with
      | AxiosRejected st => (Threw (mkError st), evs)
      | AxiosResolved _ None => (Threw plainError, evs)
      | AxiosResolved _ (Some data) =>
          let target :=
            if startsWith (js "http") (uploadUrl data) then uploadUrl data
            else if startsWith (js "/") (uploadUrl data) then apiUrl w ++ uploadUrl data
            else apiUrl w ++ js "/" ++ uploadUrl data in
          let presigned := match form data with [] => false | _ :: _ => true end in
          let evs := evs ++ [FilePost target (includes (uploadUrl data) (js "/api/")) presigned] in
          match submit a with
          | AxiosRejected st => (Threw (mkError st), evs)
          | AxiosResolved status _ =>
              if negb (acceptedStatus status) then (Threw plainError, evs)
              else
                match attachment data with
                | None => (Threw plainError, evs)
                | Some att =>
                    (Returned (if startsWith (js "http") (attachmentUrl att)
                               then attachmentUrl att
                               else apiUrl w ++ attachmentUrl att), evs)
                end
          end
      end.

(** The [try] body of [uploadImage] for the attempt answered by [a]. *)
Definition attemptUpload (w : World) (a : Attempt) (imageUrl : str)
  : completion * list NetEvent :=
  if startsWith (js "data:") imageUrl then
    let parts := split (js ",") imageUrl in
    let header := hd [] parts in
    let base64Data := nth 1 parts (js "undefined") in
    match atobLength w base64Data with
    | None => (Threw plainError, [])
    | Some len => uploadBlob w a len (dataUrlMime header) []
    end
  else
    match download a with
    | FetchFailed => (Returned imageUrl, [Fetch imageUrl])
    | FetchResponse status blobSize contentType =>
        if ok status
        then uploadBlob w a blobSize
                        (cleanMime (default (js "image/png") (truthy contentType)))
                        [Fetch imageUrl]
        else (Returned imageUrl, [Fetch imageUrl])
    end.

(** What [uploadImage] leaves behind: how it settled, what it did on the
    network, and the number of the session's next attempt. *)
Record Upload := mkUpload {
  outcome : settled;
  net : list NetEvent;
  next : nat
}.

Definition is401 (e : JsError) : bool :=
  match responseStatus e with Some st => st =? 401 | None => false end.
Definition is429 (e : JsError) : bool :=
  match responseStatus e with Some st => st =? 429 | None => false end.

(** One activation of [uploadImage]: the [try] body, then the [catch];
    [again] is the recursive call [this.uploadImage(imageUrl, retryCount + 1)]. *)
Definition uploadImage_body (w : World) (imageUrl : str) (retryCount n : nat)
           (again : nat -> Upload) : Upload :=
  let '(c, evs) := attemptUpload w (answers w n) imageUrl in
  match c with
  | Returned v => mkUpload (Resolved v) evs (S n)
  | Threw error =>
      if is401 error then mkUpload (Resolved imageUrl) evs (S n)
      else if is429 error && (retryCount <? maxRetries) then
        let u := again (S n) in
        mkUpload (outcome u) (evs ++ Backoff (backoffDelay retryCount) :: net u) (next u)
      else mkUpload (Resolved imageUrl) evs (S n)
  end.

(** [uploadImage] by recursion on the retries that are left; with none
    left the condition [retryCount < maxRetries] is false and [again] is
    not called. *)
Fixpoint uploadImage_left (left : nat) (w : World) (imageUrl : str) (retryCount n : nat)
  : Upload :=
  uploadImage_body w imageUrl retryCount n
    (match left with
     | S left' => uploadImage_left left' w imageUrl (S retryCount)
     | O => fun n' => mkUpload (Rejected plainError) [] n'
     end).

Definition uploadImage (w : World) (imageUrl : str) (retryCount n : nat) : Upload :=
  uploadImage_left (maxRetries - retryCount) w imageUrl retryCount n.

(** The waits of the retries, in milliseconds. *)
Definition backoffs (evs : list NetEvent) : list N :=
  omap (fun e => match e with Backoff ms => Some ms | _ => None end) evs.

(** *** Which images are in the body *)

(** [img.markdownUrl || img.originalUrl] *)
Definition referenceUrl (img : ImageInfo) : str :=
  default (originalUrl img) (truthy (markdownUrl img)).

(** The class of the double and the single quote, written [Q] below. *)
Definition quote : regex := One (oneOf [DQUOTE; SQUOTE]).
(** [[^>]*] *)
Definition inTag : regex := Star (noneOf [">"%char]).
(** [\s] *)
Definition space : atom := Class false [MSpace].

(** [<img[^>]*\ssrc=QURLQ[^>]*>], flags [gi] *)
Definition htmlImgPattern1 (u : str) : regex :=
  seqs [lit (js "<img"); inTag; One space; lit (js "src="); quote; lit u; quote;
        inTag; One (Lit ">")].

(** [<img\s+src=QURLQ[^>]*>], flags [gi] *)
Definition htmlImgPattern2 (u : str) : regex :=
  seqs [lit (js "<img"); Plus space; lit (js "src="); quote; lit u; quote;
        inTag; One (Lit ">")].

(** [src=QURLQ], flags [gi] *)
Definition htmlImgPattern3 (u : str) : regex :=
  seqs [lit (js "src="); quote; lit u; quote].

(** [!\[[^\]]*\]\(URL\)], flag [g] *)
Definition markdownPattern (u : str) : regex :=
  seqs [lit (js "!["); Star (noneOf ["]"%char]); lit (js "]("); lit u; lit (js ")")].

Definition foundDirect (content u : str) : bool := includes content u.

Definition foundInHtml (content u : str) : bool :=
  test true (htmlImgPattern1 u) content ||
  test true (htmlImgPattern2 u) content ||
  test true (htmlImgPattern3 u) content.

Definition foundInMarkdown (content u : str) : bool :=
  test false (markdownPattern u) content.

(** The predicate of [images.filter(...)]. *)
Definition isInContent (content : str) (img : ImageInfo) : bool :=
  let urlToCheck := referenceUrl img in
  let isInContent := foundDirect content urlToCheck in
  let isInContent :=
    if negb isInContent then foundInHtml content urlToCheck else isInContent in
  let isInContent :=
    if negb isInContent then foundInMarkdown content urlToCheck else isInContent in
  isInContent.

(** [content.includes('github.com') && images.some(...)] *)
Definition isGitHub (content : str) (images : list ImageInfo) : bool :=
  includes content (js "github.com") &&
  existsb (fun img => includes (originalUrl img) (js "camo.githubusercontent.com")) images.

Definition contentImages (content : str) (images : list ImageInfo) : list ImageInfo :=
  if negb (isGitHub content images)
  then List.filter (isInContent content) images
  else images.

(** [contentImages.length || 150] *)
Definition maxImages (found : list ImageInfo) : nat :=
  match length found with O => 150 | S n => S n end.

(** [contentImages.slice(0, maxImages)] *)
Definition imagesToProcess (content : str) (images : list ImageInfo) : list ImageInfo :=
  let found := contentImages content images in
  take (maxImages found) found.

(** *** Rewriting the body *)

(** [!\[([^\]]* )\]\(URL\)] (a blank added after the star), flag [g] *)
Definition markdownImagePattern (u : str) : regex :=
  seqs [lit (js "!["); Group 1 (Star (noneOf ["]"%char])); lit (js "]("); lit u;
        lit (js ")")].

(** [(<img[^>]*\ssrc=Q)URL(Q[^>]*>)], flags [gi] *)
Definition htmlImgPattern (u : str) : regex :=
  seqs [Group 1 (seqs [lit (js "<img"); inTag; One space; lit (js "src="); quote]);
        lit u;
        Group 2 (seqs [quote; inTag; One (Lit ">")])].

(** [<img\s+src=QURLQ\s*>], flags [gi] *)
Definition simpleHtmlImgPattern (u : str) : regex :=
  seqs [lit (js "<img"); Plus space; lit (js "src="); quote; lit u; quote;
        Star space; One (Lit ">")].

(** Step 1: [updatedContent.split(originalUrl).join(newUrl)] *)
Definition replaceExact (content original newUrl : str) : str :=
  join newUrl (split original content).

(** Step 2: the markdown image references *)
Definition replaceMarkdown (content original newUrl : str) : str :=
  replaceAll false (markdownImagePattern original)
             (fun _ caps => js "![" ++ group caps 1 ++ js "](" ++ newUrl ++ js ")")
             content.

(** Step 3: the [src] attributes of [<img>] tags, in two passes *)
Definition replaceHtml (content original newUrl : str) : str :=
  let updated :=
    replaceAll true (htmlImgPattern original)
               (fun _ caps => group caps 1 ++ newUrl ++ group caps 2) content in
  replaceAll true (simpleHtmlImgPattern original)
             (fun _ _ => js "<img src=" ++ [DQUOTE] ++ newUrl ++ [DQUOTE] ++ js ">")
             updated.

Definition replaceImageUrlInContent (content original newUrl : str) : str :=
  let simple := replaceExact content original newUrl in
  if includes content original && negb (str_eqb content simple)
  then simple
  else replaceHtml (replaceMarkdown content original newUrl) original newUrl.

(** *** The upload loop *)

Inductive PipelineEvent :=
| Notification (id : string) (count : nat)
| Progress (current total : nat)
| Wait (ms : N)
| UploadCall (i : nat) (image : ImageInfo) (net : list NetEvent).

(** The state of a run of [processImagesInContent]. *)
Record Run := mkRun {
  stored : storage;          (* chrome.storage.local *)
  body : str;                (* processedContent *)
  session : nat;             (* attempts made on the network so far *)
  trace : list PipelineEvent;
  stopped : bool             (* left the loop by [break] *)
}.

Section Loop.
(** [w]: the outside; [ui i]: what the other surfaces of the extension did
    to the stored state before the stop check of image [i];
    [withProgress]: an [onProgress] callback was passed. *)
Context (w : World) (ui : nat -> storage -> storage) (withProgress : bool).

Definition progress (current total : nat) : list PipelineEvent :=
  if withProgress then [Progress current total] else [].

(** One image whose [originalUrl] is not empty: the [try] of the loop body
    with its [catch].  The assignment [image.outlineUrl = outlineUrl] is left
    out: nothing in the function reads the field. *)
Definition processImage (total i : nat) (image : ImageInfo) (st : storage) (r : Run) : Run :=
  let announce :=
    Notification "image-progress" (S i) :: (if 0 <? i then [Wait 1000%N] else []) in
  let u := uploadImage w (originalUrl image) 0 (session r) in
  let called := UploadCall i image (net u) in
  match outcome u with
  | Resolved hosted =>
      if negb (str_eqb hosted (originalUrl image))
      then mkRun st
                 (replaceImageUrlInContent (body r) (referenceUrl image) hosted)
                 (next u)
                 (trace r ++ announce ++ [called] ++ progress (S i) total)
                 false
      else mkRun st (body r) (next u) (trace r ++ announce ++ [called]) false
  | Rejected error =>
      mkRun st (body r) (next u)
            (trace r ++ announce ++ [called] ++ (if is429 error then [Wait 1000%N] else []))
            false
  end.

Fixpoint uploadLoop (total i : nat) (todo : list ImageInfo) (r : Run) : Run :=
  match todo with
  | [] => r
  | image :: rest =>
      let st := ui i (stored r) in
      if stopRequested (getState st)
      then mkRun st (body r) (session r)
                 (trace r ++ [Notification "upload-stopped" i]) true
      else
        let st := updateProgress i total st in
        match originalUrl image with
        | [] => uploadLoop total (S i) rest
                           (mkRun st (body r) (session r) (trace r) false)
        | _ :: _ => uploadLoop total (S i) rest (processImage total i image st r)
        end
  end.

(** The state when the loop is entered: the upload state is stored and the
    progress callback told of nothing done.  [now] is [Date.now()], [st] the
    storage and [n] the session's attempt count at the call. *)
Definition startRun (now : Z) (content : str) (todo : list ImageInfo)
           (st : storage) (n : nat) : Run :=
  mkRun (setState {| isUploading := true;
                     currentIndex := 0;
                     totalImages := length todo;
                     startTime := now;
                     documentId := None;
                     shouldStop := Some false |} st)
        content n (progress 0 (length todo)) false.

(** After the loop: [UploadStateStorage.clearState()]. *)
Definition finishRun (r : Run) : Run :=
  mkRun (clearState (stored r)) (body r) (session r) (trace r) (stopped r).

(** [processImagesInContent]; its value is the [body] of the result. *)
Definition processImagesInContent (now : Z) (content : str) (images : list ImageInfo)
           (st : storage) (n : nat) : Run :=
  let todo := imagesToProcess content images in
  finishRun (uploadLoop (length todo) 0 todo (startRun now content todo st n)).

End Loop.

(** The images handed to [uploadImage], in the order of the calls. *)
Definition uploadCalls (t : list PipelineEvent) : list (nat * ImageInfo) :=
  omap (fun e => match e with UploadCall i img _ => Some (i, img) | _ => None end) t.

(** The calls of the [onProgress] callback, in order: [(current, total)]. *)
Definition progressReports (t : list PipelineEvent) : list (nat * nat) :=
  omap (fun e => match e with Progress current total => Some (current, total) | _ => None end) t.

(** The images of a list that have an [originalUrl], with their indices
    from [i] on. *)
Fixpoint withUrl (i : nat) (todo : list ImageInfo) : list (nat * ImageInfo) :=
  match todo with
  | [] => []
  | image :: rest =>
      match originalUrl image with
      | [] => withUrl (S i) rest
      | _ :: _ => (i, image) :: withUrl (S i) rest
      end
  end.

End OutlineClient.

(** ** Escaping a text for a pattern (client.ts, escapeRegExp) *)

Module Escaping.

(** The syntax characters of a pattern: the members of the class in
    [escapeRegExp], [[.*+?^${}()|[\]\\]]. *)
Definition syntaxCharacters : list ascii :=
  ["."; "*"; "+"; "?"; "^"; "$"; "{"; "}"; "("; ")"; "|"; "["; "]"; "\"]%char.

(** [string.replace(/[.*+?^${}()|[\]\\]/g, '\\$&')]: a backslash in front
    of what matched. *)
Definition escapeRegExp (s : str) : str :=
  replaceAll false (One (oneOf syntaxCharacters)) (fun whole _ => "\"%char :: whole) s.

Definition isSyntaxCharacter (c : ascii) : bool := existsb (ceq c) syntaxCharacters.

(** How [new RegExp(source)] reads a source made of pattern characters and
    of syntax characters behind a backslash: each stands for itself.  Any
    other source is outside this fragment. *)
Fixpoint readLiteral (source : str) : option (list regex) :=
  match source with
  | [] => Some []
  | c :: rest =>
      if ceq c "\" then
        match rest with
        | escaped :: rest' =>
            if isSyntaxCharacter escaped
            then option_map (cons (One (Lit escaped))) (readLiteral rest')
            else None
        | [] => None
        end
      else if isSyntaxCharacter c then None
      else option_map (cons (One (Lit c))) (readLiteral rest)
  end.

End Escaping.

(** ** Hash of a string (client.ts and extractor.ts, hashCode) *)

Module Hashing.

Open Scope Z_scope.

(** [ToInt32]: the operands of [<<] and [&] are taken modulo 2^32 into the
    signed range. *)
Definition toInt32 (z : Z) : Z := (z + 2 ^ 31) mod 2 ^ 32 - 2 ^ 31.

(** One turn of the loop of [hashCode], [char] being [str.charCodeAt(i)]:
    [hash = ((hash << 5) - hash) + char; hash = hash & hash]. *)
Definition hashStep (hash char : Z) : Z :=
  let hash := (toInt32 (Z.shiftl (toInt32 hash) 5) - hash) + char in
  Z.land (toInt32 hash) (toInt32 hash).

(** [hashCode] (client.ts and extractor.ts) on the code units of the string. *)
Definition hashCode (codes : list Z) : Z := fold_left hashStep codes 0.

(** The code points of the ten folder and book emojis of [defaultEmojis]. *)
Definition defaultEmojis : list N :=
  [0x1F4C1; 0x1F4C2; 0x1F4CB; 0x1F4CC; 0x1F4D6;
   0x1F4D8; 0x1F4D9; 0x1F4D7; 0x1F4D5; 0x1F4D3]%N.

(** The code units of the fallback identifier, two Hangul syllables. *)
Definition fallbackIdentifier : list Z := [0xAE30; 0xBCF8].

(** [getDefaultEmoji]: [None] would be [undefined], an index outside the
    array; an empty list stands for a falsy identifier. *)
Definition getDefaultEmoji (identifier : list Z) : option N :=
  let identifier := match identifier with [] => fallbackIdentifier | _ :: _ => identifier end in
  let index := Z.rem (Z.abs (hashCode identifier)) (Z.of_nat (length defaultEmojis)) in
  defaultEmojis !! Z.to_nat index.

End Hashing.

(** ** Collection colours (client.ts, getEmojiFromColor) *)

Module Colors.

(** The code points of the circle emojis. *)
Definition GREEN : N := 0x1F7E2%N.
Definition BLUE : N := 0x1F535%N.
Definition RED : N := 0x1F534%N.
Definition ORANGE : N := 0x1F7E0%N.
Definition YELLOW : N := 0x1F7E1%N.
Definition PURPLE : N := 0x1F7E3%N.
Definition BLACK : N := 0x26AB%N.

(** [colorMap], in the order of the source. *)
Definition colorMap : list (str * N) :=
  [ (js "#00D084", GREEN); (js "#4CAF50", GREEN); (js "#8BC34A", GREEN); (js "#CDDC39", GREEN);
    (js "#2196F3", BLUE); (js "#03A9F4", BLUE); (js "#00BCD4", BLUE); (js "#009688", BLUE);
    (js "#F44336", RED); (js "#E91E63", RED);
    (js "#FF9800", ORANGE); (js "#FF5722", ORANGE);
    (js "#FFEB3B", YELLOW); (js "#FFC107", YELLOW);
    (js "#9C27B0", PURPLE); (js "#673AB7", PURPLE); (js "#3F51B5", PURPLE);
    (js "#9E9E9E", BLACK); (js "#607D8B", BLACK) ].

(** [colorMap[key]]: the keys are distinct, and no inherited property has a
    name in upper case. *)
Fixpoint lookupColor (m : list (str * N)) (key : str) : option N :=
  match m with
  | [] => None
  | (k, v) :: rest => if str_eqb k key then Some v else lookupColor rest key
  end.

(** [s.toUpperCase()].  The three code units below 256 whose upper case is
    not one code unit below 256 stay as they are; no key of [colorMap] holds
    them or what they become. *)
Definition toUpperCase (s : str) : str := map upper s.

(** [s.slice(from, to)] for [0 <= from <= to] *)
Definition slice (from to : nat) (s : str) : str := take (to - from) (drop from s).

(** The value of a hexadecimal digit. *)
Definition hexDigit (c : ascii) : option Z :=
  let n := Z.of_nat (nat_of_ascii c) in
  if (48 <=? n)%Z && (n <=? 57)%Z then Some (n - 48)%Z
  else if (65 <=? n)%Z && (n <=? 70)%Z then Some (n - 55)%Z
  else if (97 <=? n)%Z && (n <=? 102)%Z then Some (n - 87)%Z
  else None.

(** The number read from the longest prefix of hexadecimal digits. *)
Fixpoint hexPrefix (acc : Z) (s : str) : Z :=
  match s with
  | c :: s' =>
      match hexDigit c with
      | Some d => hexPrefix (16 * acc + d) s'
      | None => acc
      end
  | [] => acc
  end.

(** [parseInt(s, 16)]: leading white space, a sign and [0x] or [0X] are
    passed over, the digits are read up to the first code unit that is none;
    [None] is [NaN], the answer when no digit is read.  Exact while the
    digits are fewer than fourteen. *)
Definition parseInt16 (s : str) : option Z :=
  let s := trimStart s in
  let '(sign, s) :=
    match s with
    | "-"%char :: s' => ((-1)%Z, s')
    | "+"%char :: s' => (1%Z, s')
    | _ => (1%Z, s)
    end in
  let s :=
    match s with
    | "0"%char :: "x"%char :: s' => s'
    | "0"%char :: "X"%char :: s' => s'
    | _ => s
    end in
  match s with
  | c :: _ =>
      match hexDigit c with
      | Some _ => Some (sign * hexPrefix 0 s)%Z
      | None => None
      end
  | [] => None
  end.

(** [Math.max(r, g, b)]: [NaN] when an argument is. *)
Definition max3 (r g b : option Z) : option Z :=
  match r, g, b with
  | Some r, Some g, Some b => Some (Z.max r (Z.max g b))
  | _, _, _ => None
  end.

(** [x === y] on numbers: [NaN] is equal to nothing. *)
Definition sameNumber (x y : option Z) : bool :=
  match x, y with
  | Some x, Some y => (x =? y)%Z
  | _, _ => false
  end.

(** [x > n] and [x < n]: false for [NaN]. *)
Definition above (x : option Z) (n : Z) : bool :=
  match x with Some x => (n <? x)%Z | None => false end.
Definition below (x : option Z) (n : Z) : bool :=
  match x with Some x => (x <? n)%Z | None => false end.

(** [getEmojiFromColor]; [None] is [null]. *)
Definition getEmojiFromColor (color : str) : option N :=
  match lookupColor colorMap (toUpperCase color) with
  | Some emoji => Some emoji
  | None =>
      if startsWith (js "#") color && (length color =? 7) then
        let r := parseInt16 (slice 1 3 color) in
        let g := parseInt16 (slice 3 5 color) in
        let b := parseInt16 (slice 5 7 color) in
        let max := max3 r g b in
        if sameNumber max r && above r 150 then Some RED
        else if sameNumber max g && above g 150 then Some GREEN
        else if sameNumber max b && above b 150 then Some BLUE
        else if above r 150 && above g 150 && below b 100 then Some YELLOW
        else if above r 150 && above b 150 then Some PURPLE
        else if above r 150 && above g 100 then Some ORANGE
        else None
      else None
  end.

End Colors.

(** ** The document tree (client.ts, buildDocumentTree) *)

Module Documents.

(** A document of [documents.list] as far as [buildDocumentTree] reads it. *)
Record Document := mkDocument {
  docId : str;                       (* doc.id *)
  parentDocumentId : option str
}.

(** The documents are objects of their own; a document is named by its
    position in [documents].  [children] holds the [children] array of each
    document, [rootDocuments] the array that is returned. *)
Record Tree := mkTree {
  rootDocuments : list nat;
  children : list (list nat)
}.

(** The first [forEach]: [documentMap.set(doc.id, doc)], a later document
    taking the place of an earlier one with the same id. *)
Fixpoint indexAll (i : nat) (documents : list Document) (m : gmap str nat) : gmap str nat :=
  match documents with
  | [] => m
  | doc :: rest => indexAll (S i) rest (<[docId doc := i]> m)
  end.

(** [doc.parentDocumentId && documentMap.has(doc.parentDocumentId)], then
    [documentMap.get(doc.parentDocumentId)] *)
Definition parentOf (m : gmap str nat) (doc : Document) : option nat :=
  match truthy (parentDocumentId doc) with
  | Some p => m !! p
  | None => None
  end.

(** One turn of the second [forEach]. *)
Definition place (m : gmap str nat) (t : Tree) (i : nat) (doc : Document) : Tree :=
  match parentOf m doc with
  | Some parent => mkTree (rootDocuments t) (alter (fun c => c ++ [i]) parent (children t))
  | None => mkTree (rootDocuments t ++ [i]) (children t)
  end.

Fixpoint placeAll (m : gmap str nat) (i : nat) (documents : list Document) (t : Tree) : Tree :=
  match documents with
  | [] => t
  | doc :: rest => placeAll m (S i) rest (place m t i doc)
  end.

(** [buildDocumentTree] (client.ts) *)
Definition buildDocumentTree (documents : list Document) : Tree :=
  let documentMap := indexAll 0 documents ∅ in
  placeAll documentMap 0 documents (mkTree [] (replicate (length documents) [])).

End Documents.

(** ** Recent clips (config.ts, ConfigStorage) *)

Module ConfigStorage.

Section Clips.
(** [Clip]: what the caller passes; [Time]: the value of
    [new Date().toISOString()]. *)
Context {Clip Time : Type}.

(** [{...clip, timestamp}]: the fields of the clip, and the time of the
    call as its [timestamp], whatever the clip had there. *)
Record RecentClip := mkRecentClip { fields : Clip; timestamp : Time }.

(** [getRecentClips]: [result.recentClips || []], [stored] being what
    [chrome.storage.local] holds under [recentClips]. *)
Definition getRecentClips (stored : option (list RecentClip)) : list RecentClip :=
  default [] stored.

(** [addRecentClip]: [unshift], then [slice(0, 10)], then [set]. *)
Definition addRecentClip (now : Time) (clip : Clip) (stored : option (list RecentClip))
  : option (list RecentClip) :=
  let recentClips := mkRecentClip clip now :: getRecentClips stored in
  Some (take 10 recentClips).

(** Calls of [addRecentClip] one after the other, each with its time. *)
Definition addRecentClips (calls : list (Time * Clip)) (stored : option (list RecentClip))
  : option (list RecentClip) :=
  fold_left (fun st call => addRecentClip call.1 call.2 st) calls stored.

End Clips.

End ConfigStorage.

(** ** GitHub README pages (extractor.ts, processGitHubRawMarkdown) *)

Module GitHubReadme.

Import OutlineClient ContentExtractor.

(** [s.replace(regex, f)] with the [g] flag, for a callback that also
    updates the variables it closes over: [st] is their value before the
    call.  What is copied and what is passed over is as in [replace_from]. *)
Fixpoint replace_with {S : Type} (icase : bool) (r : regex)
         (f : S -> str -> captures -> S * str) (inside : nat) (s : str) (st : S) : S * str :=
  match s with
  | [] =>
      match inside with
      | O => match matchAt icase r [] with
             | Some (_, caps) => f st [] caps
             | None => (st, [])
             end
      | S _ => (st, [])
      end
  | c :: s' =>
      match inside with
      | S n => replace_with icase r f n s' st
      | O =>
          match matchAt icase r s with
          | Some (rest, caps) =>
              let n := length s - length rest in
              let '(st1, out) := f st (take n s) caps in
              match n with
              | O => let '(st2, tail) := replace_with icase r f 0 s' st1 in
                     (st2, out ++ c :: tail)
              | S n' => let '(st2, tail) := replace_with icase r f n' s' st1 in
                        (st2, out ++ tail)
              end
          | None => let '(st1, tail) := replace_with icase r f 0 s' st in (st1, c :: tail)
          end
      end
  end.

(** A match of the whole text: the pattern between [^] and [$]. *)
Definition matchWhole (icase : bool) (r : regex) (s : str) : option captures :=
  run icase r s [] (fun s' caps => match s' with [] => Some caps | _ :: _ => None end).

(** [.]: any code unit but a line terminator *)
Definition anyChar : atom := Class true [MChar LF; MChar "013"%char].

(** [/^\/([^\/]+)\/([^\/]+)/] *)
Definition repoPattern : regex :=
  seqs [One (Lit "/"); Group 1 (Plus (noneOf ["/"%char])); One (Lit "/");
        Group 2 (Plus (noneOf ["/"%char]))].

(** [/^\/[^\/]+\/[^\/]+\/blob\/[^\/]+\/(.+)$/] *)
Definition blobPattern : regex :=
  seqs [One (Lit "/"); Plus (noneOf ["/"%char]); One (Lit "/"); Plus (noneOf ["/"%char]);
        lit (js "/blob/"); Plus (noneOf ["/"%char]); One (Lit "/"); Group 1 (Plus anyChar)].

(** [s.lastIndexOf(c)] for one code unit; [-1] when there is none. *)
Definition lastIndexOf (c : ascii) (s : str) : Z :=
  match skipWhile (notChar c) (rev s) with
  | [] => (-1)%Z
  | _ :: before => Z.of_nat (length before)
  end.

(** [s.substring(0, to)]: a negative [to] counts as 0. *)
Definition substring0 (to : Z) (s : str) : str := take (Z.to_nat (Z.max 0 to)) s.

(** Owner and repository of the page, from [window.location.pathname]. *)
Definition repoOf (pathname : str) : option (str * str) :=
  match matchAt false repoPattern pathname with
  | Some (_, caps) => Some (group caps 1, group caps 2)
  | None => None
  end.

(** [currentDir]: the directory of the file on a blob page, else empty. *)
Definition currentDirOf (pathname : str) : str :=
  match matchWhole false blobPattern pathname with
  | Some caps =>
      let filePath := group caps 1 in
      substring0 (lastIndexOf "/" filePath) filePath
  | None => []
  end.

(** [https://raw.githubusercontent.com/${owner}/${repo}/${branch}] *)
Definition rawRoot (owner repo branch : str) : str :=
  js "https://raw.githubusercontent.com/" ++ owner ++ js "/" ++ repo ++ js "/" ++ branch.

(** The absolute URL of an image that is not given with [http://] or
    [https://]. *)
Definition rawUrl (owner repo branch currentDir imageUrl : str) : str :=
  if startsWith (js "/") imageUrl then rawRoot owner repo branch ++ imageUrl
  else
    match currentDir with
    | _ :: _ =>
        rawRoot owner repo branch ++ js "/" ++ normalizePath (currentDir ++ js "/" ++ imageUrl)
    | [] => rawRoot owner repo branch ++ js "/" ++ imageUrl
    end.

(** The [images] array and the [seenUrls] set of the function. *)
Record Collected := mkCollected {
  collected : list ImageInfo;
  seenUrls : gset str
}.

(** [images.push({originalUrl, markdownUrl, alt: alt || '', isContentImage: true})]
    unless the URL was seen *)
Definition collect (st : Collected) (original markdownUrl alt : str) : Collected :=
  if bool_decide (original ∈ seenUrls st) then st
  else mkCollected
         (collected st ++ [mkImage original (Some markdownUrl) None (Some alt) None None
                                   (Some true)])
         ({[ original ]} ∪ seenUrls st).

(** The callback of the [replace] in [processGitHubRawMarkdown]; nothing in
    its [try] can throw. *)
Definition githubReplacer (owner repo branch currentDir : str)
           (st : Collected) (whole : str) (caps : captures) : Collected * str :=
  let alt := group caps 1 in
  let imageUrl := group caps 2 in
  if startsWith (js "http://") imageUrl || startsWith (js "https://") imageUrl
  then (collect st imageUrl imageUrl alt, whole)
  else
    let absoluteUrl := rawUrl owner repo branch currentDir imageUrl in
    (collect st absoluteUrl imageUrl alt, imageTag alt absoluteUrl).

Record Processed := mkProcessed {
  markdown : str;
  images : list ImageInfo
}.

(** [processGitHubRawMarkdown]; [pathname] is [window.location.pathname] and
    [branch] what [getDefaultBranch] reads from the page. *)
Definition processGitHubRawMarkdown (pathname branch : str) (text : str) : Processed :=
  match repoOf pathname with
  | None => mkProcessed text []
  | Some (owner, repo) =>
      let currentDir := currentDirOf pathname in
      let '(st, processedMarkdown) :=
        replace_with false imagePattern (githubReplacer owner repo branch currentDir)
                     0 text (mkCollected [] ∅) in
      mkProcessed processedMarkdown (collected st)
  end.

Definition isHttp (url : str) : bool :=
  startsWith (js "http://") url || startsWith (js "https://") url.

(** What the loop keeps true of [images] and [seenUrls]: the set holds the
    URLs of the images, no URL is there twice, and every image has the
    shape that [collect] gives it. *)
Definition recorded (owner repo branch currentDir : str) (st : Collected) : Prop :=
  (forall u, u ∈ seenUrls st <-> u ∈ map originalUrl (collected st))
  /\ NoDup (map originalUrl (collected st))
  /\ Forall (fun img =>
               isHttp (originalUrl img) = true
               /\ isContentImage img = Some true
               /\ exists imageUrl,
                    markdownUrl img = Some imageUrl /\ imageUrl <> []
                    /\ originalUrl img
                       = if isHttp imageUrl then imageUrl
                         else rawUrl owner repo branch currentDir imageUrl)
            (collected st).

End GitHubReadme.

(** ** Image extraction (extractor.ts) *)

Module ImageExtraction.

Import OutlineClient ContentExtractor GitHubReadme.

(** [while ((match = regex.exec(s)) !== null) body] for a regex with the [g]
    flag: the matches from left to right, each search starting where the
    match before it ended; [body] reads the match through its captures.
    [None]: the loop does not end, which is what an empty match leads to,
    [lastIndex] staying where it is. *)
Fixpoint execLoop {S : Type} (icase : bool) (r : regex) (body : S -> captures -> S)
         (inside : nat) (s : str) (st : S) : option S :=
  match s with
  | [] =>
      match inside with
      | O => match matchAt icase r [] with
             | Some _ => None
             | None => Some st
             end
      | S _ => Some st
      end
  | c :: s' =>
      match inside with
      | S n => execLoop icase r body n s' st
      | O =>
          match matchAt icase r s with
          | Some (rest, caps) =>
              match length s - length rest with
              | O => None
              | S n' => execLoop icase r body n' s' (body st caps)
              end
          | None => execLoop icase r body 0 s' st
          end
      end
  end.

(** [[^'Q)\s]], [Q] the double quote *)
Definition cssUrlChar : atom :=
  Class true [MChar SQUOTE; MChar DQUOTE; MChar ")"%char; MSpace].

(** ['Q]? *)
Definition optionalQuote : regex := Alt (One (oneOf [SQUOTE; DQUOTE])) Eps.

(** [/url\(['Q]?([^'Q)\s]+)['Q]?\)/g] *)
Definition cssUrlPattern : regex :=
  seqs [lit (js "url("); optionalQuote; Group 1 (Plus cssUrlChar); optionalQuote;
        One (Lit ")")].

(** [extractUrlsFromCss] *)
Definition extractUrlsFromCss (cssValue : str) : option (list str) :=
  execLoop false cssUrlPattern (fun urls caps => urls ++ [group caps 1]) 0 cssValue [].

(** [s.endsWith(suffix)] *)
Definition endsWith (suffix s : str) : bool := startsWith (rev suffix) (rev s).

(** [/word/i] *)
Definition word (w : string) : regex := lit (js w).

Definition excludePatterns : list regex :=
  map word ["icon"; "logo"; "avatar"; "profile"; "badge"; "button";
            "arrow"; "chevron"; "dropdown"; "menu"; "nav"; "sidebar";
            "cursor"; "pointer"; "loading"; "spinner"; "dots";
            "placeholder"; "empty"; "default"; "fallback";
            "1x1"; "pixel"; "spacer"; "divider"]%string.

Definition contentIndicators : list regex :=
  map word ["photo"; "picture"; "image"; "media"; "content";
            "upload"; "file"; "asset"; "resource"]%string.

(** [\.(jpg|jpeg|png|gif|webp|bmp|tiff|avif|svg)], the part of
    [contentImageExtensions] in front of its last group *)
Definition extensionPattern : regex :=
  Seq (One (Lit "."))
      (Group 1 (Alt (word "jpg") (Alt (word "jpeg") (Alt (word "png") (Alt (word "gif")
               (Alt (word "webp") (Alt (word "bmp") (Alt (word "tiff")
               (Alt (word "avif") (word "svg")))))))))).

(** The last group of [contentImageExtensions], [(\?|$)]: a question mark
    follows, or the text ends. *)
Definition queryOrEnd (s : str) : option unit :=
  match s with
  | [] => Some tt
  | c :: _ => if ceq "?" c then Some tt else None
  end.

(** The suffixes of a text, the longest first. *)
Fixpoint tails (s : str) : list str :=
  match s with
  | [] => [[]]
  | _ :: s' => s :: tails s'
  end.

(** [contentImageExtensions.test(url)], flag [i] *)
Definition hasImageExtension (url : str) : bool :=
  existsb (fun t => match run true extensionPattern t [] (fun s' _ => queryOrEnd s') with
                    | Some _ => true
                    | None => false
                    end)
          (tails url).

Definition digit : regex := One (Class false [MDigit]).

(** [/\d{3,4}x\d{3,4}/] *)
Definition sizePattern : regex :=
  seqs [digit; digit; digit; Alt digit Eps; One (Lit "x"); digit; digit; digit; Alt digit Eps].

(** [/w_\d{3,}|h_\d{3,}/] *)
Definition widthOrHeightPattern : regex :=
  Alt (seqs [lit (js "w_"); digit; digit; digit; Star (Class false [MDigit])])
      (seqs [lit (js "h_"); digit; digit; digit; Star (Class false [MDigit])]).

(** [isValidImageUrl] *)
Definition isValidImageUrl (url : str) : bool :=
  match url with
  | [] => false
  | _ :: _ =>
      if includes url (js "github.com") || includes url (js "githubusercontent.com") then true
      else if startsWith (js "data:image/svg") url then false
      else if startsWith (js "data:") url then false
      else if includes url (js "base64") then false
      else if includes url (js "blob:") then false
      else if endsWith (js ".svg") url && negb (includes url (js "github")) then false
      else if existsb (fun pattern => test true pattern url) excludePatterns then false
      else if hasImageExtension url then true
      else if existsb (fun indicator => test true indicator url) contentIndicators then true
      else if test false sizePattern url || test false widthOrHeightPattern url then true
      else false
  end.

Section WithPage.
(** The URL API and the two functions that read the document:
    [getImageDimensionsFromHtml] and [extractImagesFromHtmlSync]. *)
Context `{UrlApi}
        (getImageDimensionsFromHtml : str -> str -> option nat * option nat)
        (extractImagesFromHtmlSync : str -> list ImageInfo).

(** The body of the loop over the image references of the markdown. *)
Definition markdownImage (originalHtml : str) (st : Collected) (caps : captures)
  : Collected :=
  let alt := group caps 1 in
  let imageUrl := group caps 2 in
  match imageUrl with
  | [] => st
  | _ :: _ =>
      match resolveURL imageUrl with
      | None => st
      | Some absoluteUrl =>
          if bool_decide (absoluteUrl ∈ seenUrls st) then st
          else
            let '(width, height) := getImageDimensionsFromHtml originalHtml imageUrl in
            mkCollected
              (collected st
               ++ [mkImage absoluteUrl
                           (Some (if isHttp imageUrl then imageUrl else absoluteUrl))
                           None (Some alt) width height (Some true)])
              ({[ absoluteUrl ]} ∪ seenUrls st)
      end
  end.

(** The body of the loop over the images of the HTML. *)
Definition htmlImage (st : Collected) (image : ImageInfo) : Collected :=
  if negb (bool_decide (originalUrl image ∈ seenUrls st))
     && isValidImageUrl (originalUrl image)
  then mkCollected
         (collected st
          ++ [mkImage (originalUrl image) (Some (referenceUrl image)) (outlineUrl image)
                      (OutlineClient.alt image) (width image) (height image) (Some true)])
         ({[ originalUrl image ]} ∪ seenUrls st)
  else st.

(** [extractImagesFromMarkdown] *)
Definition extractImagesFromMarkdown (text originalHtml : str) : option (list ImageInfo) :=
  match execLoop false imagePattern (markdownImage originalHtml) 0 text (mkCollected [] ∅) with
  | Some st =>
      Some (collected (fold_left htmlImage (extractImagesFromHtmlSync originalHtml) st))
  | None => None
  end.

(** Where an image of the result comes from: a reference of the markdown
    with the URL [imageUrl], or an image of the HTML. *)
Definition fromPage (text originalHtml : str) (img : ImageInfo) : Prop :=
  isContentImage img = Some true
  /\ ((exists imageUrl,
         imageUrl <> [] /\ includes text imageUrl = true
         /\ resolveURL imageUrl = Some (originalUrl img)
         /\ markdownUrl img = Some (if isHttp imageUrl then imageUrl else originalUrl img)
         /\ (isHttp imageUrl = true -> isInContent text img = true))
      \/ (exists image,
            image ∈ extractImagesFromHtmlSync originalHtml
            /\ originalUrl image = originalUrl img
            /\ isValidImageUrl (originalUrl img) = true
            /\ markdownUrl img = Some (referenceUrl image))).

(** What the two loops keep true of [images] and [seenUrls]. *)
Definition gathered (text originalHtml : str) (st : Collected) : Prop :=
  (forall u, u ∈ seenUrls st <-> u ∈ map originalUrl (collected st))
  /\ NoDup (map originalUrl (collected st))
  /\ Forall (fromPage text originalHtml) (collected st).

End WithPage.

End ImageExtraction.

(** ** Sample inputs *)

Module Samples.

Import LinkProcessor OutlineClient UploadStateStorage.

(** [new URL(url)] on URLs of the shape [https://host/path] with a host in
    lower case and a path without query, fragment or dot segments; every
    other text is refused. *)
Definition parseHttps (url : str) : option URL :=
  if startsWith (js "https://") url then
    let rest := drop 8 url in
    match keepWhile (notChar "/") rest with
    | [] => None
    | host =>
        Some (mkURL host (match skipWhile (notChar "/") rest with
                          | [] => js "/"
                          | path => path
                          end))
    end
  else None.

(** [new URL(url, base).href] on a page below [https://site.example/docs/]:
    a text with a scheme is taken as it is, any other as a path below the
    page's directory; a text with a closing parenthesis is refused. *)
Definition resolveBelowDocs (url : str) : option str :=
  if includes url (js ")") then None
  else if includes url (js "://") then Some url
  else Some (js "https://site.example/docs/" ++ url).

Definition plainApi : UrlApi :=
  {| parseURL := parseHttps; resolveURL := resolveBelowDocs |}.



(** A host that two provider rules take for theirs. *)
Definition twoProviderUrl : str := js "https://youtu.be.figma.com/".

(** No other surface of the extension touches the stored state. *)
Definition quiet (i : nat) (st : storage) : storage := st.

(** The popup asks for a stop while image [j - 1] is under way. *)
Definition stopBefore (j : nat) (i : nat) (st : storage) : storage :=
  if i =? j then requestStop st else st.

(** One column, one data row; the text of the data cell runs over two lines,
    as the text of a cell with two paragraphs does. *)
Definition table_with_line_feed : Table.table :=
  [[js "h"]; [js "a" ++ [LF] ++ js "b"]].

(** A table whose only row has no cell. *)
Definition table_without_cells : Table.table := [[]].

Definition photo : str := js "https://site.example/photo.png".

(** A download of a small PNG that succeeds. *)
Definition downloaded : FetchOutcome := FetchResponse 200 2048%N (Some (js "image/png")).

Definition granted : SlotData :=
  mkSlot [] (js "/api/files.create")
         (Some (mkAttachment (Some (js "att-1")) (js "/api/attachments.redirect?id=att-1"))).

(** The service accepts the upload. *)
Definition accepted : Attempt :=
  mkAttempt downloaded (AxiosResolved 200 (Some granted)) (AxiosResolved 200 tt).

(** The service answers [attachments.create] with HTTP 429. *)
Definition rateLimited : Attempt :=
  mkAttempt downloaded (AxiosRejected (Some 429)) (AxiosRejected None).

Definition noAtob (s : str) : option N := None.

(** Three answers of HTTP 429, then acceptance. *)
Definition world_three_429 : World :=
  mkWorld (js "https://wiki.example") noAtob
          (fun n => if n <? 3 then rateLimited else accepted).

(** HTTP 429 throughout. *)
Definition world_always_429 : World :=
  mkWorld (js "https://wiki.example") noAtob (fun _ => rateLimited).

(** Acceptance throughout. *)
Definition world_accepting : World :=
  mkWorld (js "https://wiki.example") noAtob (fun _ => accepted).

Definition hosted : str := js "https://wiki.example/api/attachments.redirect?id=att-1".

(** An image of an extractor run. *)
Definition image (original : str) (markdown : option str) : ImageInfo :=
  mkImage original markdown None None None None None.

(** A GitHub page: a badge served through the image proxy, which the body
    shows, and two images that the body does not refer to, one of them
    without URL. *)
Definition github_body : str :=
  js "See github.com ![build](https://camo.githubusercontent.com/badge.svg)".
Definition badge : ImageInfo := image (js "https://camo.githubusercontent.com/badge.svg") None.
Definition stray : ImageInfo := image (js "https://site.example/stray.png") None.
Definition blank : ImageInfo := image [] None.

(** A page that shows one photo, and one that shows two. *)
Definition photoImage : ImageInfo := image photo None.
Definition secondImage : ImageInfo := image (js "https://site.example/second.png") None.
Definition photo_body : str := js "![a](https://site.example/photo.png)".
Definition two_photos_body : str :=
  js "![a](https://site.example/photo.png) ![b](https://site.example/second.png)".

(** A body that refers to an image by its path alone, and the image's
    absolute URL. *)
Definition body_with_path_only : str := js "![x](/images/photo.png)".
Definition absolute_photo : str := js "https://site.example/images/photo.png".

(** Every download fails: the network is down. *)
Definition world_offline : World :=
  mkWorld (js "https://wiki.example") noAtob
          (fun _ => mkAttempt FetchFailed (AxiosRejected None) (AxiosRejected None)).

(** The service names an upload URL on another host, with [/api/] in its
    path. *)
Definition elsewhere : SlotData :=
  mkSlot [] (js "https://files.example/api/put")
         (Some (mkAttachment (Some (js "att-1")) (js "/api/attachments.redirect?id=att-1"))).

Definition world_elsewhere : World :=
  mkWorld (js "https://wiki.example") noAtob
          (fun _ => mkAttempt downloaded (AxiosResolved 200 (Some elsewhere))
                              (AxiosResolved 200 tt)).

(** A repository page and a file page of GitHub. *)
Definition repo_page : str := js "/octo/cat".
Definition blob_page : str := js "/octo/cat/blob/main/docs/guide/intro.md".

End Samples.



(** * Properties *)

(** ** Strings *)

(** Membership in a list that is given in full. *)
Ltac solve_notin := apply (bool_decide_unpack _); vm_compute; exact I.

Module JsStringFacts.

Lemma ceq_eq (a b : ascii) : ceq a b = true <-> a = b.
Proof. unfold ceq. apply Ascii.eqb_eq. Qed.

Lemma ceq_refl (a : ascii) : ceq a a = true.
Proof. by apply ceq_eq. Qed.

Lemma ceq_neq (a b : ascii) : ceq a b = false <-> a <> b.
Proof. unfold ceq. apply Ascii.eqb_neq. Qed.

Lemma startsWith_app (p s : str) : startsWith p (p ++ s) = true.
Proof. induction p as [|a p IH]; simpl; [done|]. by rewrite ceq_refl. Qed.

Lemma startsWith_spec (p s : str) :
  startsWith p s = true <-> exists t, s = p ++ t.
Proof.
  split.
  - revert s. induction p as [|a p IH]; intros s Hs; simpl in *.
    + by exists s.
    + destruct s as [|b s]; [done|].
      apply andb_true_iff in Hs as [Hab Hs]. apply ceq_eq in Hab as ->.
      destruct (IH _ Hs) as [t ->]. by exists t.
  - intros [t ->]. apply startsWith_app.
Qed.

Lemma includes_here (s t : str) : startsWith t s = true -> includes s t = true.
Proof. intros Hs. destruct s; simpl in *; by rewrite Hs. Qed.

Lemma includes_spec (s t : str) :
  includes s t = true <-> exists a b, s = a ++ t ++ b.
Proof.
  split.
  - induction s as [|c s IH]; simpl; intros Hs.
    + rewrite orb_false_r in Hs. apply startsWith_spec in Hs as [b Hb].
      by exists [], b.
    + apply orb_true_iff in Hs as [Hs|Hs].
      * apply startsWith_spec in Hs as [b Hb]. by exists [], b.
      * destruct (IH Hs) as (a & b & ->). by exists (c :: a), b.
  - intros (a & b & ->). induction a as [|c a IH]; simpl.
    + apply includes_here, startsWith_app.
    + by rewrite IH, orb_true_r.
Qed.

Lemma includes_app_r (s t u : str) : includes t u = true -> includes (s ++ t) u = true.
Proof.
  rewrite !includes_spec. intros (a & b & ->). exists (s ++ a), b.
  by rewrite <- app_assoc.
Qed.

Lemma str_eqb_eq (a b : str) : str_eqb a b = true <-> a = b.
Proof. unfold str_eqb. apply bool_decide_eq_true. Qed.

Lemma str_eqb_neq (a b : str) : str_eqb a b = false <-> a <> b.
Proof. unfold str_eqb. apply bool_decide_eq_false. Qed.

Lemma join_cons (sep p : str) (q : str) (rest : list str) :
  join sep (p :: q :: rest) = p ++ sep ++ join sep (q :: rest).
Proof. done. Qed.

End JsStringFacts.

Import JsStringFacts.

(** ** Upload state *)

Module UploadStateFacts.

Import UploadStateStorage.

Lemma getState_setState (state : UploadState) (st : storage) :
  getState (setState state st) = Some state.
Proof. unfold getState, setState. apply lookup_insert_eq. Qed.

Lemma getState_clearState (st : storage) : getState (clearState st) = None.
Proof. unfold getState, clearState. apply lookup_delete_eq. Qed.

(** C10: [updateProgress] rewrites the stored record as a whole, with two
    fields changed and the four others as they were; without a stored state
    it writes nothing; and the other keys of the storage keep their values. *)
Theorem updateProgress_frame (ci ti : nat) (st : storage) :
  match getState st with
  | Some state =>
      updateProgress ci ti st =
        setState {| isUploading := isUploading state;
                    currentIndex := ci;
                    totalImages := ti;
                    startTime := startTime state;
                    documentId := documentId state;
                    shouldStop := shouldStop state |} st
      /\ exists state',
          getState (updateProgress ci ti st) = Some state'
          /\ currentIndex state' = ci
          /\ totalImages state' = ti
          /\ isUploading state' = isUploading state
          /\ startTime state' = startTime state
          /\ shouldStop state' = shouldStop state
          /\ documentId state' = documentId state
  | None => updateProgress ci ti st = st
  end
  /\ delete STORAGE_KEY (updateProgress ci ti st) = delete STORAGE_KEY st.
Proof.
  unfold updateProgress. destruct (getState st) as [state|] eqn:E.
  - split; [split; [done|]|].
    + eexists. rewrite getState_setState. by repeat split.
    + unfold setState. apply delete_insert_eq.
  - done.
Qed.

End UploadStateFacts.

(** ** Tables *)

Module TableFacts.

Import Table Samples.

Lemma tableLine_lineText (cells : list str) : tableLine cells = lineText cells ++ [LF].
Proof. unfold tableLine, lineText. by rewrite <- !app_assoc. Qed.

Lemma pieces_line (acc l rest : str) :
  LF ∉ l -> pieces acc (l ++ LF :: rest) = (rev acc ++ l) :: pieces [] rest.
Proof.
  revert acc. induction l as [|c l IH]; intros acc Hl; simpl.
  - by rewrite app_nil_r.
  - apply not_elem_of_cons in Hl as [Hc Hl].
    assert (ceq c LF = false) as -> by (apply ceq_neq; congruence).
    rewrite IH by done. simpl. by rewrite <- app_assoc.
Qed.

Lemma pieces_LF (acc rest : str) : pieces acc (LF :: rest) = rev acc :: pieces [] rest.
Proof. done. Qed.

Lemma filter_all {A} (P : A -> Prop) `{forall x, Decision (P x)} (l : list A) :
  Forall P l -> filter P l = l.
Proof.
  induction 1 as [|x l Hx _ IH]; [done|]. by rewrite filter_cons_True, IH.
Qed.

Lemma pieces_lines (ls : list str) (rest : str) :
  Forall (fun l => LF ∉ l) ls ->
  pieces [] (concat (map (fun l => l ++ [LF]) ls) ++ rest) = ls ++ pieces [] rest.
Proof.
  induction 1 as [|l ls Hl _ IH]; simpl; [done|].
  rewrite <- !app_assoc. simpl. rewrite pieces_line by done. simpl. by rewrite IH.
Qed.

Lemma join_no (c : ascii) (sep : str) (cells : list str) :
  c ∉ sep -> Forall (fun x => c ∉ x) cells -> c ∉ join sep cells.
Proof.
  intros Hsep. induction 1 as [|x cells Hx Hcells IH]; simpl.
  - apply not_elem_of_nil.
  - destruct cells as [|y cells]; [done|].
    rewrite !not_elem_of_app. auto.
Qed.

Lemma lineText_no_LF (cells : list str) :
  Forall (fun x => LF ∉ x) cells -> LF ∉ lineText cells.
Proof.
  intros H. unfold lineText. rewrite !not_elem_of_app. split_and!.
  - solve_notin.
  - apply join_no; [solve_notin | done].
  - solve_notin.
Qed.

Lemma pipes_app (a b : str) : pipes (a ++ b) = pipes a + pipes b.
Proof. unfold pipes. apply count_occ_app. Qed.

Lemma pipes_none (l : str) : "|"%char ∉ l -> pipes l = 0.
Proof.
  unfold pipes. intros H. apply count_occ_not_In.
  intros Hin. apply H. by apply list_elem_of_In.
Qed.

Lemma pipes_join (cells : list str) :
  Forall (fun x => "|"%char ∉ x) cells ->
  pipes (join (js " | ") cells) = length cells - 1.
Proof.
  induction 1 as [|x cells Hx Hcells IH]; [done|].
  destruct cells as [|y cells].
  - simpl. by apply pipes_none.
  - rewrite join_cons, !pipes_app, IH, (pipes_none x) by done.
    change (pipes (js " | ")) with 1. simpl. lia.
Qed.

Lemma pipes_lineText (cells : list str) :
  1 <= length cells -> Forall (fun x => "|"%char ∉ x) cells ->
  pipes (lineText cells) = length cells + 1.
Proof.
  intros Hlen H. unfold lineText. rewrite !pipes_app, pipes_join by done.
  change (pipes (js "| ")) with 1. change (pipes (js " |")) with 1. lia.
Qed.

Lemma lineText_nonempty (cells : list str) : lineText cells <> [].
Proof. done. Qed.

Lemma concat_tableLines (rest : list row) :
  concat (map (fun r => tableLine (map cellText r)) rest) =
  concat (map (fun l => l ++ [LF]) (map (fun r => lineText (map cellText r)) rest)).
Proof.
  induction rest as [|r rest IH]; [done|].
  cbn [map concat]. by rewrite tableLine_lineText, IH.
Qed.

(** The lines of the markdown of a table whose cell texts hold no line feed. *)
Lemma textLines_table (first : row) (rest : list row) :
  Forall (Forall (fun c => LF ∉ cellText c)) (first :: rest) ->
  textLines (convertTableToMarkdown (first :: rest)) =
    lineText (map cellText first)
    :: lineText (map (fun _ => js "---") (map cellText first))
    :: map (fun r => lineText (map cellText r)) rest.
Proof.
  intros Hcells. apply Forall_cons in Hcells as [Hfirst Hrest].
  set (ls := lineText (map cellText first)
             :: lineText (map (fun _ => js "---") (map cellText first))
             :: map (fun r => lineText (map cellText r)) rest).
  assert (Hls : Forall (fun l => LF ∉ l) ls).
  { repeat apply Forall_cons_2.
    - apply lineText_no_LF. by apply Forall_map.
    - apply lineText_no_LF. apply Forall_map, Forall_map, Forall_true.
      intros _. solve_notin.
    - apply Forall_map. eapply Forall_impl; [exact Hrest|].
      intros r Hr. simpl. apply lineText_no_LF. by apply Forall_map. }
  assert (Hmd : convertTableToMarkdown (first :: rest) =
                LF :: LF :: concat (map (fun l => l ++ [LF]) ls) ++ [LF]).
  { unfold convertTableToMarkdown, ls. cbn [map concat].
    rewrite !tableLine_lineText, concat_tableLines, <- !app_assoc. done. }
  assert (Hne : Forall (fun l : str => l <> []) ls).
  { repeat apply Forall_cons_2; try apply lineText_nonempty.
    apply Forall_map, Forall_true. intros r. apply lineText_nonempty. }
  unfold textLines. rewrite Hmd, !pieces_LF, pieces_lines, pieces_LF by done.
  cbn [rev app pieces].
  rewrite !filter_cons_False, filter_app, (filter_all _ ls) by (done || by intros []).
  rewrite !filter_cons_False, filter_nil, app_nil_r by (by intros []).
  done.
Qed.

(** C7, as the code has it: a table of [N] data rows under a first row, all
    of [M >= 1] cells whose trimmed texts hold neither a pipe nor a line
    feed, becomes exactly [N + 2] lines of text -- the first row, the dashes,
    the data rows -- and each line holds exactly [M + 1] pipes. *)
Theorem convertTableToMarkdown_shape (first : row) (rest : list row) (M : nat) :
  1 <= M ->
  Forall (fun r => length r = M) (first :: rest) ->
  Forall (Forall (fun c => ("|"%char ∉ cellText c) /\ (LF ∉ cellText c))) (first :: rest) ->
  textLines (convertTableToMarkdown (first :: rest)) =
    lineText (map cellText first)
    :: lineText (map (fun _ => js "---") (map cellText first))
    :: map (fun r => lineText (map cellText r)) rest
  /\ length (textLines (convertTableToMarkdown (first :: rest))) = length rest + 2
  /\ Forall (fun l => pipes l = M + 1) (textLines (convertTableToMarkdown (first :: rest))).
Proof.
  intros HM Hlen Hcells.
  assert (Hlf : Forall (Forall (fun c => LF ∉ cellText c)) (first :: rest)).
  { eapply Forall_impl; [exact Hcells|]. intros r Hr.
    eapply Forall_impl; [exact Hr|]. by intros c [_ ?]. }
  assert (Hrow : forall r, length r = M ->
                   Forall (fun c => ("|"%char ∉ cellText c) /\ (LF ∉ cellText c)) r ->
                   pipes (lineText (map cellText r)) = M + 1).
  { intros r Hr Hc. rewrite pipes_lineText.
    - rewrite length_map. lia.
    - rewrite length_map. lia.
    - apply Forall_map. eapply Forall_impl; [exact Hc|]. by intros c [? _]. }
  rewrite textLines_table by done.
  apply Forall_cons in Hlen as [Hlen1 Hlen]. apply Forall_cons in Hcells as [Hc1 Hcells].
  split; [done|]. split; [simpl; rewrite length_map; lia|].
  repeat apply Forall_cons_2.
  - by apply Hrow.
  - rewrite pipes_lineText.
    + rewrite !length_map. lia.
    + rewrite !length_map. lia.
    + apply Forall_map, Forall_map, Forall_true. intros _. solve_notin.
  - apply Forall_map. apply Forall_forall. intros r Hr. simpl.
    rewrite Forall_forall in Hlen, Hcells. apply Hrow; auto.
Qed.

(** The theorem at a table of two rows and two columns. *)
Lemma convertTableToMarkdown_shape_witness :
  length (textLines (convertTableToMarkdown [[js " a "; js "b"]; [js "c"; js "d"]])) = 1 + 2
  /\ Forall (fun l => pipes l = 2 + 1)
            (textLines (convertTableToMarkdown [[js " a "; js "b"]; [js "c"; js "d"]])).
Proof.
  apply (convertTableToMarkdown_shape [js " a "; js "b"] [[js "c"; js "d"]] 2).
  - lia.
  - by repeat constructor.
  - repeat constructor; solve_notin.
Defined.

(** C7 as the claim words it fails when a cell text holds a line feed inside
    (one data row, one column, no pipe anywhere, yet four lines of text and a
    line without the two pipes), and when the rows have no cell at all (two
    pipes on a line, where [M + 1] is one). *)
Lemma convertTableToMarkdown_counterexample :
  Forall (Forall (fun c => "|"%char ∉ cellText c)) table_with_line_feed
  /\ Forall (fun r => length r = 1) table_with_line_feed
  /\ length table_with_line_feed = 1 + 1
  /\ length (textLines (convertTableToMarkdown table_with_line_feed)) = 4
  /\ Exists (fun l => pipes l = 1) (textLines (convertTableToMarkdown table_with_line_feed))
  /\ Forall (fun r => length r = 0) table_without_cells
  /\ Forall (fun l => pipes l = 2) (textLines (convertTableToMarkdown table_without_cells)).
Proof.
  split_and!.
  - repeat constructor; solve_notin.
  - by repeat constructor.
  - done.
  - by vm_compute.
  - apply Exists_cons_tl, Exists_cons_tl, Exists_cons_hd. by vm_compute.
  - by repeat constructor.
  - vm_compute. by repeat constructor.
Qed.


End TableFacts.

(** ** uploadImage *)

Module UploadFacts.

Import OutlineClient Samples.

(** The recursion of the source: an activation runs the body, and the
    body's recursive call is [uploadImage] with one more retry counted. *)
Lemma uploadImage_unfold (w : World) (imageUrl : str) (retryCount n : nat) :
  uploadImage w imageUrl retryCount n =
  uploadImage_body w imageUrl retryCount n (uploadImage w imageUrl (S retryCount)).
Proof.
  unfold uploadImage. destruct (decide (retryCount < maxRetries)) as [Hlt|Hge].
  - replace (maxRetries - retryCount) with (S (maxRetries - S retryCount)) by lia.
    done.
  - replace (maxRetries - retryCount) with 0 by lia.
    replace (maxRetries - S retryCount) with 0 by lia.
    cbn [uploadImage_left]. unfold uploadImage_body.
    destruct (attemptUpload _ _ _) as [[v|e] evs]; [done|].
    assert ((retryCount <? maxRetries) = false) as -> by (apply Nat.ltb_ge; lia).
    by rewrite andb_false_r.
Qed.

Lemma backoffs_retry (evs rest : list NetEvent) (ms : N) :
  backoffs (evs ++ Backoff ms :: rest) = backoffs evs ++ ms :: backoffs rest.
Proof. unfold backoffs. by rewrite omap_app. Qed.

Lemma backoffs_app (evs rest : list NetEvent) :
  backoffs (evs ++ rest) = backoffs evs ++ backoffs rest.
Proof. unfold backoffs. by rewrite omap_app. Qed.

Lemma uploadBlob_events (w : World) (a : Attempt) (size : N) (mime : str)
      (evs : list NetEvent) :
  backoffs evs = [] -> backoffs (snd (uploadBlob w a size mime evs)) = [].
Proof.
  intros Hevs. unfold uploadBlob.
  repeat (match goal with
          | |- context [if ?b then _ else _] => destruct b
          | |- context [match ?x with _ => _ end] => destruct x
          end; simpl; rewrite ?backoffs_app, ?Hevs; try done).
Qed.

Lemma attemptUpload_events (w : World) (a : Attempt) (imageUrl : str) :
  backoffs (snd (attemptUpload w a imageUrl)) = [].
Proof.
  unfold attemptUpload.
  destruct (startsWith _ imageUrl).
  - destruct (atobLength _ _); [|done]. by apply uploadBlob_events.
  - destruct (download a) as [|status size ct]; [done|].
    destruct (ok status); [|done]. by apply uploadBlob_events.
Qed.

(** What the [catch] of one activation makes of the body. *)
Lemma uploadImage_step (w : World) (imageUrl : str) (retryCount n : nat) :
  match attemptUpload w (answers w n) imageUrl with
  | (Returned v, evs) =>
      uploadImage w imageUrl retryCount n = mkUpload (Resolved v) evs (S n)
  | (Threw e, evs) =>
      if is401 e then
        uploadImage w imageUrl retryCount n = mkUpload (Resolved imageUrl) evs (S n)
      else if is429 e && (retryCount <? maxRetries) then
        let u := uploadImage w imageUrl (S retryCount) (S n) in
        uploadImage w imageUrl retryCount n =
          mkUpload (outcome u) (evs ++ Backoff (backoffDelay retryCount) :: net u) (next u)
      else uploadImage w imageUrl retryCount n = mkUpload (Resolved imageUrl) evs (S n)
  end.
Proof.
  rewrite uploadImage_unfold. unfold uploadImage_body.
  destruct (attemptUpload _ _ _) as [[v|e] evs]; [done|].
  destruct (is401 e); [done|]. by destruct (is429 e && _).
Qed.

(** A run of [uploadImage] resolves, and with the original URL unless an
    attempt of the run returned another. *)
Lemma uploadImage_resolves (w : World) (imageUrl : str) (left retryCount n : nat) :
  maxRetries - retryCount <= left ->
  exists v, outcome (uploadImage w imageUrl retryCount n) = Resolved v
            /\ (v = imageUrl \/
                exists m, n <= m /\ fst (attemptUpload w (answers w m) imageUrl) = Returned v).
Proof.
  revert retryCount n. induction left as [|left IH]; intros retryCount n Hleft;
    pose proof (uploadImage_step w imageUrl retryCount n) as Hstep;
    destruct (attemptUpload w (answers w n) imageUrl) as [[v|e] evs] eqn:E.
  - rewrite Hstep. exists v. split; [done|]. right. exists n. by rewrite E.
  - destruct (is401 e); [rewrite Hstep; eauto|].
    assert ((retryCount <? maxRetries) = false) as Hge by (apply Nat.ltb_ge; lia).
    rewrite Hge, andb_false_r in Hstep. rewrite Hstep. eauto.
  - rewrite Hstep. exists v. split; [done|]. right. exists n. by rewrite E.
  - destruct (is401 e); [rewrite Hstep; eauto|].
    destruct (is429 e && (retryCount <? maxRetries)) eqn:Hretry; [|rewrite Hstep; eauto].
    apply andb_true_iff in Hretry as [_ Hlt%Nat.ltb_lt].
    cbv zeta in Hstep. rewrite Hstep. cbn [outcome].
    destruct (IH (S retryCount) (S n)) as (v & Hv & Hsrc); [lia|].
    exists v. split; [done|]. destruct Hsrc as [->|(m & Hm & Hret)]; [by left|].
    right. exists m. split; [lia|done].
Qed.

Lemma plainError_not_429 : is429 plainError = false.
Proof. done. Qed.

Lemma uploadBlob_too_large (w : World) (a : Attempt) (size : N) (mime : str)
      (evs : list NetEvent) :
  (maxBlobSize < size)%N -> fst (uploadBlob w a size mime evs) = Threw plainError.
Proof.
  intros Hsize. unfold uploadBlob.
  by assert ((maxBlobSize <? size)%N = true) as -> by (by apply N.ltb_lt).
Qed.

Lemma uploadBlob_not_image (w : World) (a : Attempt) (size : N) (mime : str)
      (evs : list NetEvent) :
  startsWith (js "image/") (cleanMime mime) = false ->
  fst (uploadBlob w a size mime evs) = Threw plainError.
Proof.
  intros Hmime. unfold uploadBlob. destruct (maxBlobSize <? size)%N; [done|].
  by rewrite Hmime.
Qed.

(** C4: the promise of [uploadImage] never rejects.  It resolves with the
    original URL or with the URL that one of its attempts returned; an
    attempt that fails resolves it with the original URL at once -- be the
    failure an HTTP 401, a download that failed, a blob above 10MB, a type
    that is no image type, a data URL that does not decode, or any other
    error -- unless the failure is an HTTP 429 with retries left, which
    starts the next attempt. *)
Theorem uploadImage_never_throws (w : World) (imageUrl : str) (retryCount n : nat) :
  let u := uploadImage w imageUrl retryCount n in
  (exists v, outcome u = Resolved v
             /\ (v = imageUrl \/
                 exists m, n <= m /\
                           fst (attemptUpload w (answers w m) imageUrl) = Returned v))
  /\ (forall e, fst (attemptUpload w (answers w n) imageUrl) = Threw e ->
                is401 e = true \/ is429 e && (retryCount <? maxRetries) = false ->
                outcome u = Resolved imageUrl)
  /\ (startsWith (js "data:") imageUrl = false ->
      match download (answers w n) with
      | FetchFailed => outcome u = Resolved imageUrl
      | FetchResponse status blobSize contentType =>
          ok status = false
          \/ (maxBlobSize < blobSize)%N
          \/ startsWith (js "image/")
               (cleanMime (cleanMime (default (js "image/png") (truthy contentType))))
             = false ->
          outcome u = Resolved imageUrl
      end)
  /\ (startsWith (js "data:") imageUrl = true ->
      match atobLength w (nth 1 (split (js ",") imageUrl) (js "undefined")) with
      | None => outcome u = Resolved imageUrl
      | Some size =>
          (maxBlobSize < size)%N
          \/ startsWith (js "image/")
               (cleanMime (dataUrlMime (hd [] (split (js ",") imageUrl))))
             = false ->
          outcome u = Resolved imageUrl
      end).
Proof.
  intros u.
  assert (Hfail : forall e, fst (attemptUpload w (answers w n) imageUrl) = Threw e ->
                    is401 e = true \/ is429 e && (retryCount <? maxRetries) = false ->
                    outcome u = Resolved imageUrl).
  { intros e He Hkind. subst u.
    pose proof (uploadImage_step w imageUrl retryCount n) as Hstep.
    destruct (attemptUpload w (answers w n) imageUrl) as [c evs]. simpl in He. subst c.
    destruct (is401 e); [by rewrite Hstep|].
    destruct Hkind as [?|Hno]; [done|]. rewrite Hno in Hstep. by rewrite Hstep. }
  split_and!.
  - by apply (uploadImage_resolves w imageUrl (maxRetries - retryCount)).
  - exact Hfail.
  - intros Hdata. subst u.
    pose proof (uploadImage_step w imageUrl retryCount n) as Hstep.
    unfold attemptUpload in Hstep, Hfail. rewrite Hdata in Hstep, Hfail.
    destruct (download (answers w n)) as [|status blobSize contentType].
    + by rewrite Hstep.
    + intros [Hok|[Hsize|Hmime]].
      * rewrite Hok in Hstep. by rewrite Hstep.
      * destruct (ok status); [|by rewrite Hstep].
        apply (Hfail plainError); [by apply uploadBlob_too_large|by right].
      * destruct (ok status); [|by rewrite Hstep].
        apply (Hfail plainError); [by apply uploadBlob_not_image|by right].
  - intros Hdata. unfold attemptUpload in Hfail. rewrite Hdata in Hfail. cbv zeta in Hfail.
    destruct (atobLength w _) as [size|].
    + intros [Hsize|Hmime].
      * apply (Hfail plainError); [by apply uploadBlob_too_large|by right].
      * apply (Hfail plainError); [by apply uploadBlob_not_image|by right].
    + apply (Hfail plainError); [done|by right].
Qed.

(** C1, as the code has it: after three answers of HTTP 429 the fourth
    attempt decides -- the hosted URL if it returns one, the original URL if
    it fails, whatever the failure -- and the waits before the second, the
    third and the fourth attempt are 1000, 4000 and 16000 milliseconds:
    [retryDelay] already holds the doubling, and [backoffDelay] multiplies it
    by the same power of two once more.  The waits are not the 1000, 2000,
    4000 of the retry policy. *)
Theorem uploadImage_rate_limited (w : World) (imageUrl : str) (n : nat) :
  (forall k, k < 3 ->
     fst (attemptUpload w (answers w (n + k)) imageUrl) = Threw (mkError (Some 429))) ->
  let u := uploadImage w imageUrl 0 n in
  backoffs (net u) = [1000; 4000; 16000]%N
  /\ backoffs (net u) <> [1000; 2000; 4000]%N
  /\ next u = n + 4
  /\ match fst (attemptUpload w (answers w (n + 3)) imageUrl) with
     | Returned v => outcome u = Resolved v
     | Threw _ => outcome u = Resolved imageUrl
     end.
Proof.
  intros H429 u.
  assert (Hretry : forall k, k < 3 ->
            let r := uploadImage w imageUrl (S k) (S (n + k)) in
            uploadImage w imageUrl k (n + k) =
              mkUpload (outcome r)
                       (snd (attemptUpload w (answers w (n + k)) imageUrl)
                        ++ Backoff (backoffDelay k) :: net r)
                       (next r)).
  { intros k Hk. pose proof (uploadImage_step w imageUrl k (n + k)) as Hstep.
    specialize (H429 k Hk).
    destruct (attemptUpload w (answers w (n + k)) imageUrl) as [c evs].
    simpl in H429. subst c. change (is401 (mkError (Some 429))) with false in Hstep.
    change (is429 (mkError (Some 429))) with true in Hstep.
    assert ((k <? maxRetries) = true) as Hlt by (by apply Nat.ltb_lt).
    rewrite Hlt in Hstep. exact Hstep. }
  assert (Hlast : exists evs,
            backoffs evs = [] /\
            uploadImage w imageUrl 3 (n + 3) =
              mkUpload (match fst (attemptUpload w (answers w (n + 3)) imageUrl) with
                        | Returned v => Resolved v
                        | Threw _ => Resolved imageUrl
                        end) evs (n + 4)).
  { pose proof (uploadImage_step w imageUrl 3 (n + 3)) as Hstep.
    pose proof (attemptUpload_events w (answers w (n + 3)) imageUrl) as Hevs.
    destruct (attemptUpload w (answers w (n + 3)) imageUrl) as [[v|e] evs];
      exists evs; (split; [exact Hevs|]); replace (n + 4) with (S (n + 3)) by lia.
    - exact Hstep.
    - destruct (is401 e); [exact Hstep|].
      change (3 <? maxRetries) with false in Hstep. by rewrite andb_false_r in Hstep. }
  destruct Hlast as (evs3 & Hevs3 & H3).
  pose proof (Hretry 0 ltac:(lia)) as H0. pose proof (Hretry 1 ltac:(lia)) as H1.
  pose proof (Hretry 2 ltac:(lia)) as H2. cbv zeta in H0, H1, H2.
  replace (n + 0) with n in H0 by lia.
  replace (S n) with (n + 1) in H0 by lia.
  replace (S (n + 1)) with (n + 2) in H1 by lia.
  replace (S (n + 2)) with (n + 3) in H2 by lia.
  assert (Hnet : backoffs (net u) = [1000; 4000; 16000]%N).
  { subst u. rewrite H0. cbn [net]. rewrite H1. cbn [net]. rewrite H2. cbn [net].
    rewrite H3. cbn [net].
    rewrite !backoffs_retry, !attemptUpload_events, Hevs3. done. }
  split_and!.
  - exact Hnet.
  - rewrite Hnet. intros [=].
  - subst u. rewrite H0. cbn [next]. rewrite H1. cbn [next]. rewrite H2. cbn [next].
    by rewrite H3.
  - subst u. rewrite H0. cbn [outcome]. rewrite H1. cbn [outcome]. rewrite H2.
    cbn [outcome]. rewrite H3. cbn [outcome].
    by destruct (fst (attemptUpload w (answers w (n + 3)) imageUrl)).
Qed.

(** The theorem where three answers of HTTP 429 are followed by acceptance:
    the fourth attempt returns the hosted URL. *)
Lemma uploadImage_rate_limited_witness :
  backoffs (net (uploadImage world_three_429 photo 0 0)) = [1000; 4000; 16000]%N
  /\ outcome (uploadImage world_three_429 photo 0 0) = Resolved hosted.
Proof.
  destruct (uploadImage_rate_limited world_three_429 photo 0) as (Hwaits & _ & _ & Hout).
  - intros k Hk. destruct k as [|[|[|k]]]; [reflexivity..|lia].
  - split; [exact Hwaits|exact Hout].
Defined.

(** Four answers of HTTP 429: the original URL, after the same three waits. *)
Lemma uploadImage_four_429 :
  outcome (uploadImage world_always_429 photo 0 0) = Resolved photo
  /\ backoffs (net (uploadImage world_always_429 photo 0 0)) = [1000; 4000; 16000]%N
  /\ next (uploadImage world_always_429 photo 0 0) = 4.
Proof. by vm_compute. Qed.

End UploadFacts.

(** ** Regular expressions *)

Module RegExpFacts.

Lemma keep_skip (p : ascii -> bool) (s : str) : keepWhile p s ++ skipWhile p s = s.
Proof. induction s as [|c s IH]; simpl; [done|]. destruct (p c); simpl; by rewrite ?IH. Qed.

Lemma take_keepWhile (p : ascii -> bool) (s : str) :
  take (length s - length (skipWhile p s)) s = keepWhile p s.
Proof.
  rewrite <- (keep_skip p s) at 1 3. rewrite length_app.
  replace (_ + _ - _) with (length (keepWhile p s)) by lia.
  by rewrite take_app_length.
Qed.

Lemma keepWhile_all (p : ascii -> bool) (s : str) : Forall (fun c => p c = true) (keepWhile p s).
Proof.
  induction s as [|c s IH]; simpl; [done|]. destruct (p c) eqn:E; [|done]. by constructor.
Qed.


(** A run of code units of [p] that is followed by another code unit or by
    the end is the longest one. *)
Lemma keepWhile_app (p : ascii -> bool) (a rest : str) :
  Forall (fun c => p c = true) a ->
  match rest with c :: _ => p c = false | [] => True end ->
  keepWhile p (a ++ rest) = a /\ skipWhile p (a ++ rest) = rest.
Proof.
  intros Ha Hrest. induction Ha as [|c a Hc _ IH]; simpl.
  - destruct rest as [|c rest]; simpl; [done|]. by rewrite Hrest.
  - rewrite Hc. destruct IH as [-> ->]. done.
Qed.

Section Matcher.
Context {R : Type} (icase : bool).

(** Where the continuation refuses every text that begins with a code unit of
    the class, the greedy repetition has one way to go: to the end of the
    longest run. *)
Lemma star_skip (a : atom) (s : str) (k : str -> option R) :
  (forall c s', atomMatches icase a c = true -> k (c :: s') = None) ->
  star icase a s k = k (skipWhile (atomMatches icase a) s).
Proof.
  intros Hk. induction s as [|c s IH]; simpl; [done|].
  destruct (atomMatches icase a c) eqn:E; [|done].
  rewrite IH. destruct (k (skipWhile _ s)) eqn:Ek; [done|]. by apply Hk.
Qed.

End Matcher.

(** *** Where a match can be *)

Section Inversion.
Context {R : Type} (icase : bool).

Lemma star_inv (a : atom) (s : str) (k : str -> option R) (x : R) :
  star icase a s k = Some x -> exists p s', s = p ++ s' /\ k s' = Some x.
Proof.
  induction s as [|c s IH]; simpl.
  - intros Hx. by exists [], [].
  - destruct (atomMatches icase a c); [|intros Hx; by exists [], (c :: s)].
    destruct (star icase a s k) as [y|]; [|intros Hx; by exists [], (c :: s)].
    intros [= ->]. destruct (IH eq_refl) as (p & s' & -> & Hk). by exists (c :: p), s'.
Qed.

(** A match of an expression ends where its continuation takes over. *)
Lemma run_inv (r : regex) (s : str) (caps : captures)
      (k : str -> captures -> option R) (x : R) :
  run icase r s caps k = Some x ->
  exists p s' caps', s = p ++ s' /\ k s' caps' = Some x.
Proof.
  revert s caps k x. induction r as [|a|a|a|r1 IH1 r2 IH2|r1 IH1 r2 IH2|i r1 IH1];
    intros s caps k x; cbn [run]; intros Hx.
  - by exists [], s, caps.
  - destruct s as [|c s]; [done|]. destruct (atomMatches icase a c); [|done].
    by exists [c], s, caps.
  - apply star_inv in Hx as (p & s' & -> & Hk). by exists p, s', caps.
  - destruct s as [|c s]; [done|]. destruct (atomMatches icase a c); [|done].
    apply star_inv in Hx as (p & s' & -> & Hk). by exists (c :: p), s', caps.
  - apply IH1 in Hx as (p1 & s1 & caps1 & -> & Hx).
    apply IH2 in Hx as (p2 & s2 & caps2 & -> & Hx).
    exists (p1 ++ p2), s2, caps2. by rewrite <- app_assoc.
  - destruct (run icase r1 s caps k) as [y|] eqn:E; [|by apply IH2 in Hx].
    apply IH1 in E as (p & s' & caps' & -> & Hk). exists p, s', caps'. split; [done|congruence].
  - apply IH1 in Hx as (p & s' & caps' & -> & Hk). by eexists p, s', _.
Qed.

(** A literal text is matched by a text of the same code units, up to the
    letter case under the [i] flag. *)
Lemma run_lit (u : str) (s : str) (caps : captures)
      (k : str -> captures -> option R) (x : R) :
  run icase (lit u) s caps k = Some x ->
  exists m s', s = m ++ s' /\ map (canon icase) m = map (canon icase) u
               /\ k s' caps = Some x.
Proof.
  revert s. induction u as [|c u IH]; intros s; unfold lit; cbn [map seqs fold_right run].
  - intros Hx. by exists [], s.
  - destruct s as [|d s]; [done|]. cbn [atomMatches].
    destruct (ceq (canon icase c) (canon icase d)) eqn:E; [|done].
    intros Hx. apply IH in Hx as (m & s' & -> & Hm & Hk). apply ceq_eq in E.
    exists (d :: m), s'. split; [done|]. split; [|done]. simpl. by rewrite E, Hm.
Qed.

(** A match of a sequence that holds a literal text holds a match of the
    literal text. *)
Lemma run_seqs_lit (pre post : list regex) (u : str) (s : str) (caps : captures)
      (k : str -> captures -> option R) (x : R) :
  run icase (seqs (pre ++ lit u :: post)) s caps k = Some x ->
  exists a m b, s = a ++ m ++ b /\ map (canon icase) m = map (canon icase) u.
Proof.
  revert s caps. induction pre as [|r pre IH]; intros s caps; cbn [app seqs fold_right run].
  - intros Hx. apply run_lit in Hx as (m & s' & -> & Hm & _). by exists [], m, s'.
  - intros Hx. apply run_inv in Hx as (p & s' & caps' & -> & Hx).
    apply IH in Hx as (a & m & b & -> & Hm). exists (p ++ a), m, b.
    by rewrite <- app_assoc.
Qed.

End Inversion.

Lemma search_from_inv (icase : bool) (r : regex) (skipped s : str) (f : found) :
  search_from icase r skipped s = Some f ->
  exists p s' rest caps, s = p ++ s' /\ matchAt icase r s' = Some (rest, caps).
Proof.
  revert skipped. induction s as [|c s IH]; intros skipped; cbn [search_from].
  - destruct (matchAt icase r []) as [[rest caps]|] eqn:E; [|done].
    intros _. by exists [], [], rest, caps.
  - destruct (matchAt icase r (c :: s)) as [[rest caps]|] eqn:E.
    + intros _. by exists [], (c :: s), rest, caps.
    + intros (p & s' & rest & caps & -> & Hm)%IH. by exists (c :: p), s', rest, caps.
Qed.

(** Where an expression that holds a literal text is found in a text, the
    literal text occurs in it, up to the letter case under the [i] flag. *)
Lemma test_lit_occurs (icase : bool) (pre post : list regex) (u content : str) :
  test icase (seqs (pre ++ lit u :: post)) content = true ->
  exists a m b, content = a ++ m ++ b /\ map (canon icase) m = map (canon icase) u.
Proof.
  unfold test, search.
  destruct (search_from icase _ [] content) as [f|] eqn:E; [|done]. intros _.
  apply search_from_inv in E as (p & s' & rest & caps & -> & Hm).
  unfold matchAt in Hm. apply run_seqs_lit in Hm as (a & m & b & -> & Hm).
  exists (p ++ a), m, b. by rewrite <- app_assoc.
Qed.

Section Replace.
Context (icase : bool) (r : regex) (f : str -> captures -> str).

Lemma replace_from_inside (m rest : str) :
  replace_from icase r f (length m) (m ++ rest) = replace_from icase r f 0 rest.
Proof. induction m as [|c m IH]; [done|]. exact IH. Qed.

(** The replacement at a match that is not empty. *)
Lemma replaceAll_hit (m rest : str) (caps : captures) :
  m <> [] -> matchAt icase r (m ++ rest) = Some (rest, caps) ->
  replaceAll icase r f (m ++ rest) = f m caps ++ replaceAll icase r f rest.
Proof.
  intros Hm Hmatch. unfold replaceAll. destruct m as [|c m]; [done|].
  cbn [app replace_from]. change (c :: m ++ rest) with ((c :: m) ++ rest).
  rewrite Hmatch, length_app.
  replace (length (c :: m) + length rest - length rest) with (S (length m))
    by (simpl; lia).
  change (S (length m)) with (length (c :: m)) at 1. rewrite take_app_length.
  by rewrite replace_from_inside.
Qed.

(** Where nothing matches, the code unit is copied. *)
Lemma replaceAll_miss (c : ascii) (s : str) :
  matchAt icase r (c :: s) = None ->
  replaceAll icase r f (c :: s) = c :: replaceAll icase r f s.
Proof. intros Hmatch. unfold replaceAll. cbn [replace_from]. by rewrite Hmatch. Qed.

Lemma replaceAll_nil :
  matchAt icase r [] = None -> replaceAll icase r f [] = [].
Proof. intros Hmatch. unfold replaceAll. cbn [replace_from]. by rewrite Hmatch. Qed.

End Replace.

End RegExpFacts.

Import RegExpFacts.

(** ** Rewriting the body *)

Module ReplaceFacts.

Import OutlineClient Samples.

Lemma split_go_cons (fuel : nat) (sep acc s : str) :
  exists p rest, split_go fuel sep acc s = p :: rest.
Proof.
  revert acc s. induction fuel as [|fuel IH]; intros acc s; simpl; [eauto|].
  destruct s as [|c s]; [eauto|]. destruct (startsWith sep (c :: s)); eauto.
Qed.

Lemma join_more (sep p : str) (rest : list str) :
  rest <> [] -> join sep (p :: rest) = p ++ sep ++ join sep rest.
Proof. by destruct rest. Qed.

(** Joining the pieces with the separator gives the text back. *)
Lemma split_go_join (fuel : nat) (sep acc s : str) :
  sep <> [] -> length s < fuel -> join sep (split_go fuel sep acc s) = rev acc ++ s.
Proof.
  intros Hsep. revert acc s. induction fuel as [|fuel IH]; intros acc s Hfuel; [lia|].
  destruct s as [|c s]; [by rewrite app_nil_r|]. cbn [split_go].
  destruct (startsWith sep (c :: s)) eqn:E.
  - apply startsWith_spec in E as [t E]. rewrite E, drop_app_length.
    destruct (split_go_cons fuel sep [] t) as (p & rest & Hp).
    rewrite join_more by (by rewrite Hp). rewrite IH; [done|].
    assert (length (c :: s) = length sep + length t) by (by rewrite E, length_app).
    destruct sep; [done|]. simpl in *. lia.
  - rewrite IH by (simpl in *; lia). simpl. by rewrite <- app_assoc.
Qed.

Lemma split_join (sep s : str) : sep <> [] -> join sep (split sep s) = s.
Proof.
  intros Hsep. unfold split. destruct sep as [|c sep]; [done|].
  by rewrite split_go_join by (done || lia).
Qed.

(** No piece holds the separator. *)
Lemma split_go_free (fuel : nat) (sep acc s : str) :
  sep <> [] -> length s < fuel ->
  (forall a b, rev acc ++ s = a ++ sep ++ b -> length acc <= length a) ->
  Forall (fun p => includes p sep = false) (split_go fuel sep acc s).
Proof.
  intros Hsep. revert acc s. induction fuel as [|fuel IH]; intros acc s Hfuel Hacc; [lia|].
  assert (Hpiece : includes (rev acc) sep = false).
  { destruct (includes (rev acc) sep) eqn:E; [|done].
    apply includes_spec in E as (a & b & E).
    specialize (Hacc a (b ++ s)). rewrite E, <- !app_assoc in Hacc.
    specialize (Hacc eq_refl).
    assert (length (rev acc) = length a + (length sep + length b))
      by (by rewrite E, !length_app).
    rewrite length_rev in *. destruct sep; [done|]. simpl in *. lia. }
  destruct s as [|c s]; [by repeat constructor|]. cbn [split_go].
  destruct (startsWith sep (c :: s)) eqn:E.
  - constructor; [done|]. apply startsWith_spec in E as [t E].
    rewrite E, drop_app_length. apply IH.
    + assert (length (c :: s) = length sep + length t) by (by rewrite E, length_app).
      destruct sep; [done|]. simpl in *. lia.
    + intros a b _. simpl. lia.
  - apply IH; [simpl in *; lia|]. intros a b Hab. simpl in Hab.
    rewrite <- app_assoc in Hab. simpl in Hab.
    pose proof (Hacc a b Hab) as Hle. simpl.
    destruct (decide (length a = length acc)) as [Heq|]; [|lia].
    apply app_inj_1 in Hab as [_ Hab]; [|by rewrite length_rev].
    assert (startsWith sep (c :: s) = true) by (apply startsWith_spec; eauto).
    congruence.
Qed.

Lemma split_free (sep s : str) :
  sep <> [] -> Forall (fun p => includes p sep = false) (split sep s).
Proof.
  intros Hsep. unfold split. destruct sep as [|c sep]; [done|].
  apply split_go_free; [done|lia|]. intros a b _. simpl. lia.
Qed.


(** The end-to-end example of the specification. *)
Lemma replaceImageUrlInContent_example :
  replaceImageUrlInContent (js "![x](http://a/img.png)") (js "http://a/img.png")
                           (js "http://host/new.png")
  = js "![x](http://host/new.png)".
Proof. by vm_compute. Qed.


End ReplaceFacts.

(** ** The upload loop *)

Module PipelineFacts.

Import UploadStateStorage OutlineClient Samples.

Lemma uploadCalls_app (t1 t2 : list PipelineEvent) :
  uploadCalls (t1 ++ t2) = uploadCalls t1 ++ uploadCalls t2.
Proof. unfold uploadCalls. apply omap_app. Qed.

Lemma isInContent_strategies (content : str) (img : ImageInfo) :
  isInContent content img =
    foundDirect content (referenceUrl img)
    || foundInHtml content (referenceUrl img)
    || foundInMarkdown content (referenceUrl img).
Proof.
  unfold isInContent. destruct (foundDirect _ _); [done|]. simpl.
  by destruct (foundInHtml _ _).
Qed.

(** An image that the filter keeps has its reference URL in the body, the
    letter case aside. *)
Lemma isInContent_occurs (content : str) (img : ImageInfo) :
  isInContent content img = true ->
  exists a m b, content = a ++ m ++ b /\ map upper m = map upper (referenceUrl img).
Proof.
  rewrite isInContent_strategies. intros [[Hdirect|Hhtml]%orb_true_iff|Hmd]%orb_true_iff.
  - apply includes_spec in Hdirect as (a & b & ->). by exists a, (referenceUrl img), b.
  - unfold foundInHtml in Hhtml.
    apply orb_true_iff in Hhtml as [[H1|H2]%orb_true_iff|H3].
    + apply (test_lit_occurs true
               [lit (js "<img"); inTag; One space; lit (js "src="); quote]
               [quote; inTag; One (Lit ">")]) in H1. exact H1.
    + apply (test_lit_occurs true [lit (js "<img"); Plus space; lit (js "src="); quote]
               [quote; inTag; One (Lit ">")]) in H2. exact H2.
    + apply (test_lit_occurs true [lit (js "src="); quote] [quote]) in H3. exact H3.
  - apply (test_lit_occurs false [lit (js "!["); Star (noneOf ["]"%char]); lit (js "](")]
             [lit (js ")")]) in Hmd.
    destruct Hmd as (a & m & b & -> & Hm). rewrite !map_id in Hm. subst m.
    by exists a, (referenceUrl img), b.
Qed.

Lemma withUrl_elem (k : nat) (img : ImageInfo) (i : nat) (todo : list ImageInfo) :
  (k, img) ∈ withUrl i todo -> i <= k < i + length todo /\ img ∈ todo.
Proof.
  revert i. induction todo as [|image rest IH]; intros i; simpl.
  - by intros ?%elem_of_nil.
  - assert (Hrest : (k, img) ∈ withUrl (S i) rest ->
                    i <= k < i + S (length rest) /\ img ∈ image :: rest).
    { intros [? ?]%IH. split; [lia|by right]. }
    destruct (originalUrl image); [done|].
    intros [[= -> ->]|?]%elem_of_cons; [|auto]. split; [lia|by left].
Qed.

Lemma withUrl_all (i : nat) (todo : list ImageInfo) :
  Forall (fun img => originalUrl img <> []) todo ->
  withUrl i todo = zip (seq i (length todo)) todo.
Proof.
  intros Hall. revert i. induction Hall as [|image rest Himage _ IH]; intros i; [done|].
  simpl. destruct (originalUrl image); [done|]. by rewrite IH.
Qed.

Section Loop.
Context (w : World) (ui : nat -> storage -> storage) (withProgress : bool).

Lemma processImage_calls (total i : nat) (image : ImageInfo) (st : storage) (r : Run) :
  uploadCalls (trace (processImage w withProgress total i image st r))
  = uploadCalls (trace r) ++ [(i, image)]
  /\ stopped (processImage w withProgress total i image st r) = false.
Proof.
  unfold processImage, progress.
  destruct (outcome _) as [hosted|error];
    repeat match goal with |- context [if ?b then _ else _] => destruct b end;
    cbn [trace stopped]; rewrite !uploadCalls_app; cbn; by rewrite ?app_nil_r.
Qed.



(** The calls of [uploadImage] that a run makes: for the images that have a
    URL, in list order, up to where the run stops. *)
Lemma uploadLoop_calls (total : nat) (todo : list ImageInfo) (i : nat) (r : Run) :
  exists k, k <= length todo
            /\ uploadCalls (trace (uploadLoop w ui withProgress total i todo r))
               = uploadCalls (trace r) ++ withUrl i (take k todo)
            /\ (stopped (uploadLoop w ui withProgress total i todo r) = false ->
                k = length todo).
Proof.
  revert i r. induction todo as [|image rest IH]; intros i r.
  - exists 0. simpl. by rewrite app_nil_r.
  - cbn [uploadLoop]. destruct (stopRequested _).
    + exists 0. cbn. rewrite uploadCalls_app. cbn. rewrite app_nil_r.
      split; [lia|]. by split.
    + destruct (originalUrl image) as [|c url] eqn:Hurl.
      * edestruct IH as (k & Hk & Hcalls & Hall). exists (S k).
        rewrite Hcalls. cbn [take withUrl length trace]. rewrite Hurl.
        split; [lia|]. split; [done|]. intros ?. f_equal. auto.
      * edestruct IH as (k & Hk & Hcalls & Hall). exists (S k).
        rewrite Hcalls. cbn [take withUrl length]. rewrite Hurl.
        destruct (processImage_calls total i image
                    (updateProgress i total (ui i (stored r))) r) as [-> _].
        rewrite <- app_assoc. split; [lia|]. split; [done|]. intros ?. f_equal. auto.
Qed.

End Loop.

Lemma imagesToProcess_all (content : str) (images : list ImageInfo) :
  imagesToProcess content images = contentImages content images.
Proof.
  unfold imagesToProcess, maxImages. apply take_ge.
  destruct (length (contentImages content images)); lia.
Qed.

Lemma processImagesInContent_calls (w : World) (ui : nat -> storage -> storage)
      (withProgress : bool) (now : Z) (content : str) (images : list ImageInfo)
      (st : storage) (n : nat) :
  exists k, k <= length (imagesToProcess content images)
    /\ uploadCalls (trace (processImagesInContent w ui withProgress now content images st n))
       = withUrl 0 (take k (imagesToProcess content images))
    /\ (stopped (processImagesInContent w ui withProgress now content images st n) = false ->
        k = length (imagesToProcess content images)).
Proof.
  unfold processImagesInContent. cbv zeta. cbn [finishRun trace stopped].
  destruct (uploadLoop_calls w ui withProgress
              (length (imagesToProcess content images)) (imagesToProcess content images) 0
              (startRun withProgress now content (imagesToProcess content images) st n))
    as (k & Hk & Hcalls & Hall).
  exists k. split; [done|]. split; [|done]. rewrite Hcalls.
  unfold startRun, progress. by destruct withProgress.
Qed.

(** C2, as the code has it: unless the page is taken for a GitHub page,
    every image that is handed to [uploadImage] is one of the candidates and
    its reference URL -- the [markdownUrl], or the [originalUrl] where that is
    missing -- is found in the body by one of the three searches; so it
    occurs in the body, the letter case aside. *)
Theorem uploads_are_in_body (w : World) (ui : nat -> storage -> storage)
        (withProgress : bool) (now : Z) (content : str) (images : list ImageInfo)
        (st : storage) (n : nat) (i : nat) (img : ImageInfo) :
  isGitHub content images = false ->
  (i, img) ∈ uploadCalls (trace (processImagesInContent w ui withProgress now content images st n)) ->
  img ∈ images
  /\ (foundDirect content (referenceUrl img) = true
      \/ foundInHtml content (referenceUrl img) = true
      \/ foundInMarkdown content (referenceUrl img) = true)
  /\ (exists a m b, content = a ++ m ++ b /\ map upper m = map upper (referenceUrl img)).
Proof.
  intros Hgit Hcall.
  destruct (processImagesInContent_calls w ui withProgress now content images st n)
    as (k & _ & Hcalls & _).
  rewrite Hcalls in Hcall. apply withUrl_elem in Hcall as [_ Hin].
  apply (subseteq_take k) in Hin. rewrite imagesToProcess_all in Hin.
  unfold contentImages in Hin. rewrite Hgit in Hin. cbn [negb] in Hin.
  apply list_elem_of_In, filter_In in Hin as [Hin Hfound].
  split; [by apply list_elem_of_In|]. split; [|by apply isInContent_occurs].
  rewrite isInContent_strategies in Hfound.
  apply orb_true_iff in Hfound as [Hfound|?]; [|auto].
  apply orb_true_iff in Hfound as [?|?]; auto.
Qed.

(** The theorem at a page with one image that its body shows. *)
Lemma uploads_are_in_body_witness :
  photoImage ∈ [photoImage; stray]
  /\ (foundDirect photo_body (referenceUrl photoImage) = true
      \/ foundInHtml photo_body (referenceUrl photoImage) = true
      \/ foundInMarkdown photo_body (referenceUrl photoImage) = true).
Proof.
  destruct (uploads_are_in_body world_accepting quiet false 0 photo_body
                                [photoImage; stray] ∅ 0 0 photoImage)
    as (Hin & Hfound & _).
  - reflexivity.
  - vm_compute. left.
  - split; [exact Hin|exact Hfound].
Defined.

(** C2 as the claim words it fails on a GitHub page: the body holds
    [github.com], one candidate comes from the image proxy, and an image that
    none of the searches finds in the body is uploaded all the same. *)
Lemma uploads_are_in_body_counterexample :
  isInContent github_body stray = false
  /\ uploadCalls (trace (processImagesInContent world_accepting quiet false 0 github_body
                                                [badge; stray] ∅ 0))
     = [(0, badge); (1, stray)].
Proof. split; by vm_compute. Qed.

(** C9, as the code has it: on a page taken for a GitHub page the filter is
    skipped and the whole candidate list is what the loop goes through; a run
    that is not stopped hands to [uploadImage], in list order, every candidate
    that has an [originalUrl], whether its URL occurs in the body or not. *)
Theorem github_pages_skip_filter (w : World) (ui : nat -> storage -> storage)
        (withProgress : bool) (now : Z) (content : str) (images : list ImageInfo)
        (st : storage) (n : nat) :
  includes content (js "github.com") = true ->
  Exists (fun img => includes (originalUrl img) (js "camo.githubusercontent.com") = true)
         images ->
  let r := processImagesInContent w ui withProgress now content images st n in
  imagesToProcess content images = images
  /\ (stopped r = false -> uploadCalls (trace r) = withUrl 0 images)
  /\ (stopped r = false -> Forall (fun img => originalUrl img <> []) images ->
      uploadCalls (trace r) = zip (seq 0 (length images)) images).
Proof.
  intros Hbody Hcamo r.
  assert (Hall : imagesToProcess content images = images).
  { rewrite imagesToProcess_all. unfold contentImages, isGitHub. rewrite Hbody.
    assert (existsb (fun img => includes (originalUrl img)
                                         (js "camo.githubusercontent.com")) images = true)
      as ->; [|done].
    apply existsb_exists. apply Exists_exists in Hcamo as (img & Hin & Himg).
    exists img. split; [by apply list_elem_of_In|done]. }
  assert (Hrun : stopped r = false -> uploadCalls (trace r) = withUrl 0 images).
  { intros Hgo. subst r.
    destruct (processImagesInContent_calls w ui withProgress now content images st n)
      as (k & _ & Hcalls & Hk).
    rewrite Hcalls, (Hk Hgo), Hall. by rewrite firstn_all. }
  split; [done|]. split; [done|]. intros Hgo Hurls. rewrite Hrun by done.
  by apply withUrl_all.
Qed.

(** The theorem at a GitHub page with an image that its body does not show. *)
Lemma github_pages_skip_filter_witness :
  imagesToProcess github_body [badge; stray] = [badge; stray]
  /\ uploadCalls (trace (processImagesInContent world_accepting quiet false 0 github_body
                                                [badge; stray] ∅ 0))
     = [(0, badge); (1, stray)].
Proof.
  destruct (github_pages_skip_filter world_accepting quiet false 0 github_body
                                     [badge; stray] ∅ 0) as (Hall & _ & Hcalls).
  - reflexivity.
  - apply Exists_cons_hd. reflexivity.
  - split; [exact Hall|]. apply Hcalls; [reflexivity|].
    repeat constructor; discriminate.
Defined.

(** C9 as the claim words it fails where the loop's own guards apply: a
    candidate without [originalUrl] is passed over, and after a stop request
    the candidates that are left are not uploaded. *)
Lemma github_pages_skip_filter_counterexample :
  isGitHub github_body [badge; blank; stray] = true
  /\ uploadCalls (trace (processImagesInContent world_accepting quiet false 0 github_body
                                                [badge; blank; stray] ∅ 0))
     = [(0, badge); (2, stray)]
  /\ isGitHub github_body [badge; stray] = true
  /\ uploadCalls (trace (processImagesInContent world_accepting (stopBefore 1) false 0
                                                github_body [badge; stray] ∅ 0))
     = [(0, badge)].
Proof. split_and!; by vm_compute. Qed.



End PipelineFacts.

(** ** The bracket patterns *)

Module BracketFacts.

Import LinkProcessor ContentExtractor.

Lemma atom_lit (x c : ascii) : atomMatches false (Lit x) c = ceq x c.
Proof. done. Qed.

Lemma atom_noneOf (x c : ascii) : atomMatches false (noneOf [x]) c = notChar x c.
Proof. cbn. by rewrite orb_false_r. Qed.

Lemma skipWhile_ext (p q : ascii -> bool) (s : str) :
  (forall c, p c = q c) -> skipWhile p s = skipWhile q s.
Proof. intros Hpq. induction s as [|c s IH]; simpl; [done|]. by rewrite Hpq, IH. Qed.

Lemma keepWhile_ext (p q : ascii -> bool) (s : str) :
  (forall c, p c = q c) -> keepWhile p s = keepWhile q s.
Proof. intros Hpq. induction s as [|c s IH]; simpl; [done|]. by rewrite Hpq, IH. Qed.

(** The tail of both patterns, from the text in parentheses on. *)
Lemma run_paren (t : str) (caps : captures) :
  run false (seqs [Group 2 (Plus (noneOf [")"%char])); One (Lit ")")]) t caps
      (fun s' caps' => Some (s', caps'))
  = match scanParen t with
    | Some (inParen, rest) => Some (rest, (2, inParen) :: caps)
    | None => None
    end.
Proof.
  unfold seqs. cbn [fold_right run]. unfold scanParen. destruct t as [|c t]; [done|].
  rewrite atom_noneOf. destruct (notChar ")" c) eqn:Hc; [|done].
  rewrite star_skip.
  - rewrite (skipWhile_ext _ (notChar ")")) by apply atom_noneOf.
    pose proof (take_keepWhile (notChar ")") (c :: t)) as Htake.
    cbn [skipWhile keepWhile] in Htake. rewrite Hc in Htake.
    destruct (skipWhile (notChar ")") t) as [|c' rest]; [done|].
    rewrite atom_lit. destruct (ceq ")" c'); [|done]. by rewrite Htake.
  - intros c' s' Hc'. rewrite atom_noneOf in Hc'. rewrite atom_lit.
    unfold notChar in Hc'. by destruct (ceq ")" c').
Qed.

Lemma run_bracket (t : str) :
  run false (seqs [Group 1 (Star (noneOf ["]"%char])); One (Lit "]"); One (Lit "(");
                   Group 2 (Plus (noneOf [")"%char])); One (Lit ")")]) t []
      (fun s' caps' => Some (s', caps'))
  = bracketMatch (scanBracket t).
Proof.
  change (seqs [Group 1 (Star (noneOf ["]"%char])); One (Lit "]"); One (Lit "(");
                Group 2 (Plus (noneOf [")"%char])); One (Lit ")")])
    with (Seq (Group 1 (Star (noneOf ["]"%char])))
              (Seq (One (Lit "]"))
                   (Seq (One (Lit "("))
                        (seqs [Group 2 (Plus (noneOf [")"%char])); One (Lit ")")])))).
  cbn [run]. rewrite star_skip.
  - rewrite (skipWhile_ext _ (notChar "]")) by apply atom_noneOf.
    rewrite take_keepWhile. unfold scanBracket.
    destruct (skipWhile (notChar "]") t) as [|c1 [|c2 t2]]; [done| |].
    + rewrite atom_lit. by destruct (ceq "]" c1).
    + rewrite !atom_lit. destruct (ceq "]" c1); [|done]. destruct (ceq "(" c2); [|done].
      rewrite run_paren. by destruct (scanParen t2) as [[inParen rest]|].
  - intros c s' Hc. rewrite atom_noneOf in Hc. rewrite atom_lit.
    unfold notChar in Hc. by destruct (ceq "]" c).
Qed.

(** The link pattern matches as the scan reads. *)
Lemma matchAt_link (s : str) : matchAt false linkPattern s = scanLink s.
Proof.
  unfold matchAt, linkPattern, scanLink.
  change (seqs (One (Lit "[") :: ?rest)) with (Seq (One (Lit "[")) (seqs rest)).
  cbn [run]. destruct s as [|c t]; [done|]. rewrite atom_lit.
  destruct (ceq "[" c); [|done]. apply run_bracket.
Qed.

(** The image pattern matches as the scan reads. *)
Lemma matchAt_image (s : str) : matchAt false imagePattern s = scanImage s.
Proof.
  unfold matchAt, imagePattern, scanImage, scanLink.
  change (seqs (One (Lit "!") :: One (Lit "[") :: ?rest))
    with (Seq (One (Lit "!")) (Seq (One (Lit "[")) (seqs rest))).
  cbn [run]. destruct s as [|c1 t]; [done|]. rewrite atom_lit.
  destruct (ceq "!" c1); [|done]. destruct t as [|c2 t]; [done|]. rewrite atom_lit.
  destruct (ceq "[" c2); [|done]. apply run_bracket.
Qed.

Lemma notChar_true (x c : ascii) : notChar x c = true <-> c <> x.
Proof.
  unfold notChar. rewrite negb_true_iff, ceq_neq. split; congruence.
Qed.


Lemma notChar_all (x : ascii) (a : str) :
  x ∉ a <-> Forall (fun c => notChar x c = true) a.
Proof.
  rewrite Forall_forall. split.
  - intros Hx c Hc. apply notChar_true. by intros ->.
  - intros Hall Hx. apply Hall, notChar_true in Hx. done.
Qed.

Lemma scanParen_intro (inParen rest : str) :
  ")"%char ∉ inParen -> inParen <> [] ->
  scanParen (inParen ++ ")"%char :: rest) = Some (inParen, rest).
Proof.
  intros Hno Hne. destruct inParen as [|c u]; [done|].
  apply notChar_all in Hno. apply Forall_cons in Hno as [Hc Hu].
  destruct (keepWhile_app (notChar ")") u (")"%char :: rest) Hu eq_refl) as [Hkeep Hskip].
  cbn [app scanParen]. by rewrite Hc, Hskip, Hkeep.
Qed.

Lemma scanParen_elim (t inParen rest : str) :
  scanParen t = Some (inParen, rest) ->
  t = inParen ++ ")"%char :: rest /\ (")"%char ∉ inParen) /\ inParen <> [].
Proof.
  unfold scanParen. destruct t as [|c t]; [done|].
  destruct (notChar ")" c) eqn:Hc; [|done].
  destruct (skipWhile (notChar ")") t) as [|c' rest'] eqn:Hskip; [done|].
  destruct (ceq ")" c') eqn:Hc'; [|done]. intros [= <- <-].
  apply ceq_eq in Hc' as <-. split_and!; [|apply notChar_all|done].
  - cbn [app]. by rewrite <- Hskip, keep_skip.
  - constructor; [done|]. apply keepWhile_all.
Qed.

Lemma scanBracket_intro (inBracket inParen rest : str) :
  "]"%char ∉ inBracket -> ")"%char ∉ inParen -> inParen <> [] ->
  scanBracket (inBracket ++ js "](" ++ inParen ++ js ")" ++ rest)
  = Some (inBracket, inParen, rest).
Proof.
  intros Hb Hp Hne. apply notChar_all in Hb. unfold scanBracket.
  destruct (keepWhile_app (notChar "]") inBracket
              (js "](" ++ inParen ++ js ")" ++ rest) Hb eq_refl) as [-> ->].
  cbn [js list_ascii_of_string app]. rewrite !ceq_refl.
  by rewrite scanParen_intro.
Qed.

Lemma scanBracket_elim (s inBracket inParen rest : str) :
  scanBracket s = Some (inBracket, inParen, rest) ->
  s = inBracket ++ js "](" ++ inParen ++ js ")" ++ rest
  /\ ("]"%char ∉ inBracket) /\ (")"%char ∉ inParen) /\ inParen <> [].
Proof.
  unfold scanBracket.
  destruct (skipWhile (notChar "]") s) as [|c1 [|c2 t]] eqn:Hskip; [done..|].
  destruct (ceq "]" c1) eqn:Hc1; [|done]. destruct (ceq "(" c2) eqn:Hc2; [|done].
  destruct (scanParen t) as [[u rest']|] eqn:Hparen; [|done]. intros [= <- <- <-].
  apply ceq_eq in Hc1 as <-. apply ceq_eq in Hc2 as <-.
  apply scanParen_elim in Hparen as (-> & Hno & Hne). split_and!; [|apply notChar_all|done..].
  - rewrite <- (keep_skip (notChar "]") s) at 1. by rewrite Hskip.
  - apply keepWhile_all.
Qed.

(** A match of the image pattern is an image reference, and an image
    reference is matched as a whole. *)
Lemma scanImage_intro (alt url rest : str) :
  "]"%char ∉ alt -> ")"%char ∉ url -> url <> [] ->
  scanImage (imageTag alt url ++ rest) = Some (rest, [(2, url); (1, alt)]).
Proof.
  intros Ha Hu Hne. unfold imageTag. rewrite <- !app_assoc.
  change (js "![" ++ ?t) with ("!"%char :: "["%char :: t).
  cbn [scanImage scanLink]. rewrite !ceq_refl.
  by rewrite scanBracket_intro.
Qed.

Lemma scanImage_elim (s rest : str) (caps : captures) :
  scanImage s = Some (rest, caps) ->
  exists alt url, s = imageTag alt url ++ rest /\ caps = [(2, url); (1, alt)]
                  /\ ("]"%char ∉ alt) /\ (")"%char ∉ url) /\ url <> [].
Proof.
  unfold scanImage, scanLink. destruct s as [|c1 [|c2 t]]; [done| |].
  - by destruct (ceq "!" c1).
  - destruct (ceq "!" c1) eqn:Hc1; [|done]. destruct (ceq "[" c2) eqn:Hc2; [|done].
    destruct (scanBracket t) as [[[alt url] rest']|] eqn:Hscan; [|done].
    intros [= <- <-]. apply ceq_eq in Hc1 as <-. apply ceq_eq in Hc2 as <-.
    apply scanBracket_elim in Hscan as (-> & ? & ? & ?).
    exists alt, url. split_and!; try done. unfold imageTag. by rewrite <- !app_assoc.
Qed.

Lemma scanLink_intro (text url rest : str) :
  "]"%char ∉ text -> ")"%char ∉ url -> url <> [] ->
  scanLink (plainLink text url ++ rest) = Some (rest, [(2, url); (1, text)]).
Proof.
  intros Ha Hu Hne. unfold plainLink. rewrite <- !app_assoc.
  change (js "[" ++ ?t) with ("["%char :: t).
  cbn [scanLink]. rewrite !ceq_refl.
  by rewrite scanBracket_intro.
Qed.

(** *** The scan as an automaton *)









End BracketFacts.

(** ** The relative image URL pass *)

Module ImageUrlFacts.

Import ContentExtractor BracketFacts Samples.

Lemma imageTag_cons (alt url : str) : exists c t, imageTag alt url = c :: t.
Proof. unfold imageTag. exists "!"%char. eexists. reflexivity. Qed.

Section Pass.
Context `{UrlApi}.





(** What the URL API is taken to give: a resolved URL is not empty and holds
    no closing parenthesis, and it is absolute for the pass or resolves to
    itself. *)
Hypothesis resolved_clean :
  forall url absolute, resolveURL url = Some absolute ->
                       absolute <> [] /\ (")"%char ∉ absolute).
Hypothesis resolved_stable :
  forall url absolute, resolveURL url = Some absolute ->
                       isAbsoluteOrData absolute = true \/ resolveURL absolute = Some absolute.





End Pass.

Lemma includes_char (c : ascii) (s : str) : includes s [c] = false -> c ∉ s.
Proof.
  induction s as [|d s IH]; simpl; [intros _; apply not_elem_of_nil|].
  rewrite andb_true_r. intros [Hd Hs]%orb_false_iff. apply not_elem_of_cons.
  split; [by apply ceq_neq|auto].
Qed.





End ImageUrlFacts.

(** ** The link classifier *)

Module LinkFacts.

Import LinkProcessor BracketFacts Samples.

Lemma rule_some (applies : bool) (o : option str) (id : str) :
  rule applies o = Some id -> id <> [].
Proof.
  unfold rule, truthy. destruct applies; [|done]. destruct o as [[|c t]|]; [done| |done].
  by intros [= <-].
Qed.

Lemma rule_no_domain (o : option str) : rule false o = None.
Proof. done. Qed.

Section Links.
Context `{UrlApi}.

(** A text that is one link is replaced as a whole. *)
Lemma processLinks_one (text url : str) :
  ("]"%char ∉ text) -> (")"%char ∉ url) -> url <> [] ->
  processLinks (plainLink text url)
  = match truthy (convertLinkToOutlineTag text url) with
    | Some tag => tag
    | None => plainLink text url
    end.
Proof.
  intros Ht Hu Hne. unfold processLinks.
  rewrite <- (app_nil_r (plainLink text url)) at 1.
  rewrite (replaceAll_hit _ _ _ _ _ [(2, url); (1, text)]).
  - rewrite replaceAll_nil by (by rewrite matchAt_link). rewrite app_nil_r.
    unfold linkReplacer.
    change (group [(2, url); (1, text)] 1) with text.
    by change (group [(2, url); (1, text)] 2) with url.
  - done.
  - rewrite matchAt_link. by apply scanLink_intro.
Qed.

(** What the classifier can give: nothing, the link as it is, or a marker
    of one of the providers with an id that is the URL or is not empty. *)
Lemma convertLinkToOutlineTag_shape (text url : str) :
  convertLinkToOutlineTag text url = None
  \/ convertLinkToOutlineTag text url = Some (plainLink text url)
  \/ exists provider id,
       In provider providers /\ (id = url \/ id <> [])
       /\ convertLinkToOutlineTag text url = Some (embed provider id).
Proof.
  unfold convertLinkToOutlineTag. destruct (parseURL url) as [urlObj|]; [|by left].
  right. cbv zeta.
  repeat match goal with
         | |- context [match rule ?a ?o with _ => _ end] =>
             let E := fresh "E" in
             destruct (rule a o) as [?id|] eqn:E;
             [apply rule_some in E; right; eexists _, _;
              split; [|split; [right; exact E|reflexivity]]; simpl; tauto|]
         | |- context [if ?b then _ else _] =>
             destruct b;
             [right; eexists _, _; split; [|split; [left; reflexivity|reflexivity]];
              simpl; tauto|]
         end.
  by left.
Qed.

Lemma convertLinkToOutlineTag_plain (text url : str) (urlObj : URL) :
  parseURL url = Some urlObj -> noProviderTag url urlObj ->
  convertLinkToOutlineTag text url = Some (plainLink text url).
Proof.
  intros Hparse (Hy & Ht & Hc & Hg & Hfigma & Hmiro & Hmaps & Hvimeo).
  unfold convertLinkToOutlineTag. rewrite Hparse. cbv zeta.
  by rewrite Hy, Ht, Hc, Hg, Hfigma, Hmiro, Hmaps, Hvimeo.
Qed.

Lemma noProviderDomain_noProviderTag (url : str) (urlObj : URL) :
  noProviderDomain urlObj -> noProviderTag url urlObj.
Proof.
  intros (Hy & Ht & Hc & Hg & Hf & Hm & Hmaps & Hv). unfold noProviderTag. cbv zeta.
  by rewrite Hy, Ht, Hc, Hg, Hf, Hm, Hmaps, Hv.
Qed.

(** C6, as the code has it: a link [[text](url)] comes out of [processLinks]
    as it went in if the URL does not parse, if no provider's domain test
    holds for it, or if every provider whose domain test holds finds no id
    and the URL is none of those embedded as they are; and whatever the URL,
    the link comes out as it went in or as the marker [@[provider](id)] of
    one of the eight providers with an id that is not empty. *)
Theorem processLinks_fallback (text url : str) :
  ("]"%char ∉ text) -> (")"%char ∉ url) -> url <> [] ->
  (parseURL url = None -> processLinks (plainLink text url) = plainLink text url)
  /\ (forall urlObj, parseURL url = Some urlObj ->
        noProviderDomain urlObj \/ noProviderTag url urlObj ->
        processLinks (plainLink text url) = plainLink text url)
  /\ (processLinks (plainLink text url) = plainLink text url
      \/ exists provider id,
           In provider providers /\ id <> []
           /\ processLinks (plainLink text url) = embed provider id).
Proof.
  intros Ht Hu Hne. rewrite processLinks_one by done. split_and!.
  - intros Hparse. unfold convertLinkToOutlineTag. by rewrite Hparse.
  - intros urlObj Hparse Hno.
    assert (noProviderTag url urlObj) as Hrules
        by (destruct Hno; [by apply noProviderDomain_noProviderTag|done]).
    by rewrite (convertLinkToOutlineTag_plain text url urlObj).
  - destruct (convertLinkToOutlineTag_shape text url)
      as [-> | [-> | (provider & id & Hin & Hid & ->)]]; [by left..|].
    right. exists provider, id. split; [done|]. split; [|done].
    destruct Hid as [-> | ?]; done.
Qed.

End Links.

Lemma not_a_provider :
  @parseURL plainApi (js "https://example.com/not-a-provider")
  = Some (mkURL (js "example.com") (js "/not-a-provider"))
  /\ noProviderDomain (mkURL (js "example.com") (js "/not-a-provider")).
Proof. split; [reflexivity|]. by vm_compute. Qed.

(** The theorem at the plain link of the specification. *)
Lemma processLinks_fallback_witness :
  @processLinks plainApi (plainLink (js "text") (js "https://example.com/not-a-provider"))
  = plainLink (js "text") (js "https://example.com/not-a-provider").
Proof.
  destruct (@processLinks_fallback plainApi (js "text")
              (js "https://example.com/not-a-provider")) as (_ & Hplain & _).
  - solve_notin.
  - solve_notin.
  - discriminate.
  - apply (Hplain (mkURL (js "example.com") (js "/not-a-provider"))).
    + exact (proj1 not_a_provider).
    + left. exact (proj2 not_a_provider).
Defined.

(** The examples of the specification. *)
Lemma processLinks_examples :
  @processLinks plainApi (js "[v](https://youtu.be/abc123)") = js "@[youtube](abc123)"
  /\ @processLinks plainApi (js "[v](https://vimeo.com/55500)") = js "@[vimeo](55500)"
  /\ @processLinks plainApi (js "[text](https://example.com/not-a-provider)")
     = js "[text](https://example.com/not-a-provider)"
  /\ @processLinks plainApi (js "[text](not a url)") = js "[text](not a url)".
Proof. split_and!; by vm_compute. Qed.

(** C6 as the claim words it fails on a URL whose host holds the names of
    two providers: the domain test of the first holds and its id extraction
    fails, and the link does not come out as it went in but as the marker of
    the second. *)
Lemma processLinks_counterexample :
  @parseURL plainApi twoProviderUrl = Some (mkURL (js "youtu.be.figma.com") (js "/"))
  /\ isYouTube (toLowerCase (js "youtu.be.figma.com")) = true
  /\ extractYouTubeVideoId twoProviderUrl = None
  /\ @processLinks plainApi (plainLink (js "board") twoProviderUrl)
     = embed "figma" twoProviderUrl
  /\ embed "figma" twoProviderUrl <> plainLink (js "board") twoProviderUrl.
Proof. split_and!; by vm_compute. Qed.

End LinkFacts.

(** ** Stop requests *)

Module StopRequestFacts.

Import UploadStateStorage OutlineClient UploadStateFacts.

Lemma stopRequested_updateProgress (ci ti : nat) (st : storage) :
  stopRequested (getState (updateProgress ci ti st)) = stopRequested (getState st).
Proof.
  unfold updateProgress. destruct (getState st) as [state|] eqn:E.
  - by rewrite getState_setState.
  - by rewrite E.
Qed.

(** X1 (requestStop, updateProgress).  While an upload is running,
    [requestStop] sets the stop flag, the flag is still set after any
    sequence of [updateProgress], and a second request changes nothing.
    Without a stored state, or with one that is not uploading, [requestStop]
    writes nothing. *)
Theorem requestStop_sticks (st : storage) :
  match getState st with
  | Some state =>
      if isUploading state then
        stopRequested (getState (requestStop st)) = true
        /\ (forall updates : list (nat * nat),
              stopRequested
                (getState (foldr (fun p => updateProgress p.1 p.2) (requestStop st) updates))
              = true)
        /\ requestStop (requestStop st) = requestStop st
      else requestStop st = st
  | None => requestStop st = st
  end.
Proof.
  unfold requestStop. destruct (getState st) as [state|] eqn:E; [|done].
  destruct (isUploading state) eqn:U; [|done].
  split_and!.
  - by rewrite getState_setState.
  - induction updates as [|[ci ti] updates IH]; simpl.
    + by rewrite getState_setState.
    + by rewrite stopRequested_updateProgress.
  - rewrite getState_setState. simpl. unfold setState.
    by rewrite insert_insert_eq.
Qed.

End StopRequestFacts.

(** ** Retries and requests of uploadImage *)

Module RetryFacts.

Import OutlineClient UploadFacts.

Lemma uploadImage_left_retries (w : World) (imageUrl : str) (left retryCount n : nat) :
  maxRetries - retryCount <= left ->
  exists k,
    next (uploadImage_left left w imageUrl retryCount n) = n + S k
    /\ k <= maxRetries - retryCount
    /\ backoffs (net (uploadImage_left left w imageUrl retryCount n))
       = map backoffDelay (seq retryCount k)
    /\ (forall j, j < k ->
          exists e, fst (attemptUpload w (answers w (n + j)) imageUrl) = Threw e
                    /\ is429 e = true).
Proof.
  revert retryCount n.
  induction left as [|left IH]; intros retryCount n Hleft; simpl;
    unfold uploadImage_body;
    pose proof (attemptUpload_events w (answers w n) imageUrl) as Hevs;
    destruct (attemptUpload w (answers w n) imageUrl) as [c evs] eqn:Ha;
    simpl in Hevs.
  - assert ((retryCount <? maxRetries) = false) as Hlt by (apply Nat.ltb_ge; lia).
    exists 0. destruct c as [v|e]; [|destruct (is401 e)];
      rewrite ?Hlt, ?andb_false_r; simpl;
      (split_and!; [lia | lia | done | intros j Hj; lia]).
  - destruct c as [v|e]; [|destruct (is401 e)];
      try (exists 0; simpl; split_and!; [lia | lia | done | intros j Hj; lia]).
    destruct (is429 e) eqn:H429; simpl;
      [|exists 0; simpl; split_and!; [lia | lia | done | intros j Hj; lia]].
    destruct (retryCount <? maxRetries) eqn:Hlt;
      [|exists 0; simpl; split_and!; [lia | lia | done | intros j Hj; lia]].
    apply Nat.ltb_lt in Hlt.
    destruct (IH (S retryCount) (S n)) as (k & Hnext & Hk & Hback & Hall); [lia|].
    exists (S k). simpl. split_and!.
    + rewrite Hnext. lia.
    + lia.
    + rewrite backoffs_retry, Hevs, Hback. done.
    + intros [|j] Hj.
      * rewrite Nat.add_0_r, Ha. by exists e.
      * destruct (Hall j) as (e' & He' & H'); [lia|].
        exists e'. by replace (n + S j) with (S n + j) by lia.
Qed.

(** X3 (uploadImage).  A call makes [k + 1] attempts, [k] at most
    [maxRetries - retryCount]; its waits are [backoffDelay retryCount],
    [backoffDelay (retryCount + 1)], ..., one between two attempts; and every
    attempt but the last failed with HTTP 429: nothing else is tried again. *)
Theorem uploadImage_retries (w : World) (imageUrl : str) (retryCount n : nat) :
  let u := uploadImage w imageUrl retryCount n in
  exists k,
    next u = n + S k
    /\ k <= maxRetries - retryCount
    /\ backoffs (net u) = map backoffDelay (seq retryCount k)
    /\ (forall j, j < k ->
          exists e, fst (attemptUpload w (answers w (n + j)) imageUrl) = Threw e
                    /\ is429 e = true).
Proof. apply uploadImage_left_retries. done. Qed.

Lemma uploadBlob_announces (P : NetEvent -> Prop) (w : World) (a : Attempt) (size : N)
      (mime : str) (evs : list NetEvent) :
  (forall m, (size <= maxBlobSize)%N -> startsWith (js "image/") m = true ->
             P (AttachmentsCreate m size)) ->
  (forall url authorized presigned, P (FilePost url authorized presigned)) ->
  Forall P evs -> Forall P (snd (uploadBlob w a size mime evs)).
Proof.
  intros Hcreate Hpost Hevs. unfold uploadBlob.
  destruct (maxBlobSize <? size)%N eqn:Hsize; [done|].
  apply N.ltb_ge in Hsize.
  destruct (startsWith (js "image/") (cleanMime mime)) eqn:Hmime; simpl; [|done].
  assert (Forall P (evs ++ [AttachmentsCreate (cleanMime mime) size])) as H1.
  { apply Forall_app. split; [done|]. repeat constructor. by apply Hcreate. }
  destruct (slot a) as [st|st [data|]]; simpl; try done.
  assert (forall t x y, Forall P ((evs ++ [AttachmentsCreate (cleanMime mime) size])
                                  ++ [FilePost t x y])) as H2.
  { intros. apply Forall_app. split; [done|]. repeat constructor. apply Hpost. }
  destruct (submit a) as [st'|status []]; simpl; [apply H2|].
  destruct (acceptedStatus status); simpl; [|apply H2].
  destruct (attachment data); simpl; apply H2.
Qed.

Lemma attemptUpload_announces (P : NetEvent -> Prop) (w : World) (a : Attempt)
      (imageUrl : str) :
  (forall m size, (size <= maxBlobSize)%N -> startsWith (js "image/") m = true ->
                  P (AttachmentsCreate m size)) ->
  (forall url authorized presigned, P (FilePost url authorized presigned)) ->
  (startsWith (js "data:") imageUrl = false -> P (Fetch imageUrl)) ->
  Forall P (snd (attemptUpload w a imageUrl)).
Proof.
  intros Hcreate Hpost Hfetch. unfold attemptUpload.
  destruct (startsWith (js "data:") imageUrl).
  - destruct (atobLength w _); [|by constructor].
    apply uploadBlob_announces; auto.
  - destruct (download a) as [|status size ct]; [by repeat constructor; auto|].
    destruct (ok status); [|by repeat constructor; auto].
    apply uploadBlob_announces; auto.
Qed.

Lemma uploadImage_left_announces (P : NetEvent -> Prop) (w : World) (imageUrl : str)
      (left retryCount n : nat) :
  (forall m size, (size <= maxBlobSize)%N -> startsWith (js "image/") m = true ->
                  P (AttachmentsCreate m size)) ->
  (forall url authorized presigned, P (FilePost url authorized presigned)) ->
  (startsWith (js "data:") imageUrl = false -> P (Fetch imageUrl)) ->
  (forall ms, P (Backoff ms)) ->
  Forall P (net (uploadImage_left left w imageUrl retryCount n)).
Proof.
  intros Hcreate Hpost Hfetch Hback. revert retryCount n.
  induction left as [|left IH]; intros retryCount n; simpl; unfold uploadImage_body;
    pose proof (attemptUpload_announces P w (answers w n) imageUrl Hcreate Hpost Hfetch)
      as Hevs;
    destruct (attemptUpload w (answers w n) imageUrl) as [c evs]; simpl in Hevs;
    (destruct c as [v|e]; [done|]);
    (destruct (is401 e); [done|]);
    (destruct (is429 e && (retryCount <? maxRetries)); [|done]); simpl;
    apply Forall_app; (split; [done|]); constructor; auto.
Qed.

(** X4 (uploadImage).  Whatever the outside answers, the only download
    is that of the image URL, and a data URL is never downloaded; every
    [attachments.create] request announces a blob of at most 10 MB whose type
    starts with [image/]. *)
Theorem uploadImage_requests (w : World) (imageUrl : str) (retryCount n : nat) :
  Forall (fun e => match e with
                   | Fetch url => url = imageUrl /\ startsWith (js "data:") imageUrl = false
                   | AttachmentsCreate contentType size =>
                       (size <= maxBlobSize)%N
                       /\ startsWith (js "image/") contentType = true
                   | FilePost _ _ _ | Backoff _ => True
                   end)
         (net (uploadImage w imageUrl retryCount n)).
Proof. by apply uploadImage_left_announces. Qed.

End RetryFacts.

(** ** A run of the upload loop *)

Module RunFacts.

Import UploadStateStorage OutlineClient UploadFacts UploadStateFacts PipelineFacts RetryFacts.
Import Samples StopRequestFacts.


Section Loop.
Context (w : World) (ui : nat -> storage -> storage) (withProgress : bool).



Lemma processImage_body (total i : nat) (image : ImageInfo) (st : storage) (r : Run) :
  outcome (uploadImage w (originalUrl image) 0 (session r)) = Resolved (originalUrl image) ->
  body (processImage w withProgress total i image st r) = body r.
Proof.
  intros Hu. unfold processImage. rewrite Hu.
  assert (str_eqb (originalUrl image) (originalUrl image) = true) as ->
    by by apply str_eqb_eq.
  done.
Qed.

Lemma uploadLoop_body (total : nat) (todo : list ImageInfo) (i : nat) (r : Run) :
  Forall (fun img => forall m, outcome (uploadImage w (originalUrl img) 0 m)
                               = Resolved (originalUrl img)) todo ->
  body (uploadLoop w ui withProgress total i todo r) = body r.
Proof.
  intros Hall. revert i r. induction Hall as [|image rest Himg _ IH]; intros i r; simpl.
  - done.
  - destruct (stopRequested (getState (ui i (stored r)))); [done|].
    destruct (originalUrl image) as [|c url] eqn:Hurl.
    + by rewrite IH.
    + rewrite IH. apply processImage_body. rewrite Hurl. apply Himg.
Qed.

Lemma processImage_stored (total i : nat) (image : ImageInfo) (st : storage) (r : Run) :
  stored (processImage w withProgress total i image st r) = st.
Proof.
  unfold processImage.
  destruct (outcome (uploadImage w (originalUrl image) 0 (session r))) as [hosted|e];
    [destruct (negb (str_eqb hosted (originalUrl image)))|]; done.
Qed.

Lemma uploadLoop_runs (total : nat) (todo : list ImageInfo) (i : nat) (r : Run) :
  (forall j st, stopRequested (getState st) = false ->
                stopRequested (getState (ui j st)) = false) ->
  stopRequested (getState (stored r)) = false -> stopped r = false ->
  stopped (uploadLoop w ui withProgress total i todo r) = false.
Proof.
  intros Hui. revert i r. induction todo as [|image rest IH]; intros i r Hflag Hrun; simpl.
  - done.
  - rewrite (Hui i (stored r) Hflag).
    destruct (originalUrl image) as [|c url] eqn:Hurl; apply IH.
    + simpl. rewrite stopRequested_updateProgress. by apply Hui.
    + done.
    + rewrite processImage_stored, stopRequested_updateProgress. by apply Hui.
    + apply processImage_calls.
Qed.

End Loop.

Lemma imagesToProcess_sub (content : str) (images : list ImageInfo) :
  imagesToProcess content images ⊆ images
  /\ length (imagesToProcess content images) <= length images.
Proof.
  rewrite imagesToProcess_all. unfold contentImages.
  destruct (negb (isGitHub content images)); [|done].
  split.
  - intros x Hx. apply list_elem_of_In, filter_In in Hx.
    apply list_elem_of_In. tauto.
  - apply List.filter_length_le.
Qed.




(** X2 (processImagesInContent).  A stop flag that is in the storage
    before the call does not stop the run, which starts with the flag off:
    when nothing sets the flag during the run, the loop is not left early
    and every image with a URL is handed to [uploadImage].  The run ends
    with the state removed, so that a stop request made then writes
    nothing. *)
Theorem run_ignores_earlier_stop (w : World) (ui : nat -> storage -> storage)
        (withProgress : bool) (now : Z) (content : str) (images : list ImageInfo)
        (st : storage) (n : nat) :
  (forall j st', stopRequested (getState st') = false ->
                 stopRequested (getState (ui j st')) = false) ->
  let r := processImagesInContent w ui withProgress now content images st n in
  stopped r = false
  /\ uploadCalls (trace r) = withUrl 0 (imagesToProcess content images)
  /\ requestStop (stored r) = stored r.
Proof.
  intros Hui r.
  assert (stopped r = false) as Hrun.
  { unfold r, processImagesInContent, finishRun. cbn [stopped].
    apply uploadLoop_runs; [done| |done].
    unfold startRun. cbn [stored]. by rewrite getState_setState. }
  split_and!; [done| |].
  - destruct (processImagesInContent_calls w ui withProgress now content images st n)
      as (k & Hk & Hcalls & Hall).
    fold r in Hcalls, Hall. rewrite Hcalls, (Hall Hrun). by rewrite firstn_all.
  - unfold r, processImagesInContent, finishRun. cbn [stored].
    unfold requestStop. by rewrite getState_clearState.
Qed.

Lemma run_ignores_earlier_stop_witness :
  stopped (processImagesInContent world_accepting quiet false 0 two_photos_body
             [photoImage; secondImage]
             (setState (mkUploadState true 0 2 0 None (Some true)) ∅) 0) = false.
Proof. by apply run_ignores_earlier_stop. Defined.

(** X6 (processImagesInContent).  When every upload resolves to the
    URL of its image, as it does when the download fails, the run returns
    the body unchanged. *)
Theorem failed_uploads_keep_body (w : World) (ui : nat -> storage -> storage)
        (withProgress : bool) (now : Z) (content : str) (images : list ImageInfo)
        (st : storage) (n : nat) :
  (forall img m, img ∈ images ->
                 outcome (uploadImage w (originalUrl img) 0 m) = Resolved (originalUrl img)) ->
  body (processImagesInContent w ui withProgress now content images st n) = content.
Proof.
  intros Hall. unfold processImagesInContent, finishRun. simpl.
  rewrite uploadLoop_body; [done|].
  apply Forall_forall. intros img Hin m. apply Hall.
  by apply (proj1 (imagesToProcess_sub content images)).
Qed.

Lemma failed_uploads_keep_body_witness :
  body (processImagesInContent world_offline quiet true 0 two_photos_body
                               [photoImage; secondImage] ∅ 0)
  = two_photos_body.
Proof.
  apply failed_uploads_keep_body. intros img m Hin.
  apply list_elem_of_In in Hin. simpl in Hin.
  destruct Hin as [<-|[<-|[]]]; reflexivity.
Defined.

End RunFacts.

(** ** What the rewriting of the body finds *)

Module RewriteFacts.

Import OutlineClient ReplaceFacts Samples.

Section NoMatch.
Context (icase : bool) (r : regex) (f : str -> captures -> str).

Lemma replaceAll_none (s : str) :
  (forall a s', s = a ++ s' -> matchAt icase r s' = None) ->
  replaceAll icase r f s = s.
Proof.
  induction s as [|c s IH]; intros Hno.
  - apply replaceAll_nil. by apply (Hno [] []).
  - rewrite replaceAll_miss by (by apply (Hno [] (c :: s))).
    f_equal. apply IH. intros a s' ->. by apply (Hno (c :: a) s').
Qed.

End NoMatch.

Lemma canon_upper (icase : bool) (m u : str) :
  map (canon icase) m = map (canon icase) u -> map upper m = map upper u.
Proof.
  destruct icase; [done|]. unfold canon.
  rewrite !map_id. by intros ->.
Qed.

Lemma occurs_upper (content u : str) :
  (exists a m b, content = a ++ m ++ b /\ map upper m = map upper u) ->
  includes (map upper content) (map upper u) = true.
Proof.
  intros (a & m & b & -> & Hm). apply includes_spec.
  exists (map upper a), (map upper b). by rewrite !map_app, Hm.
Qed.

Lemma replaceAll_absent (icase : bool) (pre post : list regex) (u : str)
      (f : str -> captures -> str) (content : str) :
  includes (map upper content) (map upper u) = false ->
  replaceAll icase (seqs (pre ++ lit u :: post)) f content = content.
Proof.
  intros Hno. apply replaceAll_none. intros a s' -> .
  destruct (matchAt icase (seqs (pre ++ lit u :: post)) s') as [x|] eqn:Hm; [|done].
  apply run_seqs_lit in Hm as (a' & m & b & -> & Hm).
  apply canon_upper in Hm.
  rewrite occurs_upper in Hno; [done|].
  exists (a ++ a'), m, b. by rewrite <- app_assoc.
Qed.

(** X7 (replaceImageUrlInContent).  When the URL does not occur in the
    body, whatever the case of the letters, none of the three steps changes
    the body. *)
Theorem replaceImageUrlInContent_absent (content original newUrl : str) :
  includes (map upper content) (map upper original) = false ->
  replaceImageUrlInContent content original newUrl = content.
Proof.
  intros Hno.
  assert (includes content original = false) as Hinc.
  { destruct (includes content original) eqn:E; [|done].
    apply includes_spec in E as (a & b & ->).
    rewrite occurs_upper in Hno; [done|]. by exists a, original, b. }
  unfold replaceImageUrlInContent. rewrite Hinc. simpl.
  unfold replaceHtml, replaceMarkdown.
  assert (forall f, replaceAll false (markdownImagePattern original) f content = content)
    as ->.
  { intros f.
    by apply (replaceAll_absent false [lit (js "!["); Group 1 (Star (noneOf ["]"%char]));
                                       lit (js "](")] [lit (js ")")]). }
  assert (forall f, replaceAll true (htmlImgPattern original) f content = content) as ->.
  { intros f.
    by apply (replaceAll_absent true
                [Group 1 (seqs [lit (js "<img"); inTag; One space; lit (js "src="); quote])]
                [Group 2 (seqs [quote; inTag; One (Lit ">")])]). }
  by apply (replaceAll_absent true [lit (js "<img"); Plus space; lit (js "src="); quote]
                              [quote; Star space; One (Lit ">")]).
Qed.

Lemma replaceImageUrlInContent_absent_witness :
  replaceImageUrlInContent body_with_path_only absolute_photo hosted = body_with_path_only.
Proof. apply replaceImageUrlInContent_absent. reflexivity. Defined.

Lemma split_two (sep s : str) :
  sep <> [] -> includes s sep = true -> exists p q rest, split sep s = p :: q :: rest.
Proof.
  intros Hsep Hinc.
  pose proof (split_join sep s Hsep) as Hjoin.
  pose proof (split_free sep s Hsep) as Hfree.
  destruct (split sep s) as [|p [|q rest]]; [| |by eauto].
  - simpl in Hjoin. subst s. destruct sep; [done|]. discriminate.
  - simpl in Hjoin. subst s. apply Forall_inv in Hfree. congruence.
Qed.

Lemma length_join (sep : str) (parts : list str) :
  length (join sep parts) + length sep
  = list_sum (map length parts) + length parts * length sep \/ parts = [].
Proof.
  induction parts as [|p [|q rest] IH]; [by right|left; simpl; lia|left].
  destruct IH as [IH|]; [|done].
  rewrite join_cons, !length_app. simpl in *. lia.
Qed.

Lemma join_inj (sep sep' p q : str) (rest : list str) :
  join sep (p :: q :: rest) = join sep' (p :: q :: rest) -> sep = sep'.
Proof.
  intros Heq.
  assert (length sep = length sep') as Hlen.
  { destruct (length_join sep (p :: q :: rest)) as [H1|]; [|done].
    destruct (length_join sep' (p :: q :: rest)) as [H2|]; [|done].
    rewrite Heq in H1. simpl in *. nia. }
  rewrite !join_cons in Heq. apply app_inv_head in Heq.
  by apply app_inj_1 in Heq as [? _].
Qed.

(** X8 (replaceImageUrlInContent).  When the body contains the URL, the
    URL is not empty and the new URL is another one, the first step applies:
    the result is the body with every occurrence replaced, it differs from
    the body and it contains the new URL. *)
Theorem replaceImageUrlInContent_present (content original newUrl : str) :
  includes content original = true -> original <> [] -> newUrl <> original ->
  replaceImageUrlInContent content original newUrl = join newUrl (split original content)
  /\ replaceImageUrlInContent content original newUrl <> content
  /\ includes (replaceImageUrlInContent content original newUrl) newUrl = true.
Proof.
  intros Hinc Horig Hnew.
  destruct (split_two original content Horig Hinc) as (p & q & rest & Hsplit).
  assert (replaceExact content original newUrl <> content) as Hneq.
  { unfold replaceExact. rewrite <- (split_join original content Horig) at 2.
    rewrite Hsplit. intros Heq. by apply join_inj in Heq. }
  assert (replaceImageUrlInContent content original newUrl
          = join newUrl (split original content)) as Hres.
  { unfold replaceImageUrlInContent. rewrite Hinc.
    assert (str_eqb content (replaceExact content original newUrl) = false) as ->
      by (apply str_eqb_neq; congruence).
    done. }
  rewrite Hres. split_and!; [done|done|].
  rewrite Hsplit, join_cons. apply includes_spec. by exists p, (join newUrl (q :: rest)).
Qed.

Lemma replaceImageUrlInContent_present_witness :
  includes (replaceImageUrlInContent two_photos_body photo hosted) hosted = true.
Proof.
  apply replaceImageUrlInContent_present; [reflexivity|discriminate|discriminate].
Defined.

End RewriteFacts.

(** ** The link pass next to the image pass *)

Module LinkPassFacts.

Import LinkProcessor ContentExtractor BracketFacts LinkFacts RewriteFacts Samples.

Lemma scanLink_elim (s rest : str) (caps : captures) :
  scanLink s = Some (rest, caps) ->
  exists text url, s = plainLink text url ++ rest /\ caps = [(2, url); (1, text)]
                   /\ ("]"%char ∉ text) /\ (")"%char ∉ url) /\ url <> [].
Proof.
  unfold scanLink. destruct s as [|c t]; [discriminate|].
  destruct (ceq "[" c) eqn:Hc; [|discriminate]. apply ceq_eq in Hc as <-.
  destruct (scanBracket t) as [[[text url] rest']|] eqn:Hs; [|discriminate].
  intros [= <- <-].
  apply scanBracket_elim in Hs as (-> & ? & ? & ?).
  exists text, url. split_and!; try done. unfold plainLink. by rewrite <- !app_assoc.
Qed.

Lemma scanLink_bracket (s : str) (x : str * captures) :
  scanLink s = Some x -> includes s (js "](") = true.
Proof.
  destruct x as [rest caps]. intros (text & url & -> & _)%scanLink_elim.
  apply includes_spec. exists ("["%char :: text), (url ++ js ")" ++ rest).
  unfold plainLink. rewrite <- !app_assoc. reflexivity.
Qed.

Lemma scanImage_bracket (s : str) (x : str * captures) :
  scanImage s = Some x -> includes s (js "](") = true.
Proof.
  unfold scanImage. destruct s as [|c t]; [discriminate|].
  destruct (ceq "!" c); [|discriminate].
  intros Hl%scanLink_bracket. apply (includes_app_r [c]). done.
Qed.

Lemma includes_suffix (a s t : str) : includes (a ++ s) t = false -> includes s t = false.
Proof.
  intros Hno. destruct (includes s t) eqn:E; [|done].
  by rewrite (includes_app_r a s t E) in Hno.
Qed.

Section Links.
Context `{UrlApi}.

(** X9 (processLinks, convertRelativeImageUrls).  A text in which a
    closing bracket is nowhere followed by an opening parenthesis is left
    unchanged by both passes. *)
Theorem passes_need_bracket (markdown : str) :
  includes markdown (js "](") = false ->
  processLinks markdown = markdown /\ convertRelativeImageUrls markdown = markdown.
Proof.
  intros Hno. split; apply replaceAll_none; intros a s' ->;
    apply includes_suffix in Hno.
  - rewrite matchAt_link. destruct (scanLink s') eqn:E; [|done].
    apply scanLink_bracket in E. congruence.
  - rewrite matchAt_image. destruct (scanImage s') eqn:E; [|done].
    apply scanImage_bracket in E. congruence.
Qed.

Lemma processLinks_hit (text url rest : str) :
  ("]"%char ∉ text) -> (")"%char ∉ url) -> url <> [] ->
  processLinks (plainLink text url ++ rest)
  = match truthy (convertLinkToOutlineTag text url) with
    | Some tag => tag
    | None => plainLink text url
    end ++ processLinks rest.
Proof.
  intros Ht Hu Hne. unfold processLinks.
  rewrite (replaceAll_hit false linkPattern linkReplacer (plainLink text url) rest
                          [(2, url); (1, text)]).
  - done.
  - done.
  - rewrite matchAt_link. by apply scanLink_intro.
Qed.

Lemma processLinks_skip (c : ascii) (s : str) :
  c <> "["%char -> processLinks (c :: s) = c :: processLinks s.
Proof.
  intros Hc. apply replaceAll_miss. rewrite matchAt_link. unfold scanLink.
  by assert (ceq "[" c = false) as -> by (by apply ceq_neq).
Qed.

(** X10 (processLinks).  The link pattern also matches inside an image
    reference: the pass keeps the exclamation mark and rewrites what follows
    as a link.  An image whose URL a provider rule takes is replaced by the
    exclamation mark and the embed tag, and the image pattern does not match
    there any more. *)
Theorem processLinks_in_image (alt url rest : str) :
  ("]"%char ∉ alt) -> (")"%char ∉ url) -> url <> [] ->
  processLinks (imageTag alt url ++ rest)
  = "!"%char :: match truthy (convertLinkToOutlineTag alt url) with
                | Some tag => tag
                | None => plainLink alt url
                end ++ processLinks rest
  /\ (forall provider id,
        convertLinkToOutlineTag alt url = Some (embed provider id) ->
        processLinks (imageTag alt url ++ rest)
        = "!"%char :: embed provider id ++ processLinks rest
        /\ matchAt false imagePattern (processLinks (imageTag alt url ++ rest)) = None).
Proof.
  intros Ht Hu Hne.
  assert (processLinks (imageTag alt url ++ rest)
          = "!"%char :: match truthy (convertLinkToOutlineTag alt url) with
                        | Some tag => tag
                        | None => plainLink alt url
                        end ++ processLinks rest) as Hres.
  { change (imageTag alt url ++ rest) with ("!"%char :: (plainLink alt url ++ rest)).
    rewrite processLinks_skip by done. by rewrite processLinks_hit. }
  split; [done|]. intros provider id Htag. rewrite Hres, Htag. split; [done|].
  by rewrite matchAt_image.
Qed.

Lemma convertLinkToOutlineTag_text (text text' url : str) :
  convertLinkToOutlineTag text url = convertLinkToOutlineTag text' url
  \/ (convertLinkToOutlineTag text url = Some (plainLink text url)
      /\ convertLinkToOutlineTag text' url = Some (plainLink text' url)).
Proof.
  unfold convertLinkToOutlineTag.
  destruct (parseURL url) as [urlObj|]; [|by left].
  repeat match goal with
         | |- context [match rule ?b ?o with _ => _ end] => destruct (rule b o)
         | |- context [if ?b then _ else _] => destruct b
         end; auto.
Qed.

(** X11 (processLinks).  The pass is not idempotent: the tag of a
    provider that is embedded with the whole URL (figma, miro, googlemaps)
    holds a link itself, and a second pass puts another [@] in front of it. *)
Theorem processLinks_twice (text url : str) (provider : string) :
  ("]"%char ∉ text) -> (")"%char ∉ url) -> url <> [] ->
  In provider ["figma"; "miro"; "googlemaps"]%string ->
  convertLinkToOutlineTag text url = Some (embed provider url) ->
  processLinks (plainLink text url) = embed provider url
  /\ processLinks (processLinks (plainLink text url)) = "@"%char :: embed provider url
  /\ processLinks (processLinks (plainLink text url)) <> processLinks (plainLink text url).
Proof.
  intros Ht Hu Hne Hp Htag.
  assert (processLinks (plainLink text url) = embed provider url) as Hone.
  { rewrite processLinks_one, Htag by done. done. }
  assert (convertLinkToOutlineTag (js provider) url = Some (embed provider url)) as Htag'.
  { destruct (convertLinkToOutlineTag_text text (js provider) url) as [<-|[Hplain _]];
      [done|].
    rewrite Htag in Hplain. discriminate. }
  assert ("]"%char ∉ js provider) as Hprov.
  { simpl in Hp. destruct Hp as [<-|[<-|[<-|[]]]]; solve_notin. }
  assert (processLinks (embed provider url) = "@"%char :: embed provider url) as Htwo.
  { change (embed provider url) with ("@"%char :: plainLink (js provider) url).
    rewrite processLinks_skip by done.
    rewrite processLinks_one, Htag' by done. done. }
  rewrite Hone, Htwo. split_and!; [done|done|].
  intros Heq. apply (f_equal length) in Heq. simpl in Heq. lia.
Qed.

End Links.

Lemma passes_need_bracket_witness :
  @processLinks plainApi (js "see [1] and (https://figma.com/file)")
  = js "see [1] and (https://figma.com/file)".
Proof. apply passes_need_bracket. reflexivity. Defined.

Lemma processLinks_in_image_witness :
  @processLinks plainApi (js "![logo](https://figma.com/logo.png) text")
  = js "!@[figma](https://figma.com/logo.png) text".
Proof.
  apply (@processLinks_in_image plainApi (js "logo") (js "https://figma.com/logo.png")
                                (js " text")); [solve_notin|solve_notin|done].
Defined.

Lemma processLinks_twice_witness :
  @processLinks plainApi (@processLinks plainApi (js "[board](https://miro.com/app/board)"))
  = js "@@[miro](https://miro.com/app/board)".
Proof.
  apply (@processLinks_twice plainApi (js "board") (js "https://miro.com/app/board") "miro");
    [solve_notin | solve_notin | done | simpl; tauto | reflexivity].
Defined.

End LinkPassFacts.

(** ** Pipes in table cells *)

Module TableCellFacts.

Import Table TableFacts.

Lemma pipes_join_cells (cells : list str) :
  pipes (join (js " | ") cells) = (length cells - 1) + list_sum (map pipes cells).
Proof.
  induction cells as [|c [|d rest] IH]; [done|simpl; lia|].
  rewrite join_cons, !pipes_app, IH. simpl. change (pipes (js " | ")) with 1. lia.
Qed.

Lemma pipes_tableLine (cells : list str) :
  pipes (tableLine cells) = Nat.max 1 (length cells) + 1 + list_sum (map pipes cells).
Proof.
  unfold tableLine. rewrite !pipes_app, pipes_join_cells.
  change (pipes (js "| ")) with 1. change (pipes (js " |")) with 1.
  change (pipes [LF]) with 0. lia.
Qed.

Lemma pipes_concat (ls : list str) : pipes (concat ls) = list_sum (map pipes ls).
Proof. induction ls as [|l ls IH]; [done|]. simpl. by rewrite pipes_app, IH. Qed.

Lemma pipes_dashes {A} (l : list A) : list_sum (map pipes (map (fun _ => js "---") l)) = 0.
Proof. by induction l. Qed.

(** X12 (convertTableToMarkdown).  Cell texts are copied without
    escaping.  A line has one pipe more than the row has cells (two for a row
    without cells) and the pipes of its cell texts in addition; the pipes of
    the whole output are the sum over its lines, the separator line counting
    as the header without its texts. *)
Theorem convertTableToMarkdown_pipes (first : row) (rest : list row) :
  let cellPipes (r : row) := list_sum (map (fun c => pipes (cellText c)) r) in
  (forall r : row,
     pipes (tableLine (map cellText r)) = Nat.max 1 (length r) + 1 + cellPipes r)
  /\ pipes (convertTableToMarkdown (first :: rest))
     = 2 * (Nat.max 1 (length first) + 1) + cellPipes first
       + list_sum (map (fun r => Nat.max 1 (length r) + 1 + cellPipes r) rest).
Proof.
  intros cellPipes.
  assert (forall r : row,
            pipes (tableLine (map cellText r)) = Nat.max 1 (length r) + 1 + cellPipes r)
    as Hline.
  { intros r. by rewrite pipes_tableLine, length_map, map_map. }
  split; [done|].
  unfold convertTableToMarkdown. rewrite !pipes_app, pipes_concat, map_map, Hline.
  rewrite pipes_tableLine, pipes_dashes, !length_map.
  change (pipes [LF; LF]) with 0. change (pipes [LF]) with 0.
  rewrite map_map, (map_ext _ _ Hline). lia.
Qed.

End TableCellFacts.

(** ** isEmbeddableLink *)

Module EmbeddableFacts.
Import LinkProcessor LinkFacts Samples.

Section Links.
Context `{UrlApi}.

(** X13 (isEmbeddableLink, convertLinkToOutlineTag).  For a URL that
    [isEmbeddableLink] refuses, [convertLinkToOutlineTag] answers [null], the
    plain link, or the Google Maps tag: Google Maps is the one provider that
    is embedded without [isEmbeddableLink] saying so. *)
Theorem isEmbeddableLink_misses_maps (text url : str) :
  isEmbeddableLink url = false ->
  convertLinkToOutlineTag text url = None
  \/ convertLinkToOutlineTag text url = Some (plainLink text url)
  \/ (convertLinkToOutlineTag text url = Some (embed "googlemaps" url)
      /\ exists urlObj, parseURL url = Some urlObj
                        /\ isGoogleMaps (toLowerCase (hostname urlObj)) urlObj = true).
Proof.
  unfold isEmbeddableLink, convertLinkToOutlineTag.
  destruct (parseURL url) as [urlObj|]; [|by left].
  intros Hno. do 6 (apply orb_false_elim in Hno as [Hno ?]).
  rewrite Hno. repeat match goal with Hd : _ = false |- _ => rewrite Hd; clear Hd end.
  rewrite !rule_no_domain.
  destruct (isGoogleMaps _ urlObj) eqn:Hmaps; [|by right; left].
  right; right. split; [done|]. by exists urlObj.
Qed.

End Links.

Lemma isEmbeddableLink_misses_maps_witness :
  @isEmbeddableLink plainApi (js "https://maps.google.com/place") = false
  /\ @convertLinkToOutlineTag plainApi (js "map") (js "https://maps.google.com/place")
     = Some (embed "googlemaps" (js "https://maps.google.com/place")).
Proof.
  split; [reflexivity|].
  destruct (@isEmbeddableLink_misses_maps plainApi (js "map")
              (js "https://maps.google.com/place") eq_refl) as [Hn|[Hp|[Hm _]]];
    [discriminate Hn | discriminate Hp | exact Hm].
Defined.

End EmbeddableFacts.

(** ** Splitting at one code unit *)

Module SplitFacts.

Import ReplaceFacts ImageUrlFacts.

Lemma split_at_first (c : ascii) (p q x y : str) :
  c ∉ p -> c ∉ q -> p ++ c :: x = q ++ c :: y -> p = q /\ x = y.
Proof.
  revert q. induction p as [|a p IH]; intros [|b q] Hp Hq Heq; simpl in Heq.
  - by injection Heq.
  - injection Heq as <- _. by apply not_elem_of_cons in Hq as [? _].
  - injection Heq as -> _. by apply not_elem_of_cons in Hp as [? _].
  - injection Heq as -> Heq.
    apply not_elem_of_cons in Hp as [_ Hp]. apply not_elem_of_cons in Hq as [_ Hq].
    destruct (IH q Hp Hq Heq) as [-> ->]. done.
Qed.

Lemma join_unique (c : ascii) (ns ms : list str) :
  ns <> [] -> ms <> [] ->
  Forall (fun p => c ∉ p) ns -> Forall (fun p => c ∉ p) ms ->
  join [c] ns = join [c] ms -> ns = ms.
Proof.
  revert ms. induction ns as [|p ns IH]; intros ms Hns Hms Hfn Hfm Heq; [done|].
  destruct ms as [|q ms]; [done|].
  apply Forall_cons in Hfn as [Hp Hfn]. apply Forall_cons in Hfm as [Hq Hfm].
  destruct ns as [|p2 ns], ms as [|q2 ms].
  - simpl in Heq. by subst.
  - rewrite join_cons in Heq. simpl in Heq. subst p.
    exfalso. apply Hp. apply elem_of_app. right. left.
  - rewrite join_cons in Heq. simpl in Heq. subst q.
    exfalso. apply Hq. apply elem_of_app. right. left.
  - rewrite !join_cons in Heq. simpl in Heq.
    destruct (split_at_first c p q _ _ Hp Hq Heq) as [-> Heq'].
    f_equal. by apply IH.
Qed.

Lemma split_pieces (c : ascii) (s : str) :
  split [c] s <> [] /\ Forall (fun p => c ∉ p) (split [c] s) /\ join [c] (split [c] s) = s.
Proof.
  split_and!.
  - unfold split. destruct (split_go_cons (S (length s)) [c] [] s) as (p & rest & ->). done.
  - eapply Forall_impl; [by apply (split_free [c] s)|]. intros p. apply includes_char.
  - by apply split_join.
Qed.

Lemma split_unique (c : ascii) (ms : list str) :
  ms <> [] -> Forall (fun p => c ∉ p) ms -> split [c] (join [c] ms) = ms.
Proof.
  intros Hms Hfree.
  destruct (split_pieces c (join [c] ms)) as (Hne & Hf & Hj).
  by apply (join_unique c).
Qed.

Lemma split_first (c : ascii) (p s : str) :
  c ∉ p -> split [c] (p ++ c :: s) = p :: split [c] s.
Proof.
  intros Hp. destruct (split_pieces c s) as (Hne & Hf & Hj).
  rewrite <- Hj at 1.
  rewrite <- (split_unique c (p :: split [c] s)); [|done|by constructor].
  f_equal. by rewrite join_more.
Qed.

Lemma split_whole (c : ascii) (p : str) : c ∉ p -> split [c] p = [p].
Proof. intros Hp. apply (split_unique c [p]); [done|by constructor]. Qed.

End SplitFacts.

(** ** normalizePath *)

Module PathFacts.

Import ContentExtractor SplitFacts ReplaceFacts.

Lemma normalizeStep_kept (normalized : list str) (part : str) :
  ("/"%char ∉ part) -> Forall kept normalized -> Forall kept (normalizeStep normalized part).
Proof.
  intros Hpart Hn. unfold normalizeStep.
  destruct (str_eqb part (js "..")) eqn:H1.
  - induction Hn as [|x [|y l] Hx Hl IH]; simpl; auto.
  - destruct (str_eqb part (js ".")) eqn:H2; [done|].
    destruct (str_eqb part []) eqn:H3; [done|]. simpl.
    apply Forall_app. split; [done|]. repeat constructor.
    all: try by apply str_eqb_neq. done.
Qed.

Lemma fold_kept (parts normalized : list str) :
  Forall (fun p => "/"%char ∉ p) parts -> Forall kept normalized ->
  Forall kept (fold_left normalizeStep parts normalized).
Proof.
  intros Hparts. revert normalized.
  induction Hparts as [|part parts Hp _ IH]; intros normalized Hn; simpl; [done|].
  apply IH. by apply normalizeStep_kept.
Qed.

Lemma fold_all_kept (parts normalized : list str) :
  Forall kept parts -> fold_left normalizeStep parts normalized = normalized ++ parts.
Proof.
  intros Hparts. revert normalized.
  induction Hparts as [|part parts (H1 & H2 & H3 & _) _ IH]; intros normalized; simpl.
  - by rewrite app_nil_r.
  - rewrite IH. unfold normalizeStep.
    apply str_eqb_neq in H1, H2, H3. rewrite H1, H2, H3. simpl.
    by rewrite <- app_assoc.
Qed.

Lemma normalizePath_parts (path : str) :
  Forall kept (fold_left normalizeStep (split (js "/") path) []).
Proof.
  apply fold_kept; [|done].
  by destruct (split_pieces "/" path) as (_ & Hf & _).
Qed.

Lemma split_root (path : str) :
  split (js "/") (js "/" ++ path) = [] :: split (js "/") path.
Proof. apply (split_first "/" [] path). apply not_elem_of_nil. Qed.

Lemma split_parent (path : str) :
  split (js "/") (js "../" ++ path) = js ".." :: split (js "/") path.
Proof. apply (split_first "/" (js "..") path). solve_notin. Qed.

(** X14 (normalizePath).  The result is in normal form: normalizing it
    again changes nothing, and when it is not empty none of its parts is the
    empty string, one dot or two dots.  A leading slash is dropped, and so is
    a leading [../]: the path cannot climb above its top. *)
Theorem normalizePath_normal (path : str) :
  normalizePath (normalizePath path) = normalizePath path
  /\ (normalizePath path = []
      \/ Forall (fun part => part <> [] /\ part <> js "." /\ part <> js "..")
                (split (js "/") (normalizePath path)))
  /\ normalizePath (js "/" ++ path) = normalizePath path
  /\ normalizePath (js "../" ++ path) = normalizePath path.
Proof.
  pose proof (normalizePath_parts path) as Hkept.
  unfold normalizePath.
  destruct (fold_left normalizeStep (split (js "/") path) []) as [|p parts] eqn:Hparts.
  - split_and!; [done|by left| |].
    + rewrite split_root. cbn [fold_left].
      change (normalizeStep [] []) with (@nil str). by rewrite Hparts.
    + rewrite split_parent. cbn [fold_left].
      change (normalizeStep [] (js "..")) with (@nil str). by rewrite Hparts.
  - assert (split (js "/") (join (js "/") (p :: parts)) = p :: parts) as Hsplit.
    { apply (split_unique "/"); [done|].
      eapply Forall_impl; [exact Hkept|]. by intros x (_ & _ & _ & ?). }
    split_and!.
    + rewrite Hsplit. by rewrite fold_all_kept.
    + right. rewrite Hsplit. eapply Forall_impl; [exact Hkept|].
      intros x (? & ? & ? & _). done.
    + rewrite split_root. cbn [fold_left].
      change (normalizeStep [] []) with (@nil str). by rewrite Hparts.
    + rewrite split_parent. cbn [fold_left].
      change (normalizeStep [] (js "..")) with (@nil str). by rewrite Hparts.
Qed.

End PathFacts.

(** ** parseSrcset *)

Module SrcsetFacts.

Import ContentExtractor SplitFacts ReplaceFacts.

Lemma trimStart_Forall (P : ascii -> Prop) (s : str) : Forall P s -> Forall P (trimStart s).
Proof.
  induction 1 as [|c s Hc Hs IH]; simpl; [done|].
  destruct (isWhiteSpace c); [done|by constructor].
Qed.

Lemma trim_Forall (P : ascii -> Prop) (s : str) : Forall P s -> Forall P (trim s).
Proof.
  intros Hs. unfold trim, trimEnd.
  apply Forall_rev, trimStart_Forall, Forall_rev, trimStart_Forall, Hs.
Qed.

Lemma trimStart_clean (s : str) :
  Forall (fun c => isWhiteSpace c = false) s -> trimStart s = s.
Proof. destruct 1 as [|c s Hc Hs]; simpl; [done|]. by rewrite Hc. Qed.

Lemma trim_clean (s : str) : Forall (fun c => isWhiteSpace c = false) s -> trim s = s.
Proof.
  intros Hs. unfold trim, trimEnd. rewrite (trimStart_clean s Hs).
  rewrite trimStart_clean by by apply Forall_rev. apply rev_involutive.
Qed.

Lemma split_head_Forall (P : ascii -> Prop) (c : ascii) (s : str) :
  Forall P s -> Forall P (hd [] (split [c] s)).
Proof.
  intros Hs. destruct (split_pieces c s) as (Hne & _ & Hj).
  destruct (split [c] s) as [|p [|q rest]]; [done| |].
  - simpl in *. by subst.
  - rewrite join_cons in Hj. rewrite <- Hj in Hs. simpl.
    by apply Forall_app in Hs as [? _].
Qed.

Lemma split_head_free (c : ascii) (s : str) : c ∉ hd [] (split [c] s).
Proof.
  destruct (split_pieces c s) as (Hne & Hf & _).
  destruct (split [c] s) as [|p rest]; [done|]. by apply Forall_cons in Hf as [? _].
Qed.

Lemma notin_Forall (c : ascii) (s : str) : c ∉ s <-> Forall (fun x => x <> c) s.
Proof.
  rewrite Forall_forall. split.
  - intros Hs x Hx ->. done.
  - intros Hs Hc. by apply (Hs c).
Qed.

(** X15 (parseSrcset).  No candidate that is returned is empty or holds
    a comma or a blank.  The text is cut at every comma: a first candidate
    without white space and comma is returned as it is, followed by the
    candidates of what follows its comma. *)
Theorem parseSrcset_urls (srcset : str) :
  Forall (fun url => url <> [] /\ (","%char ∉ url) /\ (" "%char ∉ url)) (parseSrcset srcset)
  /\ (forall url rest,
        url <> [] ->
        Forall (fun c => isWhiteSpace c = false /\ c <> ","%char) url ->
        parseSrcset (url ++ js "," ++ rest) = url :: parseSrcset rest).
Proof.
  split.
  - unfold parseSrcset. apply Forall_forall. intros url Hin.
    apply list_elem_of_In, filter_In in Hin as [Hin Hne].
    apply in_map_iff in Hin as (src & <- & Hsrc).
    split_and!.
    + by destruct (hd [] (split (js " ") (trim src))).
    + apply notin_Forall, (split_head_Forall _ " "), trim_Forall, notin_Forall.
      destruct (split_pieces "," srcset) as (_ & Hf & _).
      rewrite Forall_forall in Hf. apply Hf. by apply list_elem_of_In.
    + apply (split_head_free " ").
  - intros url rest Hne Hurl. unfold parseSrcset.
    assert (split (js ",") (url ++ js "," ++ rest) = url :: split (js ",") rest) as ->.
    { apply (split_first "," url rest).
      apply notin_Forall. eapply Forall_impl; [exact Hurl|]. by intros c [_ ?]. }
    cbn [map]. rewrite trim_clean by (eapply Forall_impl; [exact Hurl|]; by intros c [? _]).
    assert (split (js " ") url = [url]) as ->.
    { apply (split_whole " " url).
      apply notin_Forall. eapply Forall_impl; [exact Hurl|]. intros c [Hw _] ->. done. }
    simpl. by destruct url.
Qed.

End SrcsetFacts.

(** ** hashCode *)

Module HashFacts.

Import Hashing.
Open Scope Z_scope.

Lemma toInt32_range (z : Z) : - 2 ^ 31 <= toInt32 z < 2 ^ 31.
Proof. unfold toInt32. pose proof (Z.mod_pos_bound (z + 2 ^ 31) (2 ^ 32)). lia. Qed.

Lemma toInt32_shift (z k : Z) : toInt32 (z + k * 2 ^ 32) = toInt32 z.
Proof.
  unfold toInt32. replace (z + k * 2 ^ 32 + 2 ^ 31) with (z + 2 ^ 31 + k * 2 ^ 32) by lia.
  by rewrite Z_mod_plus_full.
Qed.

Lemma toInt32_rep (z : Z) : exists k, toInt32 z = z + k * 2 ^ 32.
Proof.
  exists (- ((z + 2 ^ 31) / 2 ^ 32)). unfold toInt32.
  pose proof (Z.div_mod (z + 2 ^ 31) (2 ^ 32)). lia.
Qed.

Lemma hashStep_poly (x c : Z) : hashStep (toInt32 x) c = toInt32 (31 * x + c).
Proof.
  unfold hashStep. rewrite Z.land_diag, Z.shiftl_mul_pow2 by lia.
  destruct (toInt32_rep x) as [k1 H1].
  destruct (toInt32_rep (toInt32 x)) as [k0 H0].
  destruct (toInt32_rep (toInt32 (toInt32 x) * 2 ^ 5)) as [k2 H2].
  rewrite H2, H0, H1.
  replace ((x + k1 * 2 ^ 32 + k0 * 2 ^ 32) * 2 ^ 5 + k2 * 2 ^ 32 - (x + k1 * 2 ^ 32) + c)
    with (31 * x + c + (32 * k1 + 32 * k0 + k2 - k1) * 2 ^ 32) by lia.
  apply toInt32_shift.
Qed.

Lemma hashCode_from (codes : list Z) (x : Z) :
  fold_left hashStep codes (toInt32 x)
  = toInt32 (fold_left (fun h c => 31 * h + c) codes x).
Proof.
  revert x. induction codes as [|c codes IH]; intros x; simpl; [done|].
  by rewrite hashStep_poly, IH.
Qed.

(** X16 (hashCode, getDefaultEmoji).  [hashCode] is the polynomial hash
    with factor 31, taken into the signed 32-bit range; and [getDefaultEmoji]
    finds an emoji for every identifier: the index is inside the array. *)
Theorem hashCode_wraps (codes identifier : list Z) :
  hashCode codes = toInt32 (fold_left (fun h c => 31 * h + c) codes 0)
  /\ - 2 ^ 31 <= hashCode codes < 2 ^ 31
  /\ exists emoji, getDefaultEmoji identifier = Some emoji /\ emoji ∈ defaultEmojis.
Proof.
  assert (forall l, hashCode l = toInt32 (fold_left (fun h c => 31 * h + c) l 0)) as Hpoly.
  { intros l. unfold hashCode. change 0 with (toInt32 0) at 1. apply hashCode_from. }
  split; [|split].
  - apply Hpoly.
  - rewrite Hpoly. apply toInt32_range.
  - unfold getDefaultEmoji.
    set (name := match identifier with [] => fallbackIdentifier | _ :: _ => identifier end).
    pose proof (Z.rem_bound_pos (Z.abs (hashCode name)) (Z.of_nat (length defaultEmojis))
                  (Z.abs_nonneg _) eq_refl) as Hidx.
    assert (is_Some (defaultEmojis !! Z.to_nat (Z.rem (Z.abs (hashCode name))
                                                      (Z.of_nat (length defaultEmojis)))))
      as [emoji Hemoji] by (apply lookup_lt_is_Some_2; lia).
    exists emoji. split; [done|]. by eapply list_elem_of_lookup_2.
Qed.

End HashFacts.

(** ** getEmojiFromColor *)

Module ColorFacts.

Import Colors.

Lemma lookupColor_values (key : str) (emoji : N) :
  lookupColor colorMap key = Some emoji ->
  emoji ∈ [GREEN; BLUE; RED; ORANGE; YELLOW; PURPLE; BLACK].
Proof.
  unfold colorMap. simpl.
  repeat match goal with
         | |- context [str_eqb ?k key] => destruct (str_eqb k key)
         end;
    intros [= <-]; apply (bool_decide_unpack _); vm_compute; exact I.
Qed.

Ltac numbers :=
  rewrite ?andb_true_iff, ?andb_false_iff, ?Z.eqb_eq, ?Z.eqb_neq, ?Z.ltb_lt, ?Z.ltb_ge in *;
  lia.

(** X17 (getEmojiFromColor).  For a colour outside the table the
    estimate never answers yellow.  When the three components read as
    numbers it answers neither purple nor orange; it answers [null] exactly
    when no component is above 150 or the text is not [#] and six code units,
    and red exactly when red is above 150 and no component is larger. *)
Theorem getEmojiFromColor_estimate (color : str) :
  lookupColor colorMap (toUpperCase color) = None ->
  getEmojiFromColor color <> Some YELLOW
  /\ (forall r g b,
        parseInt16 (slice 1 3 color) = Some r ->
        parseInt16 (slice 3 5 color) = Some g ->
        parseInt16 (slice 5 7 color) = Some b ->
        getEmojiFromColor color <> Some PURPLE
        /\ getEmojiFromColor color <> Some ORANGE
        /\ (getEmojiFromColor color = None
            <-> (Z.max r (Z.max g b) <= 150)%Z
                \/ startsWith (js "#") color && (length color =? 7) = false)
        /\ (getEmojiFromColor color = Some RED
            <-> (150 < r)%Z /\ (g <= r)%Z /\ (b <= r)%Z
                /\ startsWith (js "#") color && (length color =? 7) = true)).
Proof.
  intros Hmap. unfold getEmojiFromColor. rewrite Hmap.
  destruct (startsWith (js "#") color && (length color =? 7)) eqn:Hshape.
  - split.
    + destruct (parseInt16 (slice 1 3 color)) as [r|], (parseInt16 (slice 3 5 color)) as [g|],
        (parseInt16 (slice 5 7 color)) as [b|]; simpl; rewrite ?andb_false_r; simpl;
        repeat match goal with
               | |- context [if ?c then _ else _] => destruct c eqn:?
               end; try discriminate; numbers.
    + intros r g b -> -> ->. simpl.
      repeat match goal with
             | |- context [if ?c then _ else _] => destruct c eqn:?
             end;
        (split; [|split; [|split]];
        [ first [discriminate | intros _; exfalso; numbers]
        | first [discriminate | intros _; exfalso; numbers]
        | split;
          [ intros HH; try discriminate HH; left; numbers
          | intros [HH|HH]; try discriminate HH; try done; exfalso; numbers ]
        | split;
          [ intros HH; try discriminate HH; (split; [|split; [|split]]); try done; numbers
          | intros (? & ? & ? & _); try done; exfalso; numbers ] ]).
  - split; [done|]. intros r g b _ _ _. split_and!; try done.
    + split; [by right|done].
    + split; [done|]. by intros (_ & _ & _ & ?).
Qed.

Lemma getEmojiFromColor_estimate_witness :
  getEmojiFromColor (js "#FFFF00") = Some RED
  /\ getEmojiFromColor (js "#FFFF00") <> Some YELLOW.
Proof.
  destruct (getEmojiFromColor_estimate (js "#FFFF00") eq_refl) as [Hyellow Hrgb].
  destruct (Hrgb 255%Z 255%Z 0%Z eq_refl eq_refl eq_refl) as (_ & _ & _ & Hred).
  split; [|exact Hyellow]. apply Hred. repeat split; lia.
Defined.

End ColorFacts.

(** ** buildDocumentTree *)

Module DocumentFacts.

Import Documents.

Lemma indexAll_bound (documents : list Document) (i : nat) (m : gmap str nat)
      (p : str) (j : nat) :
  indexAll i documents m !! p = Some j ->
  m !! p = Some j \/ i <= j < i + length documents.
Proof.
  revert i m. induction documents as [|doc rest IH]; intros i m Hj; simpl in *; [by left|].
  apply IH in Hj as [Hj|Hj]; [|right; lia].
  destruct (decide (docId doc = p)) as [<-|Hne].
  - rewrite lookup_insert_eq in Hj. injection Hj as <-. right. lia.
  - rewrite lookup_insert_ne in Hj by done. by left.
Qed.

Lemma indexAll_keeps (documents : list Document) (i : nat) (m : gmap str nat) (p : str) :
  is_Some (m !! p) -> is_Some (indexAll i documents m !! p).
Proof.
  revert i m. induction documents as [|doc rest IH]; intros i m Hp; simpl; [done|].
  apply IH. destruct (decide (docId doc = p)) as [<-|Hne].
  - by rewrite lookup_insert_eq.
  - by rewrite lookup_insert_ne.
Qed.

Lemma indexAll_has (documents : list Document) (i : nat) (m : gmap str nat) (doc : Document) :
  doc ∈ documents -> is_Some (indexAll i documents m !! docId doc).
Proof.
  revert i m. induction documents as [|d rest IH]; intros i m Hin; [by apply elem_of_nil in Hin|].
  simpl. apply elem_of_cons in Hin as [->|Hin]; [|by apply IH].
  apply indexAll_keeps. by rewrite lookup_insert_eq.
Qed.

Lemma concat_alter (cs : list (list nat)) (j i : nat) :
  j < length cs -> concat (alter (fun c => c ++ [i]) j cs) ≡ₚ concat cs ++ [i].
Proof.
  revert j. induction cs as [|c cs IH]; intros j Hj; simpl in Hj; [lia|].
  destruct j as [|j]; simpl.
  - rewrite <- !app_assoc. apply Permutation_app_head. apply Permutation_app_comm.
  - rewrite <- app_assoc. apply Permutation_app_head. apply IH. lia.
Qed.

Lemma concat_replicate_nil (n : nat) : concat (replicate n (@nil nat)) = [].
Proof. by induction n. Qed.

Lemma placeAll_partition (m : gmap str nat) (documents : list Document) (i : nat) (t : Tree) :
  (forall p j, m !! p = Some j -> j < length (children t)) ->
  length (children (placeAll m i documents t)) = length (children t)
  /\ rootDocuments (placeAll m i documents t) ++ concat (children (placeAll m i documents t))
     ≡ₚ (rootDocuments t ++ concat (children t)) ++ seq i (length documents).
Proof.
  revert i t. induction documents as [|doc rest IH]; intros i t Hm; simpl.
  - by rewrite app_nil_r.
  - unfold place. destruct (parentOf m doc) as [parent|] eqn:Hp.
    + assert (parent < length (children t)) as Hlt.
      { unfold parentOf in Hp. destruct (truthy (parentDocumentId doc)); [|done].
        by apply (Hm _ _ Hp). }
      destruct (IH (S i) (mkTree (rootDocuments t)
                                 (alter (fun c => c ++ [i]) parent (children t))))
        as [Hlen Hperm].
      { simpl. intros p j Hj. rewrite length_alter. by apply (Hm p). }
      simpl in *. rewrite length_alter in Hlen. split; [done|].
      rewrite Hperm, concat_alter by done.
      rewrite <- !app_assoc. done.
    + destruct (IH (S i) (mkTree (rootDocuments t ++ [i]) (children t))) as [Hlen Hperm];
        [done|].
      simpl in *. split; [done|]. rewrite Hperm.
      rewrite <- !app_assoc. apply Permutation_app_head.
      rewrite (app_assoc [i]). rewrite (Permutation_app_comm [i]).
      by rewrite <- app_assoc.
Qed.

Lemma placeAll_roots (m : gmap str nat) (documents : list Document) (i : nat) (t : Tree)
      (x : nat) :
  x ∈ rootDocuments (placeAll m i documents t)
  <-> x ∈ rootDocuments t
      \/ exists doc, i <= x /\ documents !! (x - i) = Some doc /\ parentOf m doc = None.
Proof.
  revert i t. induction documents as [|doc rest IH]; intros i t; simpl.
  - split; [by left|]. intros [?|(doc & _ & Hd & _)]; [done|]. by rewrite lookup_nil in Hd.
  - rewrite IH. unfold place. split.
    + intros [Hx|(d & Hle & Hd & Hp)].
      * destruct (parentOf m doc) eqn:Hp; simpl in Hx; [by left|].
        apply elem_of_app in Hx as [Hx|Hx]; [by left|].
        apply list_elem_of_singleton in Hx as ->. right. exists doc.
        by rewrite Nat.sub_diag.
      * right. exists d. split_and!; [lia| |done].
        replace (x - i) with (S (x - S i)) by lia. done.
    + intros [Hx|(d & Hle & Hd & Hp)].
      * left. destruct (parentOf m doc); simpl; [done|]. apply elem_of_app. by left.
      * destruct (decide (x = i)) as [->|Hne].
        -- rewrite Nat.sub_diag in Hd. injection Hd as ->. rewrite Hp. simpl.
           left. apply elem_of_app. right. by apply list_elem_of_singleton.
        -- right. exists d. split_and!; [lia| |done].
           replace (x - i) with (S (x - S i)) in Hd by lia. done.
Qed.

(** X18 (buildDocumentTree).  Every document is placed once: the roots
    and the [children] arrays together hold every position of the input
    exactly once.  The roots are the documents without a parent id or with
    one that no document has, and a document that names itself as its parent
    is not a root. *)
Theorem buildDocumentTree_partition (documents : list Document) :
  let t := buildDocumentTree documents in
  let documentMap := indexAll 0 documents ∅ in
  length (children t) = length documents
  /\ rootDocuments t ++ concat (children t) ≡ₚ seq 0 (length documents)
  /\ (forall i, i ∈ rootDocuments t
                <-> exists doc, documents !! i = Some doc /\ parentOf documentMap doc = None)
  /\ (forall i doc, documents !! i = Some doc ->
                    docId doc <> [] -> parentDocumentId doc = Some (docId doc) ->
                    i ∉ rootDocuments t).
Proof.
  intros t documentMap.
  assert (forall i, i ∈ rootDocuments t
                    <-> exists doc, documents !! i = Some doc /\ parentOf documentMap doc = None)
    as Hroots.
  { intros i. unfold t, buildDocumentTree. rewrite placeAll_roots. simpl. split.
    - intros [Hi|(doc & _ & Hd & Hp)]; [by apply elem_of_nil in Hi|].
      rewrite Nat.sub_0_r in Hd. by exists doc.
    - intros (doc & Hd & Hp). right. exists doc. rewrite Nat.sub_0_r.
      split_and!; [lia|done|done]. }
  destruct (placeAll_partition documentMap documents 0
              (mkTree [] (replicate (length documents) []))) as [Hlen Hperm].
  { simpl. intros p j Hj. rewrite length_replicate.
    apply indexAll_bound in Hj as [Hj|Hj]; [by rewrite lookup_empty in Hj|lia]. }
  simpl in Hlen, Hperm. rewrite length_replicate in Hlen.
  split_and!.
  - unfold t, buildDocumentTree. by fold documentMap.
  - unfold t, buildDocumentTree. fold documentMap. rewrite Hperm.
    by rewrite concat_replicate_nil.
  - done.
  - intros i doc Hd Hid Hself Hroot.
    apply Hroots in Hroot as (doc' & Hd' & Hp).
    rewrite Hd in Hd'. injection Hd' as <-.
    unfold parentOf in Hp. rewrite Hself in Hp.
    destruct (docId doc) as [|c s] eqn:Hdoc; [done|]. simpl in Hp.
    assert (is_Some (documentMap !! docId doc)) as [j Hj].
    { apply indexAll_has. by eapply list_elem_of_lookup_2. }
    rewrite Hdoc in Hj. congruence.
Qed.

End DocumentFacts.

(** ** Recent clips *)

Module ClipFacts.

Import ConfigStorage.

Section Clips.
Context {Clip Time : Type}.

Lemma take_cons_take (x : @RecentClip Clip Time) (l : list RecentClip) :
  take 10 (x :: take 10 l) = take 10 (x :: l).
Proof. simpl. f_equal. rewrite take_take. done. Qed.

(** X19 (addRecentClip).  After one or more calls the stored list has
    at most ten clips, the latest first: it is the first ten of the new
    clips, latest first, followed by what was stored. *)
Theorem addRecentClips_latest (call : Time * Clip) (calls : list (Time * Clip))
        (stored : option (list (@RecentClip Clip Time))) :
  let entry (c : Time * Clip) := mkRecentClip c.2 c.1 in
  let after := getRecentClips (addRecentClips (calls ++ [call]) stored) in
  after = take 10 (entry call :: rev (map entry calls) ++ getRecentClips stored)
  /\ length after <= 10
  /\ head after = Some (entry call).
Proof.
  intros entry after.
  assert (after = take 10 (entry call :: rev (map entry calls) ++ getRecentClips stored))
    as Hafter.
  { unfold after, addRecentClips. clear after. revert call.
    induction calls as [|c calls IH] using rev_ind; intros call.
    - done.
    - rewrite fold_left_app. cbn [fold_left]. unfold addRecentClip at 1.
      cbn [getRecentClips default from_option id].
      fold (addRecentClips (calls ++ [c]) stored).
      unfold addRecentClips. rewrite (IH c).
      rewrite take_cons_take, map_app, rev_app_distr. done. }
  split_and!; [done| |].
  - rewrite Hafter, length_take. lia.
  - by rewrite Hafter.
Qed.

End Clips.

End ClipFacts.

(** ** The file request of uploadImage *)

Module FilePostFacts.

Import OutlineClient UploadFacts Samples.

Lemma uploadBlob_posts (w : World) (a : Attempt) (size : N) (mime : str)
      (evs : list NetEvent) (target : str) (authorized presigned : bool) :
  FilePost target authorized presigned ∈ (uploadBlob w a size mime evs).2 ->
  FilePost target authorized presigned ∈ evs
  \/ exists status data,
       slot a = AxiosResolved status (Some data)
       /\ authorized = includes (uploadUrl data) (js "/api/")
       /\ presigned = match form data with [] => false | _ :: _ => true end
       /\ target = if startsWith (js "http") (uploadUrl data) then uploadUrl data
                   else if startsWith (js "/") (uploadUrl data)
                        then apiUrl w ++ uploadUrl data
                        else apiUrl w ++ js "/" ++ uploadUrl data.
Proof.
  unfold uploadBlob.
  destruct (maxBlobSize <? size)%N; [by left|].
  destruct (negb (startsWith (js "image/") (cleanMime mime))); [by left|].
  assert (forall l, FilePost target authorized presigned
                    ∈ (evs ++ [AttachmentsCreate (cleanMime mime) size]) ++ l ->
                    FilePost target authorized presigned ∈ evs
                    \/ FilePost target authorized presigned ∈ l) as Hsplit.
  { intros l Hin. apply elem_of_app in Hin as [Hin|Hin]; [|by right].
    apply elem_of_app in Hin as [Hin|Hin]; [by left|].
    apply list_elem_of_singleton in Hin. discriminate. }
  assert (FilePost target authorized presigned
          ∈ evs ++ [AttachmentsCreate (cleanMime mime) size] ->
          FilePost target authorized presigned ∈ evs) as Hnone.
  { intros Hin. rewrite <- (app_nil_r (_ ++ [_])) in Hin.
    apply Hsplit in Hin as [Hin|Hin]; [done|]. by apply elem_of_nil in Hin. }
  destruct (slot a) as [st|status [data|]] eqn:Hslot; cbn [snd]; [by left; auto| |by left; auto].
  intros Hin.
  assert (FilePost target authorized presigned
          ∈ (evs ++ [AttachmentsCreate (cleanMime mime) size])
            ++ [FilePost (if startsWith (js "http") (uploadUrl data) then uploadUrl data
                          else if startsWith (js "/") (uploadUrl data)
                               then apiUrl w ++ uploadUrl data
                               else apiUrl w ++ js "/" ++ uploadUrl data)
                         (includes (uploadUrl data) (js "/api/"))
                         (match form data with [] => false | _ :: _ => true end)]) as Hin'.
  { destruct (submit a) as [st'|status' []]; [exact Hin|].
    destruct (negb (acceptedStatus status')); [exact Hin|].
    destruct (attachment data); exact Hin. }
  apply Hsplit in Hin' as [Hin'|Hin']; [by left|]. right.
  apply list_elem_of_singleton in Hin'. injection Hin' as -> -> ->.
  by exists status, data.
Qed.

Lemma attemptUpload_posts (w : World) (a : Attempt) (imageUrl : str)
      (target : str) (authorized presigned : bool) :
  FilePost target authorized presigned ∈ (attemptUpload w a imageUrl).2 ->
  exists status data,
    slot a = AxiosResolved status (Some data)
    /\ authorized = includes (uploadUrl data) (js "/api/")
    /\ presigned = match form data with [] => false | _ :: _ => true end
    /\ target = if startsWith (js "http") (uploadUrl data) then uploadUrl data
                else if startsWith (js "/") (uploadUrl data)
                     then apiUrl w ++ uploadUrl data
                     else apiUrl w ++ js "/" ++ uploadUrl data.
Proof.
  unfold attemptUpload.
  destruct (startsWith (js "data:") imageUrl).
  - destruct (atobLength w _); [|by intros Hin; apply elem_of_nil in Hin].
    intros [Hin|Hin]%uploadBlob_posts; [by apply elem_of_nil in Hin|done].
  - assert (FilePost target authorized presigned ∉ [Fetch imageUrl]) as Hfetch.
    { intros Hin. apply list_elem_of_singleton in Hin. discriminate. }
    destruct (download a) as [|status size ct]; [done|].
    destruct (ok status); [|done].
    intros [Hin|Hin]%uploadBlob_posts; done.
Qed.

Lemma uploadImage_left_next (w : World) (imageUrl : str) (left retryCount n : nat) :
  n < next (uploadImage_left left w imageUrl retryCount n).
Proof.
  revert retryCount n. induction left as [|left IH]; intros retryCount n; simpl;
    unfold uploadImage_body;
    destruct (attemptUpload w (answers w n) imageUrl) as [[v|e] evs];
    try (cbn [next]; lia);
    (destruct (is401 e); [cbn [next]; lia|]);
    (destruct (is429 e && (retryCount <? maxRetries)); [|cbn [next]; lia]); cbn [next].
  - lia.
  - specialize (IH (S retryCount) (S n)). lia.
Qed.

Lemma uploadImage_left_posts (w : World) (imageUrl : str) (left retryCount n : nat)
      (target : str) (authorized presigned : bool) :
  FilePost target authorized presigned ∈ net (uploadImage_left left w imageUrl retryCount n) ->
  exists m status data,
    n <= m < next (uploadImage_left left w imageUrl retryCount n)
    /\ slot (answers w m) = AxiosResolved status (Some data)
    /\ authorized = includes (uploadUrl data) (js "/api/")
    /\ presigned = match form data with [] => false | _ :: _ => true end
    /\ target = if startsWith (js "http") (uploadUrl data) then uploadUrl data
                else if startsWith (js "/") (uploadUrl data)
                     then apiUrl w ++ uploadUrl data
                     else apiUrl w ++ js "/" ++ uploadUrl data.
Proof.
  revert retryCount n. induction left as [|left IH]; intros retryCount n; simpl;
    unfold uploadImage_body;
    pose proof (attemptUpload_posts w (answers w n) imageUrl target authorized presigned)
      as Hhere;
    destruct (attemptUpload w (answers w n) imageUrl) as [c evs]; cbn [snd] in Hhere.
  all: assert (FilePost target authorized presigned ∈ evs ->
               forall k, n < k ->
               exists m status data,
                 n <= m < k
                 /\ slot (answers w m) = AxiosResolved status (Some data)
                 /\ authorized = includes (uploadUrl data) (js "/api/")
                 /\ presigned = match form data with [] => false | _ :: _ => true end
                 /\ target = if startsWith (js "http") (uploadUrl data) then uploadUrl data
                             else if startsWith (js "/") (uploadUrl data)
                                  then apiUrl w ++ uploadUrl data
                                  else apiUrl w ++ js "/" ++ uploadUrl data) as Hnow
      by (intros Hin k Hk; destruct (Hhere Hin) as (status & data & ?);
          exists n, status, data; split; [lia|done]).
  - destruct c as [v|e]; [|destruct (is401 e)]; [| |destruct (is429 e && (retryCount <? maxRetries))];
      cbn [net next]; intros Hin; try (apply Hnow; [done|lia]).
    apply elem_of_app in Hin as [Hin|Hin]; [apply Hnow; [done|lia]|].
    apply elem_of_cons in Hin as [Hin|Hin]; [discriminate|]. by apply elem_of_nil in Hin.
  - destruct c as [v|e]; [|destruct (is401 e)]; [| |destruct (is429 e && (retryCount <? maxRetries))];
      cbn [net next]; intros Hin; try (apply Hnow; [done|lia]).
    pose proof (uploadImage_left_next w imageUrl left (S retryCount) (S n)) as Hnext.
    apply elem_of_app in Hin as [Hin|Hin]; [apply Hnow; [done|lia]|].
    apply elem_of_cons in Hin as [Hin|Hin]; [discriminate|].
    destruct (IH (S retryCount) (S n) Hin) as (m & status & data & Hm & ?).
    exists m, status, data. split; [lia|done].
Qed.

(** X20 (uploadImage).  Every file request goes to the upload URL that
    an [attachments.create] answer of the same call named: as it is when it
    starts with [http], else below the API URL.  It carries the API token
    exactly when that upload URL contains [/api/], on whatever host, and it
    is presigned exactly when the answer had form fields. *)
Theorem uploadImage_file_posts (w : World) (imageUrl : str) (retryCount n : nat)
        (target : str) (authorized presigned : bool) :
  FilePost target authorized presigned ∈ net (uploadImage w imageUrl retryCount n) ->
  exists m status data,
    n <= m < next (uploadImage w imageUrl retryCount n)
    /\ slot (answers w m) = AxiosResolved status (Some data)
    /\ authorized = includes (uploadUrl data) (js "/api/")
    /\ presigned = match form data with [] => false | _ :: _ => true end
    /\ target = if startsWith (js "http") (uploadUrl data) then uploadUrl data
                else if startsWith (js "/") (uploadUrl data)
                     then apiUrl w ++ uploadUrl data
                     else apiUrl w ++ js "/" ++ uploadUrl data.
Proof. apply uploadImage_left_posts. Qed.

Lemma uploadImage_file_posts_witness :
  FilePost (js "https://files.example/api/put") true false
    ∈ net (uploadImage world_elsewhere photo 0 0)
  /\ exists m status data,
       0 <= m < next (uploadImage world_elsewhere photo 0 0)
       /\ slot (answers world_elsewhere m) = AxiosResolved status (Some data)
       /\ true = includes (uploadUrl data) (js "/api/")
       /\ false = match form data with [] => false | _ :: _ => true end
       /\ js "https://files.example/api/put"
          = if startsWith (js "http") (uploadUrl data) then uploadUrl data
            else if startsWith (js "/") (uploadUrl data)
                 then apiUrl world_elsewhere ++ uploadUrl data
                 else apiUrl world_elsewhere ++ js "/" ++ uploadUrl data.
Proof.
  assert (FilePost (js "https://files.example/api/put") true false
            ∈ net (uploadImage world_elsewhere photo 0 0)) as Hin.
  { vm_compute. do 2 apply list_elem_of_further. apply list_elem_of_here. }
  split; [exact Hin|]. exact (uploadImage_file_posts _ _ _ _ _ _ _ Hin).
Defined.

End FilePostFacts.

(** ** Replacing a URL that occurs once *)

Module SplitOnceFacts.

Import ReplaceFacts.

Lemma split_go_fuel (sep : str) (fuel fuel' : nat) (acc s : str) :
  sep <> [] -> length s < fuel -> length s < fuel' ->
  split_go fuel sep acc s = split_go fuel' sep acc s.
Proof.
  intros Hsep. revert fuel' acc s.
  induction fuel as [|fuel IH]; intros fuel' acc s H1 H2; [lia|].
  destruct fuel' as [|fuel']; [lia|]. simpl.
  destruct s as [|c s]; [done|].
  assert (0 < length sep) by (destruct sep; [done|simpl; lia]).
  destruct (startsWith sep (c :: s)).
  - f_equal. apply IH; rewrite length_drop; simpl in *; lia.
  - apply IH; simpl in *; lia.
Qed.

Lemma startsWith_short (p a b : str) :
  startsWith p (a ++ b) = true -> length p <= length a -> startsWith p a = true.
Proof.
  revert a. induction p as [|x p IH]; intros a Hs Hlen; [done|].
  destruct a as [|y a]; simpl in *; [lia|].
  apply andb_true_iff in Hs as [-> Hs]. simpl. apply (IH a Hs). lia.
Qed.

Lemma removelast_snoc (s : str) : s <> [] -> exists c, s = removelast s ++ [c].
Proof. intros Hs. exists (List.last s "000"%char). by apply app_removelast_last. Qed.

Lemma length_removelast (s : str) : s <> [] -> S (length (removelast s)) = length s.
Proof.
  intros Hs. destruct (removelast_snoc s Hs) as [c Hc].
  rewrite Hc at 2. rewrite length_app. simpl. lia.
Qed.

Lemma split_go_first (sep x rest : str) (fuel : nat) (acc : str) :
  sep <> [] ->
  includes (x ++ removelast sep) sep = false ->
  length (x ++ sep ++ rest) < fuel ->
  split_go fuel sep acc (x ++ sep ++ rest)
  = (rev acc ++ x) :: split_go (S (length rest)) sep [] rest.
Proof.
  intros Hsep. revert fuel acc. induction x as [|c x IH]; intros fuel acc Hno Hfuel.
  - destruct fuel as [|fuel]; [simpl in Hfuel; lia|].
    destruct sep as [|s0 sep]; [done|].
    remember (split_go (S (length rest)) (s0 :: sep) [] rest) as pieces eqn:Hpieces.
    cbn [app split_go].
    change (s0 :: sep ++ rest) with ((s0 :: sep) ++ rest).
    rewrite startsWith_app, drop_app_length, app_nil_r. f_equal. subst pieces.
    apply split_go_fuel; [done| |lia]. simpl in Hfuel. rewrite length_app in Hfuel. lia.
  - destruct fuel as [|fuel]; [simpl in Hfuel; lia|].
    remember (split_go (S (length rest)) sep [] rest) as pieces eqn:Hpieces.
    cbn [app split_go].
    assert (startsWith sep (c :: x ++ sep ++ rest) = false) as ->.
    { destruct (startsWith sep (c :: x ++ sep ++ rest)) eqn:Hs; [|done].
      destruct (removelast_snoc sep Hsep) as [l Hl].
      assert (startsWith sep ((c :: x) ++ removelast sep) = true) as Hhere.
      { apply (startsWith_short sep _ ([l] ++ rest)).
        - rewrite <- !app_assoc. cbn [app]. rewrite Hl in Hs at 2.
          by rewrite <- !app_assoc in Hs.
        - rewrite length_app. pose proof (length_removelast sep Hsep). simpl. lia. }
      rewrite (includes_here _ _ Hhere) in Hno. done. }
    rewrite (IH fuel (c :: acc)).
    + subst pieces. simpl. by rewrite <- app_assoc.
    + destruct (includes (x ++ removelast sep) sep) eqn:E; [|done].
      cbn [app includes] in Hno. rewrite E, orb_true_r in Hno. done.
    + simpl in Hfuel. lia.
Qed.

Lemma split_first_occurrence (sep x rest : str) :
  sep <> [] -> includes (x ++ removelast sep) sep = false ->
  split sep (x ++ sep ++ rest) = x :: split sep rest.
Proof.
  intros Hsep Hno. unfold split. destruct sep as [|s0 sep'] eqn:E; [done|]. rewrite <- E in *.
  rewrite split_go_first; [done|done|done|lia].
Qed.

Lemma split_absent (sep s : str) : sep <> [] -> includes s sep = false -> split sep s = [s].
Proof.
  intros Hsep Hno. pose proof (split_join sep s Hsep) as Hj.
  destruct (split sep s) as [|p [|q rest]] eqn:E.
  - unfold split in E. destruct sep; [done|].
    destruct (split_go_cons (S (length s)) (a :: sep) [] s) as (p & r & Hp). congruence.
  - simpl in Hj. by subst.
  - rewrite join_cons in Hj. rewrite <- Hj in Hno.
    assert (includes (p ++ sep ++ join sep (q :: rest)) sep = true) as Hyes.
    { apply includes_spec. by exists p, (join sep (q :: rest)). }
    congruence.
Qed.

End SplitOnceFacts.

(** ** processGitHubRawMarkdown *)

Module GitHubFacts.

Import UploadStateStorage OutlineClient ContentExtractor GitHubReadme BracketFacts.
Import SplitOnceFacts ReplaceFacts Samples.

Section ReplaceWith.
Context {S : Type} (icase : bool) (r : regex) (f : S -> str -> captures -> S * str).

Lemma replace_with_inside (m rest : str) (st : S) :
  replace_with icase r f (length m) (m ++ rest) st = replace_with icase r f 0 rest st.
Proof. induction m as [|c m IH]; [done|]. simpl. apply IH. Qed.

Lemma replace_with_hit (m rest : str) (caps : captures) (st : S) :
  m <> [] -> matchAt icase r (m ++ rest) = Some (rest, caps) ->
  replace_with icase r f 0 (m ++ rest) st
  = let '(st1, out) := f st m caps in
    let '(st2, tail) := replace_with icase r f 0 rest st1 in
    (st2, out ++ tail).
Proof.
  intros Hm Hmatch. destruct m as [|c m]; [done|].
  cbn [app replace_with]. change (c :: m ++ rest) with ((c :: m) ++ rest).
  rewrite Hmatch.
  replace (length ((c :: m) ++ rest) - length rest) with (length (c :: m))
    by (rewrite length_app; lia).
  rewrite take_app_length. destruct (f st (c :: m) caps) as [st1 out].
  cbn [length]. by rewrite replace_with_inside.
Qed.

Lemma replace_with_inv (P : S -> Prop) :
  (forall st s rest caps,
     matchAt icase r s = Some (rest, caps) -> P st ->
     P (f st (take (length s - length rest) s) caps).1) ->
  forall s inside st, P st -> P (replace_with icase r f inside s st).1.
Proof.
  intros Hf. induction s as [|c s IH]; intros inside st Hst.
  - destruct inside; [|done]. simpl.
    destruct (matchAt icase r []) as [[rest caps]|] eqn:Hm; [|done].
    apply (Hf st [] rest caps Hm Hst).
  - destruct inside as [|n]; [|by apply IH]. cbn [replace_with].
    destruct (matchAt icase r (c :: s)) as [[rest caps]|] eqn:Hm.
    + pose proof (Hf st (c :: s) rest caps Hm Hst) as H1.
      destruct (f st (take (length (c :: s) - length rest) (c :: s)) caps) as [st1 out].
      simpl in H1.
      destruct (length (c :: s) - length rest) as [|n'].
      * pose proof (IH 0 st1 H1) as H2.
        by destruct (replace_with icase r f 0 s st1).
      * pose proof (IH n' st1 H1) as H2.
        by destruct (replace_with icase r f n' s st1).
    + pose proof (IH 0 st Hst) as H2. by destruct (replace_with icase r f 0 s st).
Qed.

End ReplaceWith.

Lemma isHttp_rawUrl (owner repo branch currentDir imageUrl : str) :
  isHttp (rawUrl owner repo branch currentDir imageUrl) = true.
Proof.
  unfold rawUrl, rawRoot, isHttp.
  destruct (startsWith (js "/") imageUrl); [done|]. by destruct currentDir.
Qed.

(** What [processGitHubRawMarkdown] keeps true of [images] and [seenUrls]. *)
Lemma collect_kept (owner repo branch currentDir : str) (st : Collected)
      (original imageUrl alt : str) :
  original = (if isHttp imageUrl then imageUrl
              else rawUrl owner repo branch currentDir imageUrl) ->
  imageUrl <> [] ->
  recorded owner repo branch currentDir st ->
  recorded owner repo branch currentDir (collect st original imageUrl alt).
Proof.
  intros Horig Hne (Hseen & Hdup & Hall). unfold collect.
  destruct (bool_decide (original ∈ seenUrls st)) eqn:Hin; [done|].
  apply bool_decide_eq_false in Hin. unfold recorded. cbn [collected seenUrls]. split_and!.
  - intros u. rewrite map_app, elem_of_union, elem_of_app, elem_of_singleton, Hseen.
    cbn [map originalUrl]. rewrite list_elem_of_singleton. tauto.
  - rewrite map_app. cbn [map originalUrl]. apply NoDup_app. split_and!; [done| |].
    + intros u Hu ->%list_elem_of_singleton. apply Hin. by apply Hseen.
    + apply NoDup_singleton.
  - apply Forall_app. split; [done|]. apply Forall_singleton. cbn. split_and!.
    + rewrite Horig. destruct (isHttp imageUrl) eqn:E; [done|]. apply isHttp_rawUrl.
    + done.
    + by exists imageUrl.
Qed.

Lemma githubReplacer_kept (owner repo branch currentDir : str) (st : Collected)
      (s rest : str) (caps : captures) :
  matchAt false imagePattern s = Some (rest, caps) ->
  recorded owner repo branch currentDir st ->
  recorded owner repo branch currentDir
    (githubReplacer owner repo branch currentDir st (take (length s - length rest) s) caps).1.
Proof.
  rewrite matchAt_image. intros (alt & url & -> & -> & _ & _ & Hne)%scanImage_elim Hst.
  unfold githubReplacer. change (group [(2, url); (1, alt)] 2) with url.
  change (group [(2, url); (1, alt)] 1) with alt. fold (isHttp url).
  destruct (isHttp url) eqn:E; cbn [fst]; apply collect_kept; try done; by rewrite E.
Qed.

(** X21 (processGitHubRawMarkdown).  Without owner and repository in
    the path of the page the text is returned as it is, with no image.
    Otherwise no two images of the result have the same [originalUrl]; every
    image is a content image whose [originalUrl] starts with [http://] or
    [https://], and whose [markdownUrl] is the URL as the text had it: the
    [originalUrl] itself when that was absolute, else the path from which
    the raw URL was made. *)
Theorem processGitHubRawMarkdown_images (pathname branch text : str) :
  let out := processGitHubRawMarkdown pathname branch text in
  match repoOf pathname with
  | None => out = mkProcessed text []
  | Some (owner, repo) =>
      NoDup (map originalUrl (images out))
      /\ Forall (fun img =>
                   isHttp (originalUrl img) = true
                   /\ isContentImage img = Some true
                   /\ exists imageUrl,
                        markdownUrl img = Some imageUrl /\ imageUrl <> []
                        /\ originalUrl img
                           = if isHttp imageUrl then imageUrl
                             else rawUrl owner repo branch (currentDirOf pathname) imageUrl)
                (images out)
  end.
Proof.
  unfold processGitHubRawMarkdown.
  destruct (repoOf pathname) as [[owner repo]|]; [|done].
  pose proof (replace_with_inv false imagePattern
                (githubReplacer owner repo branch (currentDirOf pathname))
                (recorded owner repo branch (currentDirOf pathname))
                (githubReplacer_kept owner repo branch (currentDirOf pathname))
                text 0 (mkCollected [] ∅)) as Hinv.
  destruct (replace_with false imagePattern
              (githubReplacer owner repo branch (currentDirOf pathname)) 0 text
              (mkCollected [] ∅)) as [st processed].
  destruct Hinv as (_ & Hdup & Hall).
  - split_and!; [|constructor|constructor]. intros u. cbn.
    rewrite elem_of_empty. by rewrite elem_of_nil.
  - done.
Qed.

Lemma includes_single (c : ascii) (u : str) :
  u <> [] -> c ∉ u -> includes [c] u = false.
Proof.
  intros Hne Hc. destruct (includes [c] u) eqn:E; [|done].
  apply includes_spec in E as (a & b & E). destruct u as [|x u]; [done|].
  destruct a as [|y a]; simpl in E.
  - injection E as -> _. by apply not_elem_of_cons in Hc as [? _].
  - injection E as _ E. by destruct a.
Qed.

Lemma replaceExact_once (x u rest new : str) :
  u <> [] -> includes (x ++ removelast u) u = false -> includes rest u = false ->
  replaceExact (x ++ u ++ rest) u new = x ++ new ++ rest.
Proof.
  intros Hu Hx Hrest. unfold replaceExact.
  rewrite split_first_occurrence, split_absent by done. done.
Qed.

Lemma processGitHubRawMarkdown_one (pathname branch owner repo alt rel : str) :
  repoOf pathname = Some (owner, repo) -> currentDirOf pathname = [] ->
  ("]"%char ∉ alt) -> (")"%char ∉ rel) -> rel <> [] ->
  isHttp rel = false -> startsWith (js "/") rel = false ->
  processGitHubRawMarkdown pathname branch (imageTag alt rel)
  = mkProcessed (imageTag alt (rawRoot owner repo branch ++ js "/" ++ rel))
                [mkImage (rawRoot owner repo branch ++ js "/" ++ rel) (Some rel) None
                         (Some alt) None None (Some true)].
Proof.
  intros Hrepo Hdir Halt Hrel Hne Hhttp Hroot.
  unfold processGitHubRawMarkdown. rewrite Hrepo, Hdir.
  rewrite <- (app_nil_r (imageTag alt rel)).
  rewrite (replace_with_hit false imagePattern _ (imageTag alt rel) [] [(2, rel); (1, alt)]).
  - unfold githubReplacer. change (group [(2, rel); (1, alt)] 2) with rel.
    change (group [(2, rel); (1, alt)] 1) with alt. fold (isHttp rel). rewrite Hhttp.
    unfold rawUrl. rewrite Hroot. cbn [replace_with].
    change (matchAt false imagePattern []) with (@None (str * captures)).
    cbn iota. rewrite app_nil_r. unfold collect. cbn [seenUrls collected].
    rewrite bool_decide_eq_false_2 by apply not_elem_of_empty. done.
  - destruct (ImageUrlFacts.imageTag_cons alt rel) as (c & t & ->). done.
  - rewrite matchAt_image. rewrite app_nil_r.
    rewrite <- (app_nil_r (imageTag alt rel)). by apply scanImage_intro.
Qed.

Section Run.
Context (w : World) (ui : nat -> storage -> storage) (withProgress : bool).

(** X22 (processGitHubRawMarkdown, processImagesInContent).  For an
    image that a GitHub README gives by a relative path, the extractor writes
    the raw URL into the body but records the path as [markdownUrl].  The
    upload step then replaces the path inside the raw URL: when the path
    occurs in the reference at its end only, the body it returns holds the
    hosted URL behind the raw URL of the directory. *)
Theorem github_relative_image (pathname branch owner repo alt rel hosted : str)
        (now : Z) (st : storage) (n : nat) :
  let absolute := rawRoot owner repo branch ++ js "/" ++ rel in
  let out := processGitHubRawMarkdown pathname branch (imageTag alt rel) in
  repoOf pathname = Some (owner, repo) -> currentDirOf pathname = [] ->
  ("]"%char ∉ alt) -> (")"%char ∉ rel) -> rel <> [] ->
  isHttp rel = false -> startsWith (js "/") rel = false ->
  includes (js "![" ++ alt ++ js "](" ++ rawRoot owner repo branch ++ js "/" ++ removelast rel)
           rel = false ->
  (forall j st', stopRequested (getState st') = false ->
                 stopRequested (getState (ui j st')) = false) ->
  outcome (uploadImage w absolute 0 n) = Resolved hosted ->
  hosted <> absolute -> hosted <> rel ->
  markdown out = imageTag alt absolute
  /\ images out = [mkImage absolute (Some rel) None (Some alt) None None (Some true)]
  /\ body (processImagesInContent w ui withProgress now (markdown out) (images out) st n)
     = imageTag alt (rawRoot owner repo branch ++ js "/" ++ hosted).
Proof.
  intros absolute out Hrepo Hdir Halt Hrel Hne Hhttp Hroot Honce Hui Hup Hnew Hnew'.
  unfold out. rewrite (processGitHubRawMarkdown_one pathname branch owner repo alt rel)
    by done.
  cbn [markdown images]. fold absolute. split_and!; [done|done|].
  set (img := mkImage absolute (Some rel) None (Some alt) None None (Some true)).
  set (content := imageTag alt absolute).
  assert (content = (js "![" ++ alt ++ js "](" ++ rawRoot owner repo branch ++ js "/")
                    ++ rel ++ js ")") as Hcontent.
  { unfold content, imageTag, absolute. by rewrite <- !app_assoc. }
  assert (referenceUrl img = rel) as Href.
  { unfold referenceUrl. cbn. by destruct rel. }
  assert (includes content rel = true) as Hinc.
  { apply includes_spec. eexists _, _. exact Hcontent. }
  assert (imagesToProcess content [img] = [img]) as Htodo.
  { rewrite PipelineFacts.imagesToProcess_all. unfold contentImages.
    destruct (negb (isGitHub content [img])); [|done].
    cbn [List.filter]. rewrite PipelineFacts.isInContent_strategies.
    unfold foundDirect. by rewrite Href, Hinc. }
  unfold processImagesInContent, finishRun. cbn [body]. rewrite Htodo.
  cbn [uploadLoop length].
  rewrite Hui by (unfold startRun; cbn [stored];
                  by rewrite UploadStateFacts.getState_setState).
  destruct (originalUrl img) as [|c t] eqn:Horig; [discriminate Horig|]. clear c t Horig.
  unfold processImage, startRun. cbn [session body].
  change (originalUrl img) with absolute. rewrite Hup.
  assert (str_eqb hosted absolute = false) as -> by by apply str_eqb_neq.
  cbn [negb body]. rewrite Href.
  assert (replaceExact content rel hosted
          = (js "![" ++ alt ++ js "](" ++ rawRoot owner repo branch ++ js "/")
            ++ hosted ++ js ")") as Hexact.
  { rewrite Hcontent. apply replaceExact_once; [done| |by apply includes_single].
    by rewrite <- !app_assoc. }
  unfold replaceImageUrlInContent. rewrite Hinc, Hexact.
  assert (str_eqb content ((js "![" ++ alt ++ js "](" ++ rawRoot owner repo branch ++ js "/")
                           ++ hosted ++ js ")") = false) as ->.
  { apply str_eqb_neq. rewrite Hcontent. intros Heq.
    apply app_inv_head, app_inv_tail in Heq. congruence. }
  cbn [andb negb]. unfold imageTag. by rewrite <- !app_assoc.
Qed.

End Run.

Lemma github_relative_image_witness :
  body (processImagesInContent world_accepting quiet false 0
          (markdown (processGitHubRawMarkdown repo_page (js "main")
                       (imageTag (js "logo") (js "img/logo.png"))))
          (images (processGitHubRawMarkdown repo_page (js "main")
                     (imageTag (js "logo") (js "img/logo.png"))))
          ∅ 0)
  = js "![logo](https://raw.githubusercontent.com/octo/cat/main/https://wiki.example/api/attachments.redirect?id=att-1)".
Proof.
  apply (github_relative_image world_accepting quiet false repo_page (js "main")
           (js "octo") (js "cat") (js "logo") (js "img/logo.png") hosted 0 ∅ 0);
    try reflexivity; try discriminate; try solve_notin.
  by intros j st'.
Defined.

Example processGitHubRawMarkdown_example :
  markdown (processGitHubRawMarkdown blob_page (js "main")
              (js "a ![x](../img/a.png) b ![y](/r.png) ![z](http://h/z.png) ![x](../img/a.png)"))
  = js "a ![x](https://raw.githubusercontent.com/octo/cat/main/docs/img/a.png) b ![y](https://raw.githubusercontent.com/octo/cat/main/r.png) ![z](http://h/z.png) ![x](https://raw.githubusercontent.com/octo/cat/main/docs/img/a.png)"
  /\ map originalUrl
         (images (processGitHubRawMarkdown blob_page (js "main")
                    (js "a ![x](../img/a.png) b ![y](/r.png) ![z](http://h/z.png) ![x](../img/a.png)")))
     = [js "https://raw.githubusercontent.com/octo/cat/main/docs/img/a.png";
        js "https://raw.githubusercontent.com/octo/cat/main/r.png"; js "http://h/z.png"]
  /\ currentDirOf blob_page = js "docs/guide".
Proof. vm_compute. done. Qed.

End GitHubFacts.

(** ** extractUrlsFromCss and extractImagesFromMarkdown *)

Module ExtractionFacts.

Import OutlineClient ContentExtractor GitHubReadme ImageExtraction BracketFacts Samples.

Section Inversion.
Context {R : Type} (icase : bool).

Lemma star_inv_all (a : atom) (s : str) (k : str -> option R) (x : R) :
  star icase a s k = Some x ->
  exists p s', s = p ++ s' /\ Forall (fun c => atomMatches icase a c = true) p
               /\ k s' = Some x.
Proof.
  induction s as [|c s IH]; simpl.
  - intros Hk. by exists [], [].
  - destruct (atomMatches icase a c) eqn:Hc.
    + destruct (star icase a s k) as [y|] eqn:Hs.
      * intros [= ->]. destruct (IH eq_refl) as (p & s' & -> & Hp & Hk).
        exists (c :: p), s'. split_and!; [done|by constructor|done].
      * intros Hk. by exists [], (c :: s).
    + intros Hk. by exists [], (c :: s).
Qed.

Lemma run_one (a : atom) (s : str) (caps : captures) (k : str -> captures -> option R)
      (x : R) :
  run icase (One a) s caps k = Some x ->
  exists c s', s = c :: s' /\ atomMatches icase a c = true /\ k s' caps = Some x.
Proof.
  simpl. destruct s as [|c s']; [done|]. destruct (atomMatches icase a c) eqn:Hc; [|done].
  intros Hk. by exists c, s'.
Qed.

Lemma run_plus (a : atom) (s : str) (caps : captures) (k : str -> captures -> option R)
      (x : R) :
  run icase (Plus a) s caps k = Some x ->
  exists m s', s = m ++ s' /\ m <> []
               /\ Forall (fun c => atomMatches icase a c = true) m
               /\ k s' caps = Some x.
Proof.
  simpl. destruct s as [|c s1]; [done|]. destruct (atomMatches icase a c) eqn:Hc; [|done].
  intros (p & s' & -> & Hp & Hk)%star_inv_all.
  exists (c :: p), s'. split_and!; [done|done|by constructor|done].
Qed.

Lemma run_optional (a : atom) (s : str) (caps : captures)
      (k : str -> captures -> option R) (x : R) :
  run icase (Alt (One a) Eps) s caps k = Some x ->
  exists p s', s = p ++ s' /\ k s' caps = Some x.
Proof.
  cbn [run]. destruct s as [|c s1].
  - intros Hk. by exists [], [].
  - destruct (atomMatches icase a c).
    + destruct (k s1 caps) as [y|] eqn:Hk.
      * intros [= ->]. by exists [c], s1.
      * intros Hk'. by exists [], (c :: s1).
    + intros Hk'. by exists [], (c :: s1).
Qed.

Lemma run_seq (r1 r2 : regex) (s : str) (caps : captures)
      (k : str -> captures -> option R) (x : R) :
  run icase (Seq r1 r2) s caps k = Some x ->
  run icase r1 s caps (fun s' caps' => run icase r2 s' caps' k) = Some x.
Proof. done. Qed.

Lemma run_group_plus (i : nat) (a : atom) (s : str) (caps : captures)
      (k : str -> captures -> option R) (x : R) :
  run icase (Group i (Plus a)) s caps k = Some x ->
  exists m s', s = m ++ s' /\ m <> []
               /\ Forall (fun c => atomMatches icase a c = true) m
               /\ k s' ((i, m) :: caps) = Some x.
Proof.
  intros Hrun.
  apply (run_plus a s caps
           (fun s' caps' => k s' ((i, take (length s - length s') s) :: caps'))) in Hrun
    as (m & s' & -> & Hne & Hm & Hk).
  exists m, s'. split_and!; try done.
  replace (length (m ++ s') - length s') with (length m) in Hk
    by (rewrite length_app; lia).
  by rewrite take_app_length in Hk.
Qed.

End Inversion.

Lemma matchAt_css (s rest : str) (caps : captures) :
  matchAt false cssUrlPattern s = Some (rest, caps) ->
  length rest < length s
  /\ exists url, caps = [(1, url)] /\ url <> []
                 /\ Forall (fun c => atomMatches false cssUrlChar c = true) url.
Proof.
  unfold matchAt, cssUrlPattern. cbn [seqs fold_right].
  intros (m & s1 & -> & Hm & Hk)%run_seq%run_lit.
  apply run_seq, run_optional in Hk as (q1 & s2 & -> & Hk).
  apply run_seq, run_group_plus in Hk as (url & s3 & -> & Hne & Hurl & Hk).
  apply run_seq, run_optional in Hk as (q2 & s4 & -> & Hk).
  apply run_seq, run_one in Hk as (c & s5 & -> & _ & Hk).
  cbn [run] in Hk. injection Hk as <- <-.
  split.
  - rewrite !length_app. simpl. apply (f_equal length) in Hm. rewrite !length_map in Hm.
    simpl in Hm. lia.
  - by exists url.
Qed.

Section Loop.
Context {S : Type} (icase : bool) (r : regex) (body : S -> captures -> S).

Lemma execLoop_inv (P : S -> Prop) (text : str) :
  (forall a s rest caps,
     text = a ++ s -> matchAt icase r s = Some (rest, caps) ->
     length rest < length s /\ forall st, P st -> P (body st caps)) ->
  forall s a inside st,
    text = a ++ s -> P st ->
    exists st', execLoop icase r body inside s st = Some st' /\ P st'.
Proof.
  intros Hbody. induction s as [|c s IH]; intros a inside st Htext Hst.
  - destruct inside; [|by exists st]. simpl.
    destruct (matchAt icase r []) as [[rest caps]|] eqn:Hm; [|by exists st].
    destruct (Hbody a [] rest caps Htext Hm) as [Hlen _]. simpl in Hlen. lia.
  - assert (text = (a ++ [c]) ++ s) as Hnext by (by rewrite <- app_assoc).
    destruct inside as [|n]; [|by apply (IH (a ++ [c]))]. cbn [execLoop].
    destruct (matchAt icase r (c :: s)) as [[rest caps]|] eqn:Hm;
      [|by apply (IH (a ++ [c]))].
    destruct (Hbody a (c :: s) rest caps Htext Hm) as [Hlen Hstep].
    destruct (length (c :: s) - length rest) as [|n'] eqn:Hn; [lia|].
    apply (IH (a ++ [c])); [done|]. by apply Hstep.
Qed.

End Loop.

(** X23 (extractUrlsFromCss).  The loop ends for every text, and no URL
    that it returns is empty or holds a quote, a closing parenthesis or white
    space. *)
Theorem extractUrlsFromCss_urls (cssValue : str) :
  exists urls,
    extractUrlsFromCss cssValue = Some urls
    /\ Forall (fun url =>
                 url <> []
                 /\ Forall (fun c => c <> SQUOTE /\ c <> DQUOTE /\ c <> ")"%char
                                      /\ isWhiteSpace c = false) url)
              urls.
Proof.
  unfold extractUrlsFromCss.
  apply (execLoop_inv false cssUrlPattern _
           (Forall (fun url =>
                      url <> []
                      /\ Forall (fun c => c <> SQUOTE /\ c <> DQUOTE /\ c <> ")"%char
                                           /\ isWhiteSpace c = false) url))
           cssValue) with (a := []); [|done|done].
  intros a s rest caps _ (Hlen & url & -> & Hne & Hurl)%matchAt_css.
  split; [done|]. intros urls Hurls. apply Forall_app. split; [done|].
  apply Forall_singleton. change (group [(1, url)] 1) with url. split; [done|].
  eapply Forall_impl; [exact Hurl|]. intros c Hc. unfold cssUrlChar, atomMatches in Hc.
  rewrite xorb_true_l in Hc. apply negb_true_iff in Hc.
  cbn [existsb memberMatches canon] in Hc. rewrite orb_false_r in Hc.
  apply orb_false_elim in Hc as [H1 Hc]. apply orb_false_elim in Hc as [H2 Hc].
  apply orb_false_elim in Hc as [H3 Hc].
  apply ceq_neq in H1, H2, H3. split_and!; try done; by intros ->.
Qed.

Section WithPage.
Context `{UrlApi}
        (getImageDimensionsFromHtml : str -> str -> option nat * option nat)
        (extractImagesFromHtmlSync : str -> list ImageInfo).

Lemma gathered_push (text originalHtml : str) (st : Collected) (img : ImageInfo) :
  gathered extractImagesFromHtmlSync text originalHtml st ->
  originalUrl img ∉ seenUrls st ->
  fromPage extractImagesFromHtmlSync text originalHtml img ->
  gathered extractImagesFromHtmlSync text originalHtml
           (mkCollected (collected st ++ [img]) ({[ originalUrl img ]} ∪ seenUrls st)).
Proof.
  intros (Hseen & Hdup & Hall) Hnew Himg. unfold gathered. cbn [collected seenUrls].
  split_and!.
  - intros u. rewrite map_app, elem_of_union, elem_of_app, elem_of_singleton, Hseen.
    cbn [map]. rewrite list_elem_of_singleton. tauto.
  - rewrite map_app. cbn [map]. apply NoDup_app. split_and!; [done| |apply NoDup_singleton].
    intros u Hu ->%list_elem_of_singleton. apply Hnew. by apply Hseen.
  - apply Forall_app. split; [done|]. by apply Forall_singleton.
Qed.

Lemma markdownImage_gathered (text originalHtml a s rest : str) (caps : captures)
      (st : Collected) :
  text = a ++ s -> matchAt false imagePattern s = Some (rest, caps) ->
  gathered extractImagesFromHtmlSync text originalHtml st ->
  gathered extractImagesFromHtmlSync text originalHtml
           (markdownImage getImageDimensionsFromHtml originalHtml st caps).
Proof.
  intros Htext Hm Hst. rewrite matchAt_image in Hm.
  apply scanImage_elim in Hm as (alt & url & -> & -> & _ & _ & Hne).
  unfold markdownImage. change (group [(2, url); (1, alt)] 2) with url.
  change (group [(2, url); (1, alt)] 1) with alt.
  destruct url as [|c url'] eqn:Hurl; [done|]. rewrite <- Hurl in *. clear Hurl c url'.
  destruct (resolveURL url) as [absoluteUrl|] eqn:Hres; [|done].
  destruct (bool_decide (absoluteUrl ∈ seenUrls st)) eqn:Hseen; [done|].
  apply bool_decide_eq_false in Hseen.
  destruct (getImageDimensionsFromHtml originalHtml url) as [width height].
  assert (includes text url = true) as Hinc.
  { apply includes_spec. exists (a ++ js "![" ++ alt ++ js "]("), (js ")" ++ rest).
    rewrite Htext. unfold imageTag. by rewrite <- !app_assoc. }
  apply (gathered_push text originalHtml st
           (mkImage absoluteUrl (Some (if isHttp url then url else absoluteUrl)) None
                    (Some alt) width height (Some true))); [done|done|].
  split; [done|]. left. exists url. cbn [originalUrl markdownUrl]. split_and!; try done.
  intros Hhttp. rewrite PipelineFacts.isInContent_strategies. unfold foundDirect, referenceUrl.
  cbn [markdownUrl]. rewrite Hhttp. destruct url; [done|]. cbn. by rewrite Hinc.
Qed.

Lemma htmlImage_gathered (text originalHtml : str) (st : Collected) (image : ImageInfo) :
  image ∈ extractImagesFromHtmlSync originalHtml ->
  gathered extractImagesFromHtmlSync text originalHtml st ->
  gathered extractImagesFromHtmlSync text originalHtml (htmlImage st image).
Proof.
  intros Hin Hst. unfold htmlImage.
  destruct (bool_decide (originalUrl image ∈ seenUrls st)) eqn:Hseen; [done|].
  apply bool_decide_eq_false in Hseen. cbn [negb andb].
  destruct (isValidImageUrl (originalUrl image)) eqn:Hvalid; [|done].
  apply (gathered_push text originalHtml st
           (mkImage (originalUrl image) (Some (referenceUrl image)) (outlineUrl image)
                    (OutlineClient.alt image) (width image) (height image) (Some true)));
    [done|done|].
  split; [done|]. right. by exists image.
Qed.

Lemma fold_htmlImage_gathered (text originalHtml : str) (images : list ImageInfo)
      (st : Collected) :
  images ⊆ extractImagesFromHtmlSync originalHtml ->
  gathered extractImagesFromHtmlSync text originalHtml st ->
  gathered extractImagesFromHtmlSync text originalHtml (fold_left htmlImage images st).
Proof.
  revert st. induction images as [|image images IH]; intros st Hsub Hst; [done|].
  cbn [fold_left]. apply IH.
  - intros x Hx. apply Hsub. by right.
  - apply htmlImage_gathered; [|done]. apply Hsub. by left.
Qed.

(** X24 (extractImagesFromMarkdown).  The loops end for every text; no
    two images of the result have the same [originalUrl]; and every image is
    a content image that comes from a reference of the markdown, whose URL
    resolves to its [originalUrl], or from a valid image of the HTML.  An
    image taken from a reference with an [http://] or [https://] URL passes
    the body filter of the upload step. *)
Theorem extractImagesFromMarkdown_images (text originalHtml : str) :
  exists images,
    extractImagesFromMarkdown getImageDimensionsFromHtml extractImagesFromHtmlSync
                              text originalHtml = Some images
    /\ NoDup (map originalUrl images)
    /\ Forall (fromPage extractImagesFromHtmlSync text originalHtml) images.
Proof.
  unfold extractImagesFromMarkdown.
  destruct (execLoop_inv false imagePattern (markdownImage getImageDimensionsFromHtml
                                                           originalHtml)
              (gathered extractImagesFromHtmlSync text originalHtml) text)
    with (s := text) (a := @nil ascii) (inside := 0) (st := mkCollected [] ∅)
    as (st & -> & Hst).
  - intros a s rest caps Htext Hm. split.
    + rewrite matchAt_image in Hm.
      apply scanImage_elim in Hm as (alt & url & -> & _). unfold imageTag.
      rewrite !length_app. simpl. lia.
    + intros st Hst. by apply (markdownImage_gathered text originalHtml a s rest).
  - done.
  - split_and!; [|constructor|constructor]. intros u. cbn.
    rewrite elem_of_empty. by rewrite elem_of_nil.
  - eexists. split; [done|].
    by destruct (fold_htmlImage_gathered text originalHtml
                   (extractImagesFromHtmlSync originalHtml) st) as (_ & ? & ?).
Qed.

End WithPage.

Example extractUrlsFromCss_example :
  extractUrlsFromCss (js "background: url('a.png'), url(b.jpg) , url( c.png )")
  = Some [js "a.png"; js "b.jpg"].
Proof. vm_compute. reflexivity. Qed.

Example isValidImageUrl_examples :
  map isValidImageUrl
      [js ""; js "https://x/github.com/icon.svg"; js "data:image/png;base64,AAA";
       js "https://x/a/logo.png"; js "https://x/a/pic.PNG?x=1"; js "https://x/a/pic.png#f";
       js "https://x/photos/1"; js "https://x/a/800x600/1"; js "https://x/a/w_300";
       js "https://x/a/w_30"; js "https://x/a.svg"; js "https://x/a.jpeg"]
  = [false; true; false; false; true; false; true; true; true; false; false; true].
Proof. vm_compute. reflexivity. Qed.

Example extractImagesFromMarkdown_example :
  option_map (map originalUrl)
    (@extractImagesFromMarkdown plainApi (fun _ _ => (None, None))
       (fun _ => [image (js "https://site.example/docs/a.png") None;
                  image (js "https://cdn/photo-1.jpg") None;
                  image (js "https://cdn/icon.png") None])
       (js "![a](a.png) ![b](https://h/b.png) ![a](a.png)") [])
  = Some [js "https://site.example/docs/a.png"; js "https://h/b.png";
          js "https://cdn/photo-1.jpg"].
Proof. vm_compute. reflexivity. Qed.

End ExtractionFacts.

(** ** What a successful upload is *)

Module SuccessFacts.

Import OutlineClient UploadFacts Samples.





End SuccessFacts.

(** ** Progress reports *)

Module ProgressFacts.

Import UploadStateStorage OutlineClient PipelineFacts.

Lemma progressReports_app (t1 t2 : list PipelineEvent) :
  progressReports (t1 ++ t2) = progressReports t1 ++ progressReports t2.
Proof. apply omap_app. Qed.

Lemma sorted_snoc (l : list nat) (x : nat) :
  StronglySorted lt l -> Forall (fun y => y < x) l -> StronglySorted lt (l ++ [x]).
Proof.
  induction 1 as [|y l Hl IH Hy]; intros Hx; simpl.
  - repeat constructor.
  - apply Forall_cons in Hx as [Hyx Hx]. constructor; [by apply IH|].
    apply Forall_app. split; [done|]. by repeat constructor.
Qed.

Section Loop.
Context (w : World) (ui : nat -> storage -> storage) (withProgress : bool).

(** The reports so far are those of the images before [i]. *)
Lemma processImage_reports (total i : nat) (image : ImageInfo) (st : storage) (r : Run) :
  progressReports (trace (processImage w withProgress total i image st r))
  = progressReports (trace r)
  \/ (withProgress = true
      /\ progressReports (trace (processImage w withProgress total i image st r))
         = progressReports (trace r) ++ [(S i, total)]).
Proof.
  unfold processImage.
  destruct (outcome (uploadImage w (originalUrl image) 0 (session r))) as [hosted|e];
    [destruct (negb (str_eqb hosted (originalUrl image)))|]; cbn [trace];
    rewrite !progressReports_app; unfold progress.
  - destruct withProgress, (0 <? i); cbn; rewrite ?app_nil_r; auto.
  - destruct (0 <? i); cbn; rewrite ?app_nil_r; auto.
  - destruct (0 <? i), (is429 e); cbn; rewrite ?app_nil_r; auto.
Qed.

Lemma uploadLoop_reports (total : nat) (todo : list ImageInfo) (i : nat) (r : Run) :
  i + length todo <= total ->
  Forall (fun p => p.1 <= i /\ p.2 = total) (progressReports (trace r)) ->
  StronglySorted lt (map fst (progressReports (trace r))) ->
  Forall (fun p => p.1 <= total /\ p.2 = total)
         (progressReports (trace (uploadLoop w ui withProgress total i todo r)))
  /\ StronglySorted lt
       (map fst (progressReports (trace (uploadLoop w ui withProgress total i todo r)))).
Proof.
  revert i r. induction todo as [|image rest IH]; intros i r Hlen Hall Hsorted; simpl.
  - split; [|done]. eapply Forall_impl; [exact Hall|]. intros p [? ?]. split; [lia|done].
  - simpl in Hlen.
    destruct (stopRequested (getState (ui i (stored r)))); cbn [trace].
    + rewrite progressReports_app. cbn. rewrite app_nil_r. split; [|done].
      eapply Forall_impl; [exact Hall|]. intros p [? ?]. split; [lia|done].
    + assert (Forall (fun p => p.1 <= S i /\ p.2 = total) (progressReports (trace r)))
        as Hall'.
      { eapply Forall_impl; [exact Hall|]. intros p [? ?]. split; [lia|done]. }
      destruct (originalUrl image) as [|c url]; apply IH; try done; try lia.
      * destruct (processImage_reports total i image
                    (updateProgress i total (ui i (stored r))) r) as [->|[_ ->]]; [done|].
        apply Forall_app. split; [done|]. by repeat constructor.
      * destruct (processImage_reports total i image
                    (updateProgress i total (ui i (stored r))) r) as [->|[_ ->]]; [done|].
        rewrite map_app. apply sorted_snoc; [done|].
        apply Forall_map. eapply Forall_impl; [exact Hall|]. intros p [? _]. simpl. lia.
Qed.

Lemma uploadLoop_reports_more (total : nat) (todo : list ImageInfo) (i : nat) (r : Run) :
  exists more,
    progressReports (trace (uploadLoop w ui withProgress total i todo r))
    = progressReports (trace r) ++ more
    /\ (withProgress = false -> more = []).
Proof.
  revert i r. induction todo as [|image rest IH]; intros i r; simpl.
  - exists []. by rewrite app_nil_r.
  - destruct (stopRequested (getState (ui i (stored r)))); cbn [trace].
    + exists []. by rewrite progressReports_app.
    + destruct (originalUrl image) as [|c url].
      * apply (IH (S i) (mkRun _ _ _ _ _)).
      * destruct (IH (S i) (processImage w withProgress total i image
                              (updateProgress i total (ui i (stored r))) r))
          as (more & -> & Hmore).
        destruct (processImage_reports total i image
                    (updateProgress i total (ui i (stored r))) r) as [->|[Hyes ->]].
        -- by exists more.
        -- exists ((S i, total) :: more). rewrite <- app_assoc. split; [done|].
           intros Hno. congruence.
Qed.

End Loop.

(** X26 (processImagesInContent).  The reports to [onProgress] never
    go back and never pass the total: their first components ascend
    strictly, each is at most the number of images to process, which is the
    second component of every report; with a callback the first report is
    [(0, total)], without one there is none. *)
Theorem progress_reports_ascend (w : World) (ui : nat -> storage -> storage)
        (withProgress : bool) (now : Z) (content : str) (images : list ImageInfo)
        (st : storage) (n : nat) :
  let total := length (imagesToProcess content images) in
  let reports :=
    progressReports (trace (processImagesInContent w ui withProgress now content images st n)) in
  Forall (fun p => p.1 <= total /\ p.2 = total) reports
  /\ StronglySorted lt (map fst reports)
  /\ (if withProgress then head reports = Some (0, total) else reports = []).
Proof.
  intros total reports. unfold reports, processImagesInContent, finishRun.
  cbn [trace]. fold total.
  set (todo := imagesToProcess content images).
  assert (progressReports (trace (startRun withProgress now content todo st n))
          = if withProgress then [(0, total)] else []) as Hstart.
  { unfold startRun, progress. cbn [trace]. by destruct withProgress. }
  destruct (uploadLoop_reports w ui withProgress total todo 0
              (startRun withProgress now content todo st n)) as [Hall Hsorted].
  - done.
  - rewrite Hstart. destruct withProgress; by repeat constructor.
  - rewrite Hstart. destruct withProgress; by repeat constructor.
  - split_and!; [done|done|].
    destruct (uploadLoop_reports_more w ui withProgress total todo 0
                (startRun withProgress now content todo st n)) as (more & -> & Hmore).
    rewrite Hstart. destruct withProgress; [done|]. by rewrite Hmore.
Qed.

End ProgressFacts.

(** ** escapeRegExp *)

Module EscapeFacts.

Import Escaping.

Lemma oneOf_syntax (c : ascii) :
  atomMatches false (oneOf syntaxCharacters) c = isSyntaxCharacter c.
Proof.
  unfold isSyntaxCharacter, oneOf, atomMatches. rewrite xorb_false_l.
  induction syntaxCharacters as [|x l IH]; [done|]. cbn [map existsb memberMatches canon].
  rewrite IH. f_equal. unfold ceq. apply Ascii.eqb_sym.
Qed.

Lemma escapeRegExp_cons (c : ascii) (s : str) :
  escapeRegExp (c :: s)
  = (if isSyntaxCharacter c then ["\"%char; c] else [c]) ++ escapeRegExp s.
Proof.
  unfold escapeRegExp. destruct (isSyntaxCharacter c) eqn:Hc.
  - change (c :: s) with ([c] ++ s).
    rewrite (replaceAll_hit false _ _ [c] s []); [done|done|].
    unfold matchAt. cbn [run app]. by rewrite oneOf_syntax, Hc.
  - cbn [app]. apply (replaceAll_miss false). unfold matchAt. cbn [run]. by rewrite oneOf_syntax, Hc.
Qed.

Lemma readLiteral_escapeRegExp (s : str) :
  readLiteral (escapeRegExp s) = Some (map (fun c => One (Lit c)) s).
Proof.
  induction s as [|c s IH]; [done|].
  rewrite escapeRegExp_cons.
  destruct (isSyntaxCharacter c) eqn:Hc; cbn [app readLiteral].
  - by rewrite ceq_refl, Hc, IH.
  - assert (ceq c "\" = false) as ->.
    { apply ceq_neq. intros ->. done. }
    by rewrite Hc, IH.
Qed.

(** X27 (escapeRegExp).  The escaped text, read as the source of a pattern,
    is the text taken literally, code unit by code unit: the patterns that
    the client builds around an escaped URL match that URL and nothing else
    in its place.  Escaping at most doubles the length, and a text without
    syntax characters is left as it is. *)
Theorem escapeRegExp_literal (s : str) :
  option_map seqs (readLiteral (escapeRegExp s)) = Some (lit s)
  /\ length s <= length (escapeRegExp s) <= 2 * length s
  /\ (Forall (fun c => isSyntaxCharacter c = false) s -> escapeRegExp s = s).
Proof.
  split; [|split].
  - by rewrite readLiteral_escapeRegExp.
  - induction s as [|c s IH]; [done|]. rewrite escapeRegExp_cons, length_app.
    destruct (isSyntaxCharacter c); simpl; lia.
  - induction 1 as [|c s Hc _ IH]; [done|]. by rewrite escapeRegExp_cons, Hc, IH.
Qed.

Example escapeRegExp_example :
  escapeRegExp (js "https://h/a.png?x=(1)") = js "https://h/a\.png\?x=\(1\)".
Proof. vm_compute. reflexivity. Qed.

End EscapeFacts.
